(** * Thirsty-Lang: parser, validator and dual-target compiler

    A shallow embedding of [src/thirsty_lang] (parser.py, validator.py,
    compiler.py with the records of grammar.py and ir.py) and the proofs
    of the properties its specification states about them. *)

From Stdlib Require Import String Ascii List ZArith NArith Bool Lia Arith.
From Stdlib Require Import Permutation Sorted Relations SpecFloat.
Import ListNotations.

Local Open Scope string_scope.
Local Open Scope list_scope.

(** ** Python values

    Documents, task inputs, labels and both compiled artifacts are plain
    Python data: [None], booleans, integers, floats, strings, lists and
    dicts with string keys.  Strings are their UTF-8 bytes, on which the
    byte-wise order of [String.compare] is Python's code-point order. *)

Local Unset Elimination Schemes.
Inductive py_value : Type :=
| PyNone
| PyBool (b : bool)
| PyInt (z : Z)
| PyFloat (f : spec_float)
| PyStr (s : string)
| PyList (l : list py_value)
| PyDict (d : list (string * py_value)).
Local Set Elimination Schemes.

(** A Python [dict] keeps insertion order; keys are unique. *)
Definition dict (V : Type) : Type := list (string * V).

Section Dict.
Context {V : Type}.

(** [d.get(k)] *)
Fixpoint dict_get (k : string) (d : dict V) : option V :=
  match d with
  | [] => None
  | (k', v) :: d' => if String.eqb k' k then Some v else dict_get k d'
  end.

(** [d[k] = v]: an existing key keeps its position. *)
Fixpoint dict_set (k : string) (v : V) (d : dict V) : dict V :=
  match d with
  | [] => [(k, v)]
  | (k', v') :: d' =>
      if String.eqb k' k then (k', v) :: d' else (k', v') :: dict_set k v d'
  end.

Definition dict_keys (d : dict V) : list string := map fst d.

(** [k in d] *)
Definition dict_mem (k : string) (d : dict V) : bool :=
  match dict_get k d with Some _ => true | None => false end.

(** [{**base, **extra}] *)
Definition dict_update (base extra : dict V) : dict V :=
  fold_left (fun d kv => dict_set (fst kv) (snd kv) d) extra base.

(** The well-formedness every Python dict has. *)
Definition dict_wf (d : dict V) : Prop := NoDup (dict_keys d).

(** [d1 == d2] on dicts ignores insertion order. *)
Definition dict_equiv (d1 d2 : dict V) : Prop :=
  forall k, dict_get k d1 = dict_get k d2.
End Dict.

(** A Python [set] of strings: the elements in insertion order.  The
    order in which a [for] loop visits them depends on the hash seed;
    code that iterates a set is modelled over an arbitrary such order. *)
Definition pyset : Type := list string.

Definition set_mem (x : string) (s : pyset) : bool :=
  existsb (String.eqb x) s.

Definition set_add (x : string) (s : pyset) : pyset :=
  if set_mem x s then s else s ++ [x].

Definition set_discard (x : string) (s : pyset) : pyset :=
  filter (fun y => negb (String.eqb x y)) s.

(** ** Exceptions (errors.py) *)

Module errors.

(** The texts of [ParseError], by the place that raises them. *)
Inductive parse_msg : Type :=
| YamlSyntax (detail : string)      (* "YAML parse error: ..." *)
| RootNotMapping                    (* "top-level document must be a mapping" *)
| MissingField (key : string)       (* "missing required field: 'tasks'" *)
| FieldNotList (key : string)       (* "'tasks' must be a list" *)
| TaskNotMapping                    (* "each task entry must be a mapping" *)
| EdgesNotList                      (* "edges must be a list" *)
| EdgeNotMapping.                   (* "each edge entry must be a mapping" *)

(** The texts of [ValidationError], with the entity each one names. *)
Inductive validation_msg : Type :=
| FlowIdRequired                    (* "flow id is required and must be non-empty" *)
| TenantRequired                    (* "tenant is required and must be non-empty" *)
| TaskRequired                      (* "at least one task is required" *)
| TaskNameRequired                  (* "task name is required and must be non-empty" *)
| DuplicateTask (name : string)     (* "duplicate task name: 'n'" *)
| AgentRequired (name : string)     (* "task 'n': agent is required" *)
| NotAnInteger (name key : string) (val : py_value)
                                    (* "task 'n': key must be an integer, got v" *)
| TimeoutNotPositive (name : string)(* "task 'n': timeout_ms must be > 0" *)
| UnknownSource (name : string)     (* "edge source 's' does not match any task name" *)
| UnknownTarget (name : string)     (* "edge target 't' does not match any task name" *)
| InvalidRiskLevel (level : string) (* "invalid risk_level 'r'; must be one of [...]" *)
| CycleAt (name : string).          (* "cycle detected in task dependency graph at 'n'" *)

(** The two exceptions a failed conversion by [dict] raises. *)
Inductive conversion_exn : Type :=
| ConversionTypeError
| ConversionValueError.

Inductive exn : Type :=
| ParseError (m : parse_msg)
| ValidationError (m : validation_msg)
| KeyError (k : string)
| TypeError
| ValueError
| OverflowError
| AttributeError
| RecursionError.

Definition conversion_error (e : conversion_exn) : exn :=
  match e with
  | ConversionTypeError => TypeError
  | ConversionValueError => ValueError
  end.

(** The exceptions of [repr], and of [str] on a value that is no
    string: [ValueError] on a value that holds an integer of more than
    4300 digits (CPython from 3.11 on), [RecursionError] on a value
    nested deeper than the recursion limit. *)
Inductive repr_exn : Type := ReprValueError | ReprRecursionError.

Definition repr_error (e : repr_exn) : exn :=
  match e with
  | ReprValueError => ValueError
  | ReprRecursionError => RecursionError
  end.

(** The exceptions other than [yaml.YAMLError] that [yaml.safe_load]
    raises: [ValueError] on a decimal integer of more than 4300 digits,
    [RecursionError] on a document nested deeper than the recursion
    limit. *)
Inductive loader_exn : Type := LoaderValueError | LoaderRecursionError.

Definition loader_error (e : loader_exn) : exn :=
  match e with
  | LoaderValueError => ValueError
  | LoaderRecursionError => RecursionError
  end.

End errors.
Import errors.

(** The outcome of a call: a value, a raised exception, or a loop or
    recursion of the model that was cut off by its step bound. *)
Inductive res (A : Type) : Type :=
| Ok (a : A)
| Raise (e : exn)
| OutOfFuel.
Arguments Ok {A} a.
Arguments Raise {A} e.
Arguments OutOfFuel {A}.

Definition bind {A B : Type} (m : res A) (k : A -> res B) : res B :=
  match m with
  | Ok a => k a
  | Raise e => Raise e
  | OutOfFuel => OutOfFuel
  end.

Notation "x <- m ;; k" := (bind m (fun x => k))
  (at level 61, m at next level, right associativity).
Notation "' p <- m ;; k" := (bind m (fun p => k))
  (at level 61, p pattern, m at next level, right associativity).

(** [d[k]], which raises [KeyError] on a missing key. *)
Definition dict_item {V : Type} (k : string) (d : dict V) : res V :=
  match dict_get k d with
  | Some v => Ok v
  | None => Raise (KeyError k)
  end.

(** ** sorted()

    Python's [sorted] is a stable sort; so is insertion from the right
    that puts an element before the ones it does not exceed. *)
Section Sorted.
Context {A : Type} (leb : A -> A -> bool).

Fixpoint insert (x : A) (l : list A) : list A :=
  match l with
  | [] => [x]
  | y :: l' => if leb x y then x :: y :: l' else y :: insert x l'
  end.

Fixpoint sorted (l : list A) : list A :=
  match l with
  | [] => []
  | x :: l' => insert x (sorted l')
  end.
End Sorted.

(** Tuples [(name, degree)] compare by name, then by degree. *)
Definition item_leb (a b : string * Z) : bool :=
  match String.compare (fst a) (fst b) with
  | Lt => true
  | Eq => Z.leb (snd a) (snd b)
  | Gt => false
  end.

(** ** Built-ins the code calls *)

(** [for x in l: s = f(x, s)], stopping at the first exception. *)
Fixpoint for_each {A S : Type} (f : A -> S -> res S) (l : list A) (s : S) : res S :=
  match l with
  | [] => Ok s
  | x :: l' => s' <- f x s ;; for_each f l' s'
  end.

(** [d.get(k, default)] *)
Definition dict_get_default {V : Type} (k : string) (default : V) (d : dict V) : V :=
  match dict_get k d with
  | Some v => v
  | None => default
  end.

(** [bool(v)] *)
Definition truthy (v : py_value) : bool :=
  match v with
  | PyNone => false
  | PyBool b => b
  | PyInt z => negb (Z.eqb z 0)
  | PyFloat (S754_zero _) => false
  | PyFloat _ => true
  | PyStr s => negb (String.eqb s "")
  | PyList [] => false
  | PyList _ => true
  | PyDict [] => false
  | PyDict _ => true
  end.

(** [a or b] *)
Definition py_or (a b : py_value) : py_value := if truthy a then a else b.

(** [int(f)] on a float truncates toward zero; infinities and NaN raise. *)
Definition int_of_float (f : spec_float) : res Z :=
  match f with
  | S754_zero _ => Ok 0%Z
  | S754_infinity _ => Raise OverflowError
  | S754_nan => Raise ValueError
  | S754_finite neg m e =>
      let magnitude := Z.shiftl (Zpos m) e in
      Ok (if neg then (- magnitude)%Z else magnitude)
  end.

(** [int(val)]; [int_of_str] is [int] on a string, where [None] stands
    for its [ValueError]. *)
Definition py_int (int_of_str : string -> option Z) (val : py_value) : res Z :=
  match val with
  | PyInt z => Ok z
  | PyBool b => Ok (if b then 1 else 0)%Z
  | PyFloat f => int_of_float f
  | PyStr s =>
      match int_of_str s with
      | Some z => Ok z
      | None => Raise ValueError
      end
  | PyNone | PyList _ | PyDict _ => Raise TypeError
  end.

(** [str.strip]: the whitespace of [str.isspace], read off the UTF-8
    bytes.  [ws_len] is the byte length of a whitespace character at the
    head of the bytes (0 when there is none); [ws_len_rev] is the same on
    reversed bytes. *)
Definition ascii_ws (a : N) : bool :=
  ((9 <=? a) && (a <=? 13) || (28 <=? a) && (a <=? 32))%N.

Definition ws_len (l : list N) : nat :=
  match l with
  | a :: r =>
      if ascii_ws a then 1 else
      match r with
      | b :: r' =>
          if ((a =? 194) && ((b =? 133) || (b =? 160)))%N then 2 else
          match r' with
          | c :: _ =>
              if ((a =? 225) && (b =? 154) && (c =? 128)
                  || (a =? 226) && (b =? 128)
                     && ((128 <=? c) && (c <=? 138) || (c =? 168) || (c =? 169) || (c =? 175))
                  || (a =? 226) && (b =? 129) && (c =? 159)
                  || (a =? 227) && (b =? 128) && (c =? 128))%N
              then 3 else 0
          | [] => 0
          end
      | [] => 0
      end
  | [] => 0
  end.

Definition ws_len_rev (l : list N) : nat :=
  match l with
  | c :: r =>
      if ascii_ws c then 1 else
      match r with
      | b :: r' =>
          if ((b =? 194) && ((c =? 133) || (c =? 160)))%N then 2 else
          match r' with
          | a :: _ => match ws_len [a; b; c] with 3 => 3 | _ => 0 end
          | [] => 0
          end
      | [] => 0
      end
  | [] => 0
  end.

Fixpoint drop_ws (len : list N -> nat) (turns : nat) (l : list N) : list N :=
  match turns with
  | O => l
  | S turns' =>
      match len l with
      | O => l
      | n => drop_ws len turns' (skipn n l)
      end
  end.

Definition strip (s : string) : string :=
  let bytes := map N_of_ascii (list_ascii_of_string s) in
  let left := drop_ws ws_len (List.length bytes) bytes in
  let both := rev (drop_ws ws_len_rev (List.length left) (rev left)) in
  string_of_list_ascii (map ascii_of_N both).

(** [not s] for a string *)
Definition str_empty (s : string) : bool := String.eqb s "".

(** ** The raw document (grammar.py) *)

Module grammar.

Record TaskNode : Type := {
  name : string;
  agent : string;
  input : dict py_value;
  resources : dict py_value;
  labels : dict py_value
}.

Record Edge : Type := {
  source : string;
  target : string;
  condition : py_value
}.

Record Policy : Type := {
  risk_level : string;
  requires_approval : bool;
  retention : py_value;
  extra : dict py_value
}.

Record FlowDocument : Type := {
  version : Z;
  id : string;
  tenant : string;
  tasks : list TaskNode;
  edges : list Edge;
  policy : Policy
}.

End grammar.

(** ** The validated flow (ir.py) *)

Module ir.

Record IRTask : Type := {
  name : string;
  agent : string;
  input : dict py_value;
  priority : Z;
  timeout_ms : Z;
  labels : dict py_value
}.

Record IREdge : Type := {
  source : string;
  target : string;
  condition : py_value
}.

Record IRPolicy : Type := {
  risk_level : string;
  requires_approval : bool;
  retention : py_value
}.

Record IRFlow : Type := {
  id : string;
  tenant : string;
  tasks : dict IRTask;
  edges : list IREdge;
  policy : IRPolicy
}.

End ir.

(** ** Validation and normalisation (validator.py) *)

Module validator.

Definition DEFAULT_PRIORITY : Z := 0.
Definition DEFAULT_TIMEOUT_MS : Z := 10000.
Definition VALID_RISK_LEVELS : pyset := ["low"; "medium"; "high"; "critical"].

(** [IRTask(name=t.name, agent=t.agent, input=t.input, ...)] *)
Definition ir_task (t : grammar.TaskNode) (priority timeout_ms : Z) : ir.IRTask :=
  {| ir.name := grammar.name t;
     ir.agent := grammar.agent t;
     ir.input := grammar.input t;
     ir.priority := priority;
     ir.timeout_ms := timeout_ms;
     ir.labels := grammar.labels t |}.

(** [IREdge(source=e.source, target=e.target, condition=e.condition)] *)
Definition ir_edge (e : grammar.Edge) : ir.IREdge :=
  {| ir.source := grammar.source e;
     ir.target := grammar.target e;
     ir.condition := grammar.condition e |}.

Section Validator.
(** [int(s)] on a string: [None] stands for its [ValueError]. *)
Variable int_of_str : string -> option Z.
(** [repr(v)]: the text, or the exception it raises. *)
Variable repr : py_value -> string + repr_exn.
(** The order in which a [for] loop visits the elements of a set. *)
Variable set_iter : pyset -> list string.
(** The number of nested calls of [dfs] that the interpreter's recursion
    limit leaves room for when [_assert_dag] starts. *)
Variable recursion_limit : nat.

(** The message is formatted inside the [except] clause, so a failure of
    [repr(val)] there replaces the [ValidationError]. *)
Definition _int_field (resources : dict py_value) (key : string)
  (default : Z) (task_name : string) : res Z :=
  let val := dict_get_default key (PyInt default) resources in
  match py_int int_of_str val with
  | Raise TypeError | Raise ValueError =>
      match repr val with
      | inl _ => Raise (ValidationError (NotAnInteger task_name key val))
      | inr e => Raise (repr_error e)
      end
  | r => r
  end.

(** The body of [for t in doc.tasks], on [(seen_names, ir_tasks)]. *)
Definition check_task (t : grammar.TaskNode) (st : pyset * dict ir.IRTask)
  : res (pyset * dict ir.IRTask) :=
  let '(seen_names, ir_tasks) := st in
  if str_empty (strip (grammar.name t)) then
    Raise (ValidationError TaskNameRequired)
  else if set_mem (grammar.name t) seen_names then
    Raise (ValidationError (DuplicateTask (grammar.name t)))
  else if str_empty (strip (grammar.agent t)) then
    Raise (ValidationError (AgentRequired (grammar.name t)))
  else
    let seen_names' := set_add (grammar.name t) seen_names in
    priority <- _int_field (grammar.resources t) "priority"
                  DEFAULT_PRIORITY (grammar.name t) ;;
    timeout_ms <- _int_field (grammar.resources t) "timeout_ms"
                    DEFAULT_TIMEOUT_MS (grammar.name t) ;;
    if (timeout_ms <=? 0)%Z then
      Raise (ValidationError (TimeoutNotPositive (grammar.name t)))
    else
      Ok (seen_names',
          dict_set (grammar.name t) (ir_task t priority timeout_ms) ir_tasks).

(** The body of [for e in doc.edges], on [ir_edges]. *)
Definition check_edge (ir_tasks : dict ir.IRTask) (e : grammar.Edge)
  (ir_edges : list ir.IREdge) : res (list ir.IREdge) :=
  if negb (dict_mem (grammar.source e) ir_tasks) then
    Raise (ValidationError (UnknownSource (grammar.source e)))
  else if negb (dict_mem (grammar.target e) ir_tasks) then
    Raise (ValidationError (UnknownTarget (grammar.target e)))
  else
    Ok (ir_edges ++ [ir_edge e]).

(** [{name: set() for name in tasks}] *)
Definition empty_graph (tasks : dict ir.IRTask) : dict pyset :=
  fold_left (fun g name => dict_set name [] g) (dict_keys tasks) [].

(** [graph[e.source].add(e.target)] *)
Definition graph_add (e : ir.IREdge) (graph : dict pyset) : res (dict pyset) :=
  succs <- dict_item (ir.source e) graph ;;
  Ok (dict_set (ir.source e) (set_add (ir.target e) succs) graph).

(** The nested [dfs], on the two marks [(visiting, visited)].  [depth]
    is the number of nested calls the recursion limit still allows: a
    call beyond it raises [RecursionError]. *)
Fixpoint dfs (depth : nat) (graph : dict pyset) (node : string)
  (st : pyset * pyset) : res (pyset * pyset) :=
  match depth with
  | O => Raise RecursionError
  | S depth' =>
      let '(visiting, visited) := st in
      if set_mem node visiting then
        Raise (ValidationError (CycleAt node))
      else if set_mem node visited then
        Ok st
      else
        succs <- dict_item node graph ;;
        '(visiting', visited') <-
          for_each (dfs depth' graph) (set_iter succs)
                   (set_add node visiting, visited) ;;
        Ok (set_discard node visiting', set_add node visited')
  end.

(** A chain of nested calls visits distinct tasks, so the calls nest at
    most one deeper than there are tasks ([dfs_spec]). *)
Definition _assert_dag (tasks : dict ir.IRTask) (edges : list ir.IREdge)
  : res unit :=
  graph <- for_each graph_add edges (empty_graph tasks) ;;
  _ <- for_each (dfs recursion_limit graph) (dict_keys tasks) ([], []) ;;
  Ok tt.

Definition validate_and_normalize (doc : grammar.FlowDocument) : res ir.IRFlow :=
  if str_empty (strip (grammar.id doc)) then
    Raise (ValidationError FlowIdRequired)
  else if str_empty (strip (grammar.tenant doc)) then
    Raise (ValidationError TenantRequired)
  else if match grammar.tasks doc with [] => true | _ => false end then
    Raise (ValidationError TaskRequired)
  else
    '(_, ir_tasks) <- for_each check_task (grammar.tasks doc) ([], []) ;;
    ir_edges <- for_each (check_edge ir_tasks) (grammar.edges doc) [] ;;
    if negb (set_mem (grammar.risk_level (grammar.policy doc)) VALID_RISK_LEVELS) then
      Raise (ValidationError
               (InvalidRiskLevel (grammar.risk_level (grammar.policy doc))))
    else
      _ <- _assert_dag ir_tasks ir_edges ;;
      Ok {| ir.id := grammar.id doc;
            ir.tenant := grammar.tenant doc;
            ir.tasks := ir_tasks;
            ir.edges := ir_edges;
            ir.policy :=
              {| ir.risk_level := grammar.risk_level (grammar.policy doc);
                 ir.requires_approval := grammar.requires_approval (grammar.policy doc);
                 ir.retention := grammar.retention (grammar.policy doc) |} |}.
End Validator.

End validator.

(** ** Parsing (parser.py) *)

(** What [yaml.safe_load] does on a text: it raises a [yaml.YAMLError],
    here with its text, which is the only exception that [parse_yaml]
    catches; or it raises another exception; or it returns the loaded
    value. *)
Inductive load_result : Type :=
| YAMLError (detail : string)
| LoaderRaises (e : loader_exn)
| Loaded (v : py_value).

Module parser.

Section Parser.
(** [yaml.safe_load] *)
Variable safe_load : string -> load_result.
(** [str(v)] on a value that is not already a string, which is its
    [repr]: the text, or the exception it raises. *)
Variable repr : py_value -> string + repr_exn.
(** [int(s)] on a string: [None] stands for its [ValueError]. *)
Variable int_of_str : string -> option Z.
(** [dict(l)] on a list, which reads every element as a key/value pair
    and raises [TypeError] or [ValueError] on one that is not. *)
Variable dict_of_list : list py_value -> dict py_value + conversion_exn.

(** [str(v)] *)
Definition py_str (v : py_value) : res string :=
  match v with
  | PyStr s => Ok s
  | _ =>
      match repr v with
      | inl s => Ok s
      | inr e => Raise (repr_error e)
      end
  end.

(** [dict(v)] *)
Definition py_dict (v : py_value) : res (dict py_value) :=
  match v with
  | PyDict d => Ok d
  | PyList l =>
      match dict_of_list l with
      | inl d => Ok d
      | inr e => Raise (conversion_error e)
      end
  | PyStr s => if str_empty s then Ok [] else Raise ValueError
  | PyNone | PyBool _ | PyInt _ | PyFloat _ => Raise TypeError
  end.

(** [v.get(k)], for a [v] that need not be a dict. *)
Definition attr_get (k : string) (default : py_value) (v : py_value) : res py_value :=
  match v with
  | PyDict d => Ok (dict_get_default k default d)
  | _ => Raise AttributeError
  end.

Definition _require_list (raw : dict py_value) (key : string) : res (list py_value) :=
  match dict_get_default key PyNone raw with
  | PyNone => Raise (ParseError (MissingField key))
  | PyList value => Ok value
  | _ => Raise (ParseError (FieldNotList key))
  end.

(** The body of [for t in raw_tasks], on [tasks]. *)
Definition parse_task (t : py_value) (tasks : list grammar.TaskNode)
  : res (list grammar.TaskNode) :=
  match t with
  | PyDict t =>
      name <- py_str (dict_get_default "name" (PyStr "") t) ;;
      agent <- py_str (dict_get_default "agent" (PyStr "") t) ;;
      input <- py_dict (py_or (dict_get_default "input" (PyDict []) t) (PyDict [])) ;;
      resources <- py_dict (py_or (dict_get_default "resources" (PyDict []) t) (PyDict [])) ;;
      labels <- py_dict (py_or (dict_get_default "labels" (PyDict []) t) (PyDict [])) ;;
      Ok (tasks ++ [{| grammar.name := name;
                       grammar.agent := agent;
                       grammar.input := input;
                       grammar.resources := resources;
                       grammar.labels := labels |}])
  | _ => Raise (ParseError TaskNotMapping)
  end.

(** The body of [for e in raw_edges], on [edges]. *)
Definition parse_edge (e : py_value) (edges : list grammar.Edge)
  : res (list grammar.Edge) :=
  match e with
  | PyDict e =>
      source <- py_str (dict_get_default "from" (PyStr "") e) ;;
      target <- py_str (dict_get_default "to" (PyStr "") e) ;;
      Ok (edges ++ [{| grammar.source := source;
                       grammar.target := target;
                       grammar.condition := dict_get_default "condition" PyNone e |}])
  | _ => Raise (ParseError EdgeNotMapping)
  end.

Definition parse_policy (raw_policy : py_value) : res grammar.Policy :=
  risk_value <- attr_get "risk_level" (PyStr "low") raw_policy ;;
  risk_level <- py_str risk_value ;;
  requires_approval <- attr_get "requires_approval" (PyBool false) raw_policy ;;
  retention <- attr_get "retention" PyNone raw_policy ;;
  match raw_policy with
  | PyDict items =>
      Ok {| grammar.risk_level := risk_level;
            grammar.requires_approval := truthy requires_approval;
            grammar.retention := retention;
            grammar.extra :=
              filter (fun kv => negb (set_mem (fst kv)
                                        ["risk_level"; "requires_approval"; "retention"]))
                     items |}
  | _ => Raise AttributeError
  end.

Definition parse_document (raw : dict py_value) : res grammar.FlowDocument :=
  version <- py_int int_of_str (dict_get_default "version" (PyInt 1) raw) ;;
  flow_id <- py_str (dict_get_default "id" (PyStr "") raw) ;;
  tenant <- py_str (dict_get_default "tenant" (PyStr "") raw) ;;
  raw_tasks <- _require_list raw "tasks" ;;
  tasks <- for_each parse_task raw_tasks [] ;;
  match py_or (dict_get_default "edges" PyNone raw) (PyList []) with
  | PyList raw_edges =>
      edges <- for_each parse_edge raw_edges [] ;;
      policy <- parse_policy (py_or (dict_get_default "policy" PyNone raw) (PyDict [])) ;;
      Ok {| grammar.version := version;
            grammar.id := flow_id;
            grammar.tenant := tenant;
            grammar.tasks := tasks;
            grammar.edges := edges;
            grammar.policy := policy |}
  | _ => Raise (ParseError EdgesNotList)
  end.

Definition parse_yaml (src : string) : res grammar.FlowDocument :=
  match safe_load src with
  | YAMLError detail => Raise (ParseError (YamlSyntax detail))
  | LoaderRaises e => Raise (loader_error e)
  | Loaded (PyDict raw) => parse_document raw
  | Loaded _ => Raise (ParseError RootNotMapping)
  end.
End Parser.

End parser.

(** ** Code generation (compiler.py) *)

Module compiler.

(** [adj[k]] on a [defaultdict(list)]: a missing key reads as []. *)
Definition adj_get (k : string) (adj : dict (list string)) : list string :=
  match dict_get k adj with
  | Some l => l
  | None => []
  end.

(** [{name: 0 for name in flow.tasks}] *)
Definition zero_degrees (tasks : dict ir.IRTask) : dict Z :=
  fold_left (fun d name => dict_set name 0%Z d) (dict_keys tasks) [].

(** One pass of [for e in flow.edges]: record the edge in [adj] and
    count it in [in_degree], which has keys for task names only. *)
Definition add_edge (st : dict Z * dict (list string)) (e : ir.IREdge)
  : res (dict Z * dict (list string)) :=
  let '(in_degree, adj) := st in
  let adj' := dict_set (ir.source e) (adj_get (ir.source e) adj ++ [ir.target e]) adj in
  deg <- dict_item (ir.target e) in_degree ;;
  Ok (dict_set (ir.target e) (deg + 1)%Z in_degree, adj').

Fixpoint add_edges (edges : list ir.IREdge) (st : dict Z * dict (list string))
  : res (dict Z * dict (list string)) :=
  match edges with
  | [] => Ok st
  | e :: edges' => st' <- add_edge st e ;; add_edges edges' st'
  end.

(** [for nxt in sorted(adj[node])]: decrement, enqueue on reaching 0. *)
Fixpoint release (targets : list string) (in_degree : dict Z) (queue : list string)
  : res (dict Z * list string) :=
  match targets with
  | [] => Ok (in_degree, queue)
  | nxt :: targets' =>
      deg <- dict_item nxt in_degree ;;
      let in_degree' := dict_set nxt (deg - 1)%Z in_degree in
      if Z.eqb (deg - 1) 0
      then release targets' in_degree' (queue ++ [nxt])
      else release targets' in_degree' queue
  end.

(** [while queue]: every turn pops the head of the FIFO queue.  The
    bound counts the turns still allowed. *)
Fixpoint drain (fuel : nat) (adj : dict (list string)) (in_degree : dict Z)
  (queue order : list string) : res (list string) :=
  match queue with
  | [] => Ok order
  | node :: queue' =>
      match fuel with
      | O => OutOfFuel
      | S fuel' =>
          '(in_degree', queue'') <-
            release (sorted String.leb (adj_get node adj)) in_degree queue' ;;
          drain fuel' adj in_degree' queue'' (order ++ [node])
      end
  end.

(** [deque(name for name, deg in sorted(in_degree.items()) if deg == 0)] *)
Definition seed (in_degree : dict Z) : list string :=
  map fst (filter (fun item => Z.eqb (snd item) 0) (sorted item_leb in_degree)).

(** Kahn's algorithm.  A task is popped at most once, so as many
    turns as there are tasks always suffice ([drain_spec]). *)
Definition _topological_order (flow : ir.IRFlow) : res (list string) :=
  '(in_degree, adj) <- add_edges (ir.edges flow) (zero_degrees (ir.tasks flow), []) ;;
  drain (length (ir.tasks flow)) adj in_degree (seed in_degree) [].

(** The payload dict of one task. *)
Definition monolith_payload (flow : ir.IRFlow) (t : ir.IRTask) : py_value :=
  PyDict [
    ("meta", PyDict [
       ("owner", PyStr (ir.tenant flow));
       ("priority", PyInt (ir.priority t));
       ("labels", PyDict (dict_update
          [("flow_id", PyStr (ir.id flow));
           ("task_name", PyStr (ir.name t));
           ("agent", PyStr (ir.agent t))]
          (ir.labels t)));
       ("resource_hints", PyDict [("timeout_ms", PyInt (ir.timeout_ms t))])]);
    ("agent", PyStr (ir.agent t));
    ("input", PyDict (ir.input t));
    ("flow_id", PyStr (ir.id flow))].

(** [for name in order: t = flow.tasks[name]; tasks.append({...})] *)
Fixpoint monolith_payloads (flow : ir.IRFlow) (order : list string)
  : res (list py_value) :=
  match order with
  | [] => Ok []
  | name :: order' =>
      t <- dict_item name (ir.tasks flow) ;;
      rest <- monolith_payloads flow order' ;;
      Ok (monolith_payload flow t :: rest)
  end.

Definition ir_to_monolith_tasks (flow : ir.IRFlow) : res (list py_value) :=
  order <- _topological_order flow ;;
  monolith_payloads flow order.

Definition waterfall_task (t : ir.IRTask) : py_value :=
  PyDict [
    ("name", PyStr (ir.name t));
    ("agent", PyStr (ir.agent t));
    ("priority", PyInt (ir.priority t));
    ("timeout_ms", PyInt (ir.timeout_ms t));
    ("labels", PyDict (ir.labels t))].

(** [[{...} for name in order for t in [flow.tasks[name]]]] *)
Fixpoint waterfall_tasks (flow : ir.IRFlow) (order : list string)
  : res (list py_value) :=
  match order with
  | [] => Ok []
  | name :: order' =>
      t <- dict_item name (ir.tasks flow) ;;
      rest <- waterfall_tasks flow order' ;;
      Ok (waterfall_task t :: rest)
  end.

Definition waterfall_edge (e : ir.IREdge) : py_value :=
  PyDict [
    ("from", PyStr (ir.source e));
    ("to", PyStr (ir.target e));
    ("condition", ir.condition e)].

Definition ir_to_waterfall_spec (flow : ir.IRFlow) : res py_value :=
  order <- _topological_order flow ;;
  tasks <- waterfall_tasks flow order ;;
  Ok (PyDict [
    ("id", PyStr (ir.id flow));
    ("tenant", PyStr (ir.tenant flow));
    ("policy", PyDict [
       ("risk_level", PyStr (ir.risk_level (ir.policy flow)));
       ("requires_approval", PyBool (ir.requires_approval (ir.policy flow)));
       ("retention", ir.retention (ir.policy flow))]);
    ("tasks", PyList tasks);
    ("edges", PyList (map waterfall_edge (ir.edges flow)))]).

End compiler.

(** ** What the specification talks about *)

(** [l.index(x)] *)
Fixpoint index (x : string) (l : list string) : option nat :=
  match l with
  | [] => None
  | y :: l' => if String.eqb y x then Some 0 else option_map S (index x l')
  end.

(** The dependency graph of a flow: one arc per edge record. *)
Definition arc (edges : list ir.IREdge) (u v : string) : Prop :=
  exists e, In e edges /\ ir.source e = u /\ ir.target e = v.

(** A task lies on a cycle when a non-empty path leads from it to itself. *)
Definition on_cycle (edges : list ir.IREdge) (v : string) : Prop :=
  clos_trans string (arc edges) v v.

Definition acyclic (edges : list ir.IREdge) : Prop :=
  forall v, ~ on_cycle edges v.

(** The targets of the edges that leave [u], in declaration order. *)
Definition targets_of (edges : list ir.IREdge) (u : string) : list string :=
  map ir.target (filter (fun e => String.eqb (ir.source e) u) edges).

(** The number of edges into [v] whose source is not among [emitted]. *)
Definition pending (edges : list ir.IREdge) (emitted : list string) (v : string) : nat :=
  length (filter (fun e => String.eqb (ir.target e) v
                           && negb (set_mem (ir.source e) emitted)) edges).

(** A task is ready once every predecessor has been emitted and it has not. *)
Definition ready (flow : ir.IRFlow) (emitted : list string) (v : string) : Prop :=
  In v (dict_keys (ir.tasks flow)) /\ ~ In v emitted /\
  forall u, arc (ir.edges flow) u v -> In u emitted.

(** The number of emitted tasks after which [v] has all its predecessors
    emitted: one more than the position of its last predecessor in [order],
    0 when it has none.  A predecessor that is not in [order] counts as
    beyond its end. *)
Definition ready_at (edges : list ir.IREdge) (order : list string) (v : string) : nat :=
  fold_right Nat.max 0
    (map (fun e => match index (ir.source e) order with
                   | Some i => Datatypes.S i
                   | None => Datatypes.S (length order)
                   end)
         (filter (fun e => String.eqb (ir.target e) v) edges)).

(** [x] comes before [y] in first-in first-out order: it became ready at
    an earlier step, or at the same step with the smaller name. *)
Definition fifo_before (edges : list ir.IREdge) (order : list string)
  (x y : string) : Prop :=
  ready_at edges order x < ready_at edges order y \/
  (ready_at edges order x = ready_at edges order y /\ String.ltb x y = true).

(** Two flows are the same IRFlow value: equal field by field, the task
    mapping compared as Python compares dicts, whatever the order in which
    the tasks were inserted. *)
Definition same_flow (flow1 flow2 : ir.IRFlow) : Prop :=
  ir.id flow1 = ir.id flow2 /\
  ir.tenant flow1 = ir.tenant flow2 /\
  dict_wf (ir.tasks flow1) /\ dict_wf (ir.tasks flow2) /\
  dict_equiv (ir.tasks flow1) (ir.tasks flow2) /\
  ir.edges flow1 = ir.edges flow2 /\
  ir.policy flow1 = ir.policy flow2.

Definition nonblank (s : string) : Prop := strip s <> "".

(** [x1; x2; ...; xn] with [R] from each element to the next. *)
Fixpoint chain (R : string -> string -> Prop) (path : list string) : Prop :=
  match path with
  | x :: ((y :: _) as rest) => R x y /\ chain R rest
  | _ => True
  end.

(** Every path through distinct tasks has fewer than [frames] tasks:
    the nested calls of a depth-first traversal, which follow such a
    path, stay within [frames] frames. *)
Definition shallow (edges : list ir.IREdge) (frames : nat) : Prop :=
  forall path, NoDup path -> chain (arc edges) path -> length path < frames.

(** Some path through distinct tasks has [frames] tasks or more. *)
Definition deep (edges : list ir.IREdge) (frames : nat) : Prop :=
  exists path, NoDup path /\ chain (arc edges) path /\ frames <= length path.

(** The tasks [c], in order, form a directed cycle; its length is that of [c]. *)
Definition cycle (edges : list ir.IREdge) (c : list string) : Prop :=
  match c with
  | [] => False
  | v :: _ => chain (arc edges) (c ++ [v])
  end.

(** Reading the compiled artifacts: [v[k]] on a dict. *)
Definition py_get (k : string) (v : py_value) : option py_value :=
  match v with
  | PyDict d => dict_get k d
  | _ => None
  end.

(** [payload["meta"]["labels"][k]] *)
Definition payload_label (k : string) (payload : py_value) : option py_value :=
  match py_get "meta" payload with
  | Some meta =>
      match py_get "labels" meta with
      | Some labels => py_get k labels
      | None => None
      end
  | None => None
  end.

(** The sequence of task names of artifact A, read as the test suite
    reads it: [[t["meta"]["labels"]["task_name"] for t in tasks]]. *)
Definition payload_task_names (payloads : list py_value) : list (option py_value) :=
  map (payload_label "task_name") payloads.

(** The sequence of task names of artifact B:
    [[t["name"] for t in spec["tasks"]]]. *)
Definition spec_task_names (spec : py_value) : list (option py_value) :=
  match py_get "tasks" spec with
  | Some (PyList tasks) => map (py_get "name") tasks
  | _ => []
  end.

(** The labels the compiler derives, which a task's own labels may shadow. *)
Definition derived_labels : list string := ["flow_id"; "task_name"; "agent"].

(** Outcomes that agree up to the insertion order of an in-degree dict. *)
Definition same_outcome {A B} (R : A -> B -> Prop) (r1 : res A) (r2 : res B) : Prop :=
  match r1, r2 with
  | Ok a, Ok b => R a b
  | Raise e1, Raise e2 => e1 = e2
  | OutOfFuel, OutOfFuel => True
  | _, _ => False
  end.

(** The shape of a loaded document. *)
Definition is_mapping (v : py_value) : Prop :=
  match v with PyDict _ => True | _ => False end.

Definition is_sequence (v : py_value) : Prop :=
  match v with PyList _ => True | _ => False end.

Definition entries (v : py_value) : list py_value :=
  match v with PyList l => l | _ => [] end.

(** The structural defects of a root mapping that the parser rejects: the
    field tasks is absent (or null) or not a sequence, a task entry is not
    a mapping, the field edges holds a truthy value that is not a
    sequence, or an edge entry is not a mapping. *)
Definition malformed_root (raw : dict py_value) : Prop :=
  let tasks := dict_get_default "tasks" PyNone raw in
  let edges := dict_get_default "edges" PyNone raw in
  ~ is_sequence tasks \/
  (exists t, In t (entries tasks) /\ ~ is_mapping t) \/
  (truthy edges = true /\ ~ is_sequence edges) \/
  (exists e, In e (entries edges) /\ ~ is_mapping e).

(** The loaded text is one the parser rejects with [ParseError]: its
    YAML is malformed, its root is not a mapping, or its root has a
    structural defect. *)
Definition rejected (loaded : load_result) : Prop :=
  match loaded with
  | YAMLError _ => True
  | LoaderRaises _ => False
  | Loaded (PyDict raw) => malformed_root raw
  | Loaded _ => True
  end.

(** The validation rules, by the documents that break them. *)
Inductive task_check : Type :=
| NameGiven | NameFresh | AgentGiven | PriorityInt | TimeoutInt | TimeoutPositive.

Inductive edge_check : Type :=
| SourceKnown | TargetKnown.

Inductive rule : Type :=
| IdGiven
| TenantGiven
| SomeTask
| TaskRule (i : nat) (c : task_check)
| EdgeRule (j : nat) (c : edge_check)
| RiskLevelValid
| Acyclic.

(** The priority of a rule: its stage, then the position of the task or
    edge in declaration order, then the check on it. *)
Definition task_check_rank (c : task_check) : nat :=
  match c with
  | NameGiven => 0 | NameFresh => 1 | AgentGiven => 2
  | PriorityInt => 3 | TimeoutInt => 4 | TimeoutPositive => 5
  end.

Definition edge_check_rank (c : edge_check) : nat :=
  match c with SourceKnown => 0 | TargetKnown => 1 end.

Definition rule_rank (r : rule) : nat * nat * nat :=
  match r with
  | IdGiven => (0, 0, 0)
  | TenantGiven => (1, 0, 0)
  | SomeTask => (2, 0, 0)
  | TaskRule i c => (3, i, task_check_rank c)
  | EdgeRule j c => (4, j, edge_check_rank c)
  | RiskLevelValid => (5, 0, 0)
  | Acyclic => (6, 0, 0)
  end.

Definition precedes (r1 r2 : rule) : Prop :=
  let '(s1, i1, c1) := rule_rank r1 in
  let '(s2, i2, c2) := rule_rank r2 in
  s1 < s2 \/ (s1 = s2 /\ (i1 < i2 \/ (i1 = i2 /\ c1 < c2))).

Definition task_names (doc : grammar.FlowDocument) : list string :=
  map grammar.name (grammar.tasks doc).

(** The edges of a document, as the validator records them. *)
Definition doc_edges (doc : grammar.FlowDocument) : list ir.IREdge :=
  map validator.ir_edge (grammar.edges doc).

Section Rules.
Variable int_of_str : string -> option Z.

(** [resources.get(key, default)] *)
Definition resource (key : string) (default : Z) (t : grammar.TaskNode) : py_value :=
  dict_get_default key (PyInt default) (grammar.resources t).

Definition priority_of (t : grammar.TaskNode) : py_value :=
  resource "priority" validator.DEFAULT_PRIORITY t.

Definition timeout_of (t : grammar.TaskNode) : py_value :=
  resource "timeout_ms" validator.DEFAULT_TIMEOUT_MS t.

(** [int(v)] raises one of the two exceptions [_int_field] reports. *)
Definition not_integer (v : py_value) : Prop :=
  py_int int_of_str v = Raise TypeError \/ py_int int_of_str v = Raise ValueError.

(** Task [t] breaks check [c], [seen] being the names declared before it. *)
Definition task_violated (seen : list string) (t : grammar.TaskNode)
  (c : task_check) : Prop :=
  match c with
  | NameGiven => strip (grammar.name t) = ""
  | NameFresh => In (grammar.name t) seen
  | AgentGiven => strip (grammar.agent t) = ""
  | PriorityInt => not_integer (priority_of t)
  | TimeoutInt => not_integer (timeout_of t)
  | TimeoutPositive =>
      exists z, py_int int_of_str (timeout_of t) = Ok z /\ (z <= 0)%Z
  end.

Definition task_message (t : grammar.TaskNode) (c : task_check) : validation_msg :=
  match c with
  | NameGiven => TaskNameRequired
  | NameFresh => DuplicateTask (grammar.name t)
  | AgentGiven => AgentRequired (grammar.name t)
  | PriorityInt => NotAnInteger (grammar.name t) "priority" (priority_of t)
  | TimeoutInt => NotAnInteger (grammar.name t) "timeout_ms" (timeout_of t)
  | TimeoutPositive => TimeoutNotPositive (grammar.name t)
  end.

Definition edge_violated (names : list string) (e : grammar.Edge)
  (c : edge_check) : Prop :=
  match c with
  | SourceKnown => ~ In (grammar.source e) names
  | TargetKnown => ~ In (grammar.target e) names
  end.

Definition edge_message (e : grammar.Edge) (c : edge_check) : validation_msg :=
  match c with
  | SourceKnown => UnknownSource (grammar.source e)
  | TargetKnown => UnknownTarget (grammar.target e)
  end.

(** Document [doc] breaks rule [r]. *)
Definition violated (doc : grammar.FlowDocument) (r : rule) : Prop :=
  match r with
  | IdGiven => strip (grammar.id doc) = ""
  | TenantGiven => strip (grammar.tenant doc) = ""
  | SomeTask => grammar.tasks doc = []
  | TaskRule i c =>
      exists t, nth_error (grammar.tasks doc) i = Some t /\
                task_violated (firstn i (task_names doc)) t c
  | EdgeRule j c =>
      exists e, nth_error (grammar.edges doc) j = Some e /\
                edge_violated (task_names doc) e c
  | RiskLevelValid =>
      ~ In (grammar.risk_level (grammar.policy doc)) validator.VALID_RISK_LEVELS
  | Acyclic => exists v, on_cycle (doc_edges doc) v
  end.

(** The [ValidationError] text [m] is the report of rule [r] on [doc]. *)
Definition reports (doc : grammar.FlowDocument) (r : rule) (m : validation_msg) : Prop :=
  match r with
  | IdGiven => m = FlowIdRequired
  | TenantGiven => m = TenantRequired
  | SomeTask => m = TaskRequired
  | TaskRule i c =>
      exists t, nth_error (grammar.tasks doc) i = Some t /\ m = task_message t c
  | EdgeRule j c =>
      exists e, nth_error (grammar.edges doc) j = Some e /\ m = edge_message e c
  | RiskLevelValid => m = InvalidRiskLevel (grammar.risk_level (grammar.policy doc))
  | Acyclic => exists n, m = CycleAt n /\ on_cycle (doc_edges doc) n
  end.

(** The document passes every rule that is checked before cycle
    detection: the validator gets as far as [_assert_dag]. *)
Definition task_ok (seen : list string) (t : grammar.TaskNode) : Prop :=
  nonblank (grammar.name t) /\ ~ In (grammar.name t) seen /\
  nonblank (grammar.agent t) /\
  exists p z, py_int int_of_str (priority_of t) = Ok p /\
              py_int int_of_str (timeout_of t) = Ok z /\ (0 < z)%Z.

Definition passes_structural (doc : grammar.FlowDocument) : Prop :=
  nonblank (grammar.id doc) /\
  nonblank (grammar.tenant doc) /\
  grammar.tasks doc <> [] /\
  (forall i t, nth_error (grammar.tasks doc) i = Some t ->
               task_ok (firstn i (task_names doc)) t) /\
  (forall e, In e (grammar.edges doc) ->
             In (grammar.source e) (task_names doc) /\
             In (grammar.target e) (task_names doc)) /\
  In (grammar.risk_level (grammar.policy doc)) validator.VALID_RISK_LEVELS.
End Rules.

(** The structural invariants of an [IRFlow]. *)
Record valid_IRFlow (flow : ir.IRFlow) : Prop := {
  valid_id : nonblank (ir.id flow);
  valid_tenant : nonblank (ir.tenant flow);
  valid_some_task : ir.tasks flow <> [];
  valid_distinct : dict_wf (ir.tasks flow);
  valid_names : forall k t, In (k, t) (ir.tasks flow) -> ir.name t = k /\ nonblank k;
  valid_agents : forall k t, In (k, t) (ir.tasks flow) -> nonblank (ir.agent t);
  valid_edges : forall e, In e (ir.edges flow) ->
      In (ir.source e) (dict_keys (ir.tasks flow)) /\
      In (ir.target e) (dict_keys (ir.tasks flow));
  valid_acyclic : acyclic (ir.edges flow);
  valid_timeouts : forall k t, In (k, t) (ir.tasks flow) -> (0 < ir.timeout_ms t)%Z;
  valid_risk : In (ir.risk_level (ir.policy flow)) validator.VALID_RISK_LEVELS
}.

(** ** Invariants and postconditions used in the proofs *)

(** Sources before targets, within the tasks emitted so far. *)
Definition sources_first (edges : list ir.IREdge) (order : list string) : Prop :=
  forall l1 v l2, order = l1 ++ v :: l2 -> forall u, arc edges u v -> In u l1.

(** The invariant of the [while] loop of Kahn's algorithm, [K] being the
    task names. *)
Record kahn_inv (edges : list ir.IREdge) (K : list string)
  (in_degree : dict Z) (queue order : list string) : Prop := {
  inv_keys : dict_keys in_degree = K;
  inv_degree : forall v, In v K ->
      dict_get v in_degree = Some (Z.of_nat (pending edges order v));
  inv_distinct : NoDup (order ++ queue);
  inv_known : incl (order ++ queue) K;
  inv_ready : forall v, In v K -> (In v (order ++ queue) <-> pending edges order v = 0);
  inv_sources : sources_first edges order
}.

(** The invariant of the two marks of [dfs], [E] being the arcs that the
    adjacency sets of [graph] stand for. *)
Record dfs_inv (graph : dict pyset) (E : string -> string -> Prop)
  (visiting visited : pyset) : Prop := {
  visiting_distinct : NoDup visiting;
  visiting_known : incl visiting (dict_keys graph);
  marks_disjoint : forall v, In v visiting -> ~ In v visited;
  visited_closed : forall v w, In v visited -> E v w -> In w visited;
  visited_acyclic : forall v, In v visited -> ~ clos_trans string E v v
}.

(** What a call of [dfs] with [depth] frames left, and a loop of such
    calls, returns.  It runs out of frames only on a path through
    distinct tasks that is as long as the frames in use and left. *)
Definition dfs_post (graph : dict pyset) (E : string -> string -> Prop)
  (depth : nat) (visiting visited : pyset) (targets : list string)
  (r : res (pyset * pyset)) : Prop :=
  match r with
  | Ok (visiting', visited') =>
      visiting' = visiting /\ dfs_inv graph E visiting' visited' /\
      incl targets visited' /\ incl visited visited'
  | Raise (ValidationError (CycleAt n)) => clos_trans string E n n
  | Raise RecursionError =>
      exists path, NoDup path /\ chain E path /\
                   depth + length visiting <= length path
  | _ => False
  end.

(** What [_assert_dag] returns when [frames] nested calls are allowed. *)
Definition assert_dag_post (frames : nat) (tasks : dict ir.IRTask)
  (edges : list ir.IREdge) (r : res unit) : Prop :=
  match r with
  | Ok _ => acyclic edges
  | Raise (ValidationError (CycleAt n)) => on_cycle edges n
  | Raise RecursionError => deep edges frames
  | _ => False
  end.

(** The outcome with fewer frames: the same, or [RecursionError]. *)
Definition same_or_overflow {A} (r' r : res A) : Prop :=
  r' = r \/ r' = Raise RecursionError.

Section Postconditions.
Variable int_of_str : string -> option Z.
Variable repr : py_value -> string + repr_exn.
Variable recursion_limit : nat.

(** An integer field of the task is an infinite float. *)
Definition overflows (t : grammar.TaskNode) : Prop :=
  py_int int_of_str (priority_of t) = Raise OverflowError \/
  py_int int_of_str (timeout_of t) = Raise OverflowError.

(** An integer field of the task is no integer, and its [repr], which
    the error message needs, raises [x]. *)
Definition repr_raises (x : repr_exn) (t : grammar.TaskNode) : Prop :=
  (not_integer int_of_str (priority_of t) /\ repr (priority_of t) = inr x) \/
  (not_integer int_of_str (timeout_of t) /\ repr (timeout_of t) = inr x).

Definition unprintable (t : grammar.TaskNode) : Prop :=
  exists x, repr_raises x t.

(** The two ways in which the check of a task's resources ends in an
    exception other than [ValidationError]. *)
Definition escapes (e : exn) (t : grammar.TaskNode) : Prop :=
  (e = OverflowError /\ overflows t) \/
  (exists x, e = repr_error x /\ repr_raises x t).

(** One pass of the task loop: it either accepts the task, or reports
    the first check, in order, that the task breaks. *)
Definition check_task_post (t : grammar.TaskNode) (seen : pyset)
  (ir_tasks : dict ir.IRTask) (r : res (pyset * dict ir.IRTask)) : Prop :=
  match r with
  | Ok (seen', ir_tasks') =>
      task_ok int_of_str seen t /\
      seen' = set_add (grammar.name t) seen /\
      exists p z, py_int int_of_str (priority_of t) = Ok p /\
                  py_int int_of_str (timeout_of t) = Ok z /\ (0 < z)%Z /\
                  ir_tasks' = dict_set (grammar.name t) (validator.ir_task t p z) ir_tasks
  | Raise (ValidationError m) =>
      exists c, task_violated int_of_str seen t c /\ m = task_message t c /\
                forall c', task_check_rank c' < task_check_rank c ->
                           ~ task_violated int_of_str seen t c'
  | Raise e => escapes e t
  | OutOfFuel => False
  end.

(** One pass of the edge loop. *)
Definition check_edge_post (ir_tasks : dict ir.IRTask) (e : grammar.Edge)
  (ir_edges : list ir.IREdge) (r : res (list ir.IREdge)) : Prop :=
  match r with
  | Ok ir_edges' =>
      ir_edges' = ir_edges ++ [validator.ir_edge e] /\
      In (grammar.source e) (dict_keys ir_tasks) /\
      In (grammar.target e) (dict_keys ir_tasks)
  | Raise (ValidationError m) =>
      exists c, edge_violated (dict_keys ir_tasks) e c /\ m = edge_message e c /\
                forall c', edge_check_rank c' < edge_check_rank c ->
                           ~ edge_violated (dict_keys ir_tasks) e c'
  | _ => False
  end.

(** The task loop, started after the tasks [pre]. *)
Definition tasks_loop_post (pre ts : list grammar.TaskNode)
  (ir_tasks : dict ir.IRTask) (r : res (pyset * dict ir.IRTask)) : Prop :=
  match r with
  | Ok (seen', ir_tasks') =>
      dict_keys ir_tasks' = map grammar.name (pre ++ ts) /\
      NoDup (map grammar.name (pre ++ ts)) /\
      (forall i t, nth_error ts i = Some t ->
         task_ok int_of_str (map grammar.name (pre ++ firstn i ts)) t) /\
      (forall k v, In (k, v) ir_tasks' ->
         In (k, v) ir_tasks \/
         exists t p z, In t ts /\ k = grammar.name t /\
                       v = validator.ir_task t p z /\ (0 < z)%Z)
  | Raise (ValidationError m) =>
      exists i t c,
        nth_error ts i = Some t /\
        (forall i' t', i' < i -> nth_error ts i' = Some t' ->
           task_ok int_of_str (map grammar.name (pre ++ firstn i' ts)) t') /\
        task_violated int_of_str (map grammar.name (pre ++ firstn i ts)) t c /\
        m = task_message t c /\
        (forall c', task_check_rank c' < task_check_rank c ->
           ~ task_violated int_of_str (map grammar.name (pre ++ firstn i ts)) t c')
  | Raise e =>
      exists i t, nth_error ts i = Some t /\ escapes e t /\
        (forall i' t', i' < i -> nth_error ts i' = Some t' ->
           task_ok int_of_str (map grammar.name (pre ++ firstn i' ts)) t')
  | OutOfFuel => False
  end.

(** The edge loop. *)
Definition edges_loop_post (ir_tasks : dict ir.IRTask) (es : list grammar.Edge)
  (ir_edges : list ir.IREdge) (r : res (list ir.IREdge)) : Prop :=
  match r with
  | Ok ir_edges' =>
      ir_edges' = ir_edges ++ map validator.ir_edge es /\
      forall e, In e es -> In (grammar.source e) (dict_keys ir_tasks) /\
                           In (grammar.target e) (dict_keys ir_tasks)
  | Raise (ValidationError m) =>
      exists j e c,
        nth_error es j = Some e /\
        (forall j' e', j' < j -> nth_error es j' = Some e' ->
           In (grammar.source e') (dict_keys ir_tasks) /\
           In (grammar.target e') (dict_keys ir_tasks)) /\
        edge_violated (dict_keys ir_tasks) e c /\ m = edge_message e c /\
        (forall c', edge_check_rank c' < edge_check_rank c ->
           ~ edge_violated (dict_keys ir_tasks) e c')
  | _ => False
  end.

(** What [validate_and_normalize] returns, outcome by outcome. *)
Definition validate_post (doc : grammar.FlowDocument) (r : res ir.IRFlow) : Prop :=
  match r with
  | Ok flow =>
      passes_structural int_of_str doc /\
      acyclic (doc_edges doc) /\
      ir.id flow = grammar.id doc /\
      ir.tenant flow = grammar.tenant doc /\
      ir.edges flow = doc_edges doc /\
      ir.risk_level (ir.policy flow) = grammar.risk_level (grammar.policy doc) /\
      dict_keys (ir.tasks flow) = task_names doc /\
      NoDup (task_names doc) /\
      (forall k v, In (k, v) (ir.tasks flow) ->
         exists t p z, In t (grammar.tasks doc) /\ k = grammar.name t /\
                       v = validator.ir_task t p z /\ (0 < z)%Z)
  | Raise (ValidationError m) =>
      exists r, violated int_of_str doc r /\ reports doc r m /\
                forall r', precedes r' r -> ~ violated int_of_str doc r'
  | Raise e =>
      (e = RecursionError /\
       passes_structural int_of_str doc /\ deep (doc_edges doc) recursion_limit) \/
      (exists i t, nth_error (grammar.tasks doc) i = Some t /\ escapes e t)
  | OutOfFuel => False
  end.
End Postconditions.

(** The outcomes of the parser and of the conversions it calls. *)
Definition is_parse_error {A} (r : res A) : Prop :=
  match r with Raise (ParseError _) => True | _ => False end.

Definition is_ok {A} (r : res A) : Prop :=
  match r with Ok _ => True | _ => False end.

Definition conversion_outcome {A} (r : res A) : Prop :=
  match r with
  | Ok _ | Raise TypeError | Raise ValueError | Raise RecursionError => True
  | _ => False
  end.

(** ** Shapes and normal forms

    What the parser accepts and builds, what the validator makes of a
    task, and what the orderer reads of an edge. *)

(** The entry of the task mapping that the validator builds from task
    [t]: keyed by the task's name, with name, agent, input and labels as
    given, and priority and timeout_ms converted by [int], the defaults
    standing in for missing resources. *)
Definition normalized (int_of_str : string -> option Z) (t : grammar.TaskNode)
  (item : string * ir.IRTask) : Prop :=
  fst item = grammar.name t /\
  ir.name (snd item) = grammar.name t /\
  ir.agent (snd item) = grammar.agent t /\
  ir.input (snd item) = grammar.input t /\
  ir.labels (snd item) = grammar.labels t /\
  py_int int_of_str (priority_of t) = Ok (ir.priority (snd item)) /\
  py_int int_of_str (timeout_of t) = Ok (ir.timeout_ms (snd item)).

(** What the task loop adds to the task mapping when it completes. *)
Definition tasks_added (int_of_str : string -> option Z)
  (ts : list grammar.TaskNode) (ir_tasks : dict ir.IRTask)
  (r : res (pyset * dict ir.IRTask)) : Prop :=
  match r with
  | Ok (_, ir_tasks') =>
      exists items, ir_tasks' = ir_tasks ++ items /\
                    Forall2 (normalized int_of_str) ts items
  | _ => True
  end.

(** A value that [dict(v or {})] converts without consulting [dict] on a
    list: a mapping, or anything falsy. *)
Definition mapping_or_falsy (v : py_value) : Prop :=
  is_mapping v \/ truthy v = false.

Section Parsed.
Variable repr : py_value -> string + repr_exn.
Variable dict_of_list : list py_value -> dict py_value + conversion_exn.

(** [str(v)] returns. *)
Definition printable (v : py_value) : Prop :=
  exists s, parser.py_str repr v = Ok s.

(** [dict(t.get(key, {}) or {})] *)
Definition field_dict (key : string) (t : dict py_value) : res (dict py_value) :=
  parser.py_dict dict_of_list
    (py_or (dict_get_default key (PyDict []) t) (PyDict [])).

(** The node the parser builds from a task entry: name and agent are
    [str] of the fields, an absent one reading as the empty string;
    input, resources and labels are [dict] of the fields. *)
Definition task_parsed (entry : py_value) (node : grammar.TaskNode) : Prop :=
  exists t, entry = PyDict t /\
    parser.py_str repr (dict_get_default "name" (PyStr "") t)
    = Ok (grammar.name node) /\
    parser.py_str repr (dict_get_default "agent" (PyStr "") t)
    = Ok (grammar.agent node) /\
    field_dict "input" t = Ok (grammar.input node) /\
    field_dict "resources" t = Ok (grammar.resources node) /\
    field_dict "labels" t = Ok (grammar.labels node).

(** The edge the parser builds from an edge entry. *)
Definition edge_parsed (entry : py_value) (e : grammar.Edge) : Prop :=
  exists m, entry = PyDict m /\
    parser.py_str repr (dict_get_default "from" (PyStr "") m)
    = Ok (grammar.source e) /\
    parser.py_str repr (dict_get_default "to" (PyStr "") m)
    = Ok (grammar.target e) /\
    grammar.condition e = dict_get_default "condition" PyNone m.

(** Every conversion that the parser applies to a task entry returns.
    An entry that is not a mapping is not converted at all. *)
Definition task_converts (entry : py_value) : Prop :=
  match entry with
  | PyDict t =>
      printable (dict_get_default "name" (PyStr "") t) /\
      printable (dict_get_default "agent" (PyStr "") t) /\
      is_ok (field_dict "input" t) /\
      is_ok (field_dict "resources" t) /\
      is_ok (field_dict "labels" t)
  | _ => True
  end.

Definition edge_converts (entry : py_value) : Prop :=
  match entry with
  | PyDict m =>
      printable (dict_get_default "from" (PyStr "") m) /\
      printable (dict_get_default "to" (PyStr "") m)
  | _ => True
  end.

(** The policy is a mapping, or falsy, and its risk level has a [str]. *)
Definition policy_converts (policy : py_value) : Prop :=
  match py_or policy (PyDict []) with
  | PyDict p => printable (dict_get_default "risk_level" (PyStr "low") p)
  | _ => False
  end.

(** A root mapping on which no conversion fails: [int] of the version,
    [str] of id, tenant, names, agents, edge endpoints and risk level,
    [dict] of input, resources and labels, and [.get] on the policy. *)
Definition root_converts (int_of_str : string -> option Z)
  (raw : dict py_value) : Prop :=
  is_ok (py_int int_of_str (dict_get_default "version" (PyInt 1) raw)) /\
  printable (dict_get_default "id" (PyStr "") raw) /\
  printable (dict_get_default "tenant" (PyStr "") raw) /\
  Forall task_converts (entries (dict_get_default "tasks" PyNone raw)) /\
  Forall edge_converts (entries (dict_get_default "edges" PyNone raw)) /\
  policy_converts (dict_get_default "policy" PyNone raw).

(** The text is one that the loader loads or rejects as malformed YAML,
    and on whose loaded value no conversion of the parser fails. *)
Definition conversions_succeed (int_of_str : string -> option Z)
  (loaded : load_result) : Prop :=
  match loaded with
  | YAMLError _ => True
  | LoaderRaises _ => False
  | Loaded (PyDict raw) => root_converts int_of_str raw
  | Loaded _ => True
  end.

(** A task entry on which the parser cannot fail: a mapping whose name
    and agent have a [str] and whose input, resources and labels are
    mappings or falsy. *)
Definition well_shaped_task (entry : py_value) : Prop :=
  match entry with
  | PyDict t =>
      printable (dict_get_default "name" (PyStr "") t) /\
      printable (dict_get_default "agent" (PyStr "") t) /\
      mapping_or_falsy (dict_get_default "input" (PyDict []) t) /\
      mapping_or_falsy (dict_get_default "resources" (PyDict []) t) /\
      mapping_or_falsy (dict_get_default "labels" (PyDict []) t)
  | _ => False
  end.

(** An edge entry on which the parser cannot fail. *)
Definition well_shaped_edge (entry : py_value) : Prop :=
  is_mapping entry /\ edge_converts entry.

(** A root mapping on which the parser cannot fail: the version
    converts, id and tenant have a [str], tasks is a list of well-shaped
    mappings, edges is falsy or a list of well-shaped mappings, policy
    is falsy or a mapping whose risk level has a [str].  Nothing is asked
    of the content of id, tenant, names, agents or edge endpoints. *)
Definition well_shaped_root (int_of_str : string -> option Z)
  (raw : dict py_value) : Prop :=
  (exists version,
     py_int int_of_str (dict_get_default "version" (PyInt 1) raw) = Ok version) /\
  printable (dict_get_default "id" (PyStr "") raw) /\
  printable (dict_get_default "tenant" (PyStr "") raw) /\
  is_sequence (dict_get_default "tasks" PyNone raw) /\
  Forall well_shaped_task (entries (dict_get_default "tasks" PyNone raw)) /\
  (truthy (dict_get_default "edges" PyNone raw) = false \/
   is_sequence (dict_get_default "edges" PyNone raw)) /\
  Forall well_shaped_edge (entries (dict_get_default "edges" PyNone raw)) /\
  policy_converts (dict_get_default "policy" PyNone raw).
End Parsed.

(** The policy of a document that gives none. *)
Definition default_policy : grammar.Policy :=
  {| grammar.risk_level := "low"; grammar.requires_approval := false;
     grammar.retention := PyNone; grammar.extra := [] |}.

(** The keys of a policy mapping that have a field of their own. *)
Definition policy_fields : list string :=
  ["risk_level"; "requires_approval"; "retention"].

(** The endpoints of an edge: all that the orderer reads of it. *)
Definition endpoints (e : ir.IREdge) : string * string :=
  (ir.source e, ir.target e).

(** What a [ParseError] text says about the loaded source. *)
Definition message_holds (loaded : load_result) (m : parse_msg) : Prop :=
  match m with
  | YamlSyntax detail => loaded = YAMLError detail
  | RootNotMapping => exists v, loaded = Loaded v /\ ~ is_mapping v
  | MissingField key =>
      key = "tasks" /\
      exists raw, loaded = Loaded (PyDict raw) /\
                  dict_get_default "tasks" PyNone raw = PyNone
  | FieldNotList key =>
      key = "tasks" /\
      exists raw, loaded = Loaded (PyDict raw) /\
                  dict_get_default "tasks" PyNone raw <> PyNone /\
                  ~ is_sequence (dict_get_default "tasks" PyNone raw)
  | TaskNotMapping =>
      exists raw t, loaded = Loaded (PyDict raw) /\
                    In t (entries (dict_get_default "tasks" PyNone raw)) /\
                    ~ is_mapping t
  | EdgesNotList =>
      exists raw, loaded = Loaded (PyDict raw) /\
                  truthy (dict_get_default "edges" PyNone raw) = true /\
                  ~ is_sequence (dict_get_default "edges" PyNone raw)
  | EdgeNotMapping =>
      exists raw e, loaded = Loaded (PyDict raw) /\
                    In e (entries (dict_get_default "edges" PyNone raw)) /\
                    ~ is_mapping e
  end.

(** Two outcomes that agree, or are both cycle errors and differ at most
    in the task they name. *)
Definition same_but_cycle_name {A} (r1 r2 : res A) : Prop :=
  r1 = r2 \/
  exists n1 n2, r1 = Raise (ValidationError (CycleAt n1)) /\
                r2 = Raise (ValidationError (CycleAt n2)).

(** ** Sample flows

    The two-task flow of the test suite, as the validator returns it. *)

Definition hello_flow : ir.IRFlow :=
  {| ir.id := "example-flow";
     ir.tenant := "demo-tenant";
     ir.tasks :=
       [("fetch_context",
         {| ir.name := "fetch_context"; ir.agent := "retriever";
            ir.input := [("query", PyStr "{{user.input}}")];
            ir.priority := 10; ir.timeout_ms := 2000; ir.labels := [] |});
        ("answer",
         {| ir.name := "answer"; ir.agent := "llm";
            ir.input := [("context_from", PyStr "fetch_context");
                         ("question", PyStr "{{user.input}}")];
            ir.priority := 5; ir.timeout_ms := 8000; ir.labels := [] |})];
     ir.edges :=
       [{| ir.source := "fetch_context"; ir.target := "answer";
           ir.condition := PyNone |}];
     ir.policy := {| ir.risk_level := "medium"; ir.requires_approval := false;
                     ir.retention := PyNone |} |}.

(** A valid one-task flow whose task carries its own [task_name] label. *)
Definition alias_flow : ir.IRFlow :=
  {| ir.id := "f";
     ir.tenant := "t";
     ir.tasks :=
       [("t1",
         {| ir.name := "t1"; ir.agent := "a1"; ir.input := [];
            ir.priority := 0; ir.timeout_ms := 10000;
            ir.labels := [("task_name", PyStr "alias"); ("team", PyStr "core")] |})];
     ir.edges := [];
     ir.policy := {| ir.risk_level := "low"; ir.requires_approval := false;
                     ir.retention := PyNone |} |}.

(** Three tasks, one edge x -> a: a becomes ready while y waits. *)
Definition fifo_flow : ir.IRFlow :=
  {| ir.id := "f";
     ir.tenant := "t";
     ir.tasks :=
       map (fun n => (n, {| ir.name := n; ir.agent := "agent"; ir.input := [];
                            ir.priority := 0; ir.timeout_ms := 10000;
                            ir.labels := [] |}))
           ["x"; "y"; "a"];
     ir.edges := [{| ir.source := "x"; ir.target := "a"; ir.condition := PyNone |}];
     ir.policy := {| ir.risk_level := "low"; ir.requires_approval := false;
                     ir.retention := PyNone |} |}.

(** [hello_flow] with its tasks inserted in the other order. *)
Definition hello_flow_swapped : ir.IRFlow :=
  {| ir.id := ir.id hello_flow;
     ir.tenant := ir.tenant hello_flow;
     ir.tasks := rev (ir.tasks hello_flow);
     ir.edges := ir.edges hello_flow;
     ir.policy := ir.policy hello_flow |}.

(** A sample loader, for two one-line YAML texts. *)
Definition sample_load (src : string) : load_result :=
  if String.eqb src "{tasks: [], edges: 0}" then
    Loaded (PyDict [("tasks", PyList []); ("edges", PyInt 0)])
  else if String.eqb src "{version: [], tasks: []}" then
    Loaded (PyDict [("version", PyList []); ("tasks", PyList [])])
  else YAMLError "unsupported text".

(** The value is, or holds, an integer of more than 4300 digits. *)
Fixpoint holds_long_int (v : py_value) : bool :=
  match v with
  | PyInt z => (10 ^ 4300 <=? Z.abs z)%Z
  | PyList l => existsb holds_long_int l
  | PyDict d => existsb (fun item => holds_long_int (snd item)) d
  | _ => false
  end.

(** A sample of [repr(v)]: [ValueError] on a value that holds an integer
    of more than 4300 digits; the text of [None] and of the booleans; for
    the other values a text that stands for theirs, on which nothing
    below depends. *)
Definition sample_repr (v : py_value) : string + repr_exn :=
  if holds_long_int v then inr ReprValueError
  else inl match v with
            | PyNone => "None"
            | PyBool true => "True"
            | PyBool false => "False"
            | _ => "<value>"
            end.

(** CPython's default recursion limit: the frames in use when
    [_assert_dag] starts leave fewer nested calls than this. *)
Definition default_limit : nat := 1000.

(** A sample of [dict(l)]: the empty list converts, others are rejected. *)
Definition sample_dict_of_list (l : list py_value) : dict py_value + conversion_exn :=
  match l with
  | [] => inl []
  | _ => inr ConversionTypeError
  end.

(** Sample documents. *)

Definition sample_task (name agent : string) (resources : dict py_value)
  : grammar.TaskNode :=
  {| grammar.name := name; grammar.agent := agent; grammar.input := [];
     grammar.resources := resources; grammar.labels := [] |}.

Definition sample_edge (source target : string) : grammar.Edge :=
  {| grammar.source := source; grammar.target := target;
     grammar.condition := PyNone |}.

Definition sample_doc (tasks : list grammar.TaskNode) (edges : list grammar.Edge)
  (risk_level : string) : grammar.FlowDocument :=
  {| grammar.version := 1; grammar.id := "test-flow"; grammar.tenant := "test-tenant";
     grammar.tasks := tasks; grammar.edges := edges;
     grammar.policy := {| grammar.risk_level := risk_level;
                          grammar.requires_approval := false;
                          grammar.retention := PyNone; grammar.extra := [] |} |}.

(** The cyclic document of the test suite: t1 -> t2 -> t1. *)
Definition two_cycle_doc : grammar.FlowDocument :=
  sample_doc [sample_task "t1" "a1" []; sample_task "t2" "a2" []]
             [sample_edge "t1" "t2"; sample_edge "t2" "t1"] "low".

(** A two-task cycle declared before a task with a self-loop. *)
Definition loops_doc : grammar.FlowDocument :=
  sample_doc [sample_task "t1" "a1" []; sample_task "t2" "a2" [];
              sample_task "t3" "a3" []]
             [sample_edge "t1" "t2"; sample_edge "t2" "t1"; sample_edge "t3" "t3"]
             "low".

(** One task whose only arc is a self-loop. *)
Definition self_loop_doc : grammar.FlowDocument :=
  sample_doc [sample_task "t1" "a1" []] [sample_edge "t1" "t1"] "low".

(** A zero timeout together with an unknown risk level. *)
Definition zero_timeout_doc : grammar.FlowDocument :=
  sample_doc [sample_task "t1" "a1" [("timeout_ms", PyInt 0)]] [] "extreme".

(** [timeout_ms: .inf] together with an unknown risk level. *)
Definition infinite_timeout_doc : grammar.FlowDocument :=
  sample_doc [sample_task "t1" "a1" [("timeout_ms", PyFloat (S754_infinity false))]]
             [] "extreme".

(** [timeout_ms: [0x10...0]], a list that holds an integer of 4301
    decimal digits, which YAML can give in hexadecimal. *)
Definition long_int_doc : grammar.FlowDocument :=
  sample_doc [sample_task "t1" "a1" [("timeout_ms", PyList [PyInt (10 ^ 4300)])]]
             [] "low".

(** A sample of [int(s)]: an optional minus sign and decimal digits. *)
Fixpoint digits_value (acc : Z) (s : string) : option Z :=
  match s with
  | EmptyString => Some acc
  | String c s' =>
      let n := Z.of_N (N_of_ascii c) in
      if ((48 <=? n) && (n <=? 57))%Z
      then digits_value (acc * 10 + (n - 48))%Z s'
      else None
  end.

Definition decimal_int (s : string) : option Z :=
  match s with
  | EmptyString => None
  | String "-" EmptyString => None
  | String "-" s' => option_map Z.opp (digits_value 0 s')
  | _ => digits_value 0 s
  end.

(** A sample iteration order of a set: the order of insertion. *)
Definition insertion_order (s : pyset) : list string := s.

(** The rules the specification lists, which leave out the checks on
    [resources]. *)
Definition listed (r : rule) : Prop :=
  match r with
  | TaskRule _ PriorityInt | TaskRule _ TimeoutInt | TaskRule _ TimeoutPositive => False
  | _ => True
  end.

(** ** More sample inputs *)

(** A hand-built flow with a two-task cycle: c waits for a, which waits
    for b, which waits for a; d is free. *)
Definition cyclic_flow : ir.IRFlow :=
  {| ir.id := "f";
     ir.tenant := "t";
     ir.tasks :=
       map (fun n => (n, {| ir.name := n; ir.agent := "a1"; ir.input := [];
                            ir.priority := 0; ir.timeout_ms := 10000;
                            ir.labels := [] |}))
           ["a"; "b"; "c"; "d"];
     ir.edges :=
       [{| ir.source := "a"; ir.target := "b"; ir.condition := PyNone |};
        {| ir.source := "b"; ir.target := "a"; ir.condition := PyNone |};
        {| ir.source := "a"; ir.target := "c"; ir.condition := PyNone |}];
     ir.policy := {| ir.risk_level := "low"; ir.requires_approval := false;
                     ir.retention := PyNone |} |}.

(** Three tasks without edges, declared in the order b, c, a. *)
Definition unordered_flow : ir.IRFlow :=
  {| ir.id := "f";
     ir.tenant := "t";
     ir.tasks :=
       map (fun n => (n, {| ir.name := n; ir.agent := "a1"; ir.input := [];
                            ir.priority := 0; ir.timeout_ms := 10000;
                            ir.labels := [] |}))
           ["b"; "c"; "a"];
     ir.edges := [];
     ir.policy := ir.policy alias_flow |}.

(** A hand-built flow with an edge into a task that does not exist. *)
Definition dangling_flow : ir.IRFlow :=
  {| ir.id := "f";
     ir.tenant := "t";
     ir.tasks := ir.tasks alias_flow;
     ir.edges :=
       [{| ir.source := "t1"; ir.target := "ghost"; ir.condition := PyNone |}];
     ir.policy := ir.policy alias_flow |}.

(** The graph of [hello_flow] declared otherwise: the tasks in the
    opposite order, with other agents, priorities and timeouts, and the
    edge with a condition. *)
Definition hello_flow_retuned : ir.IRFlow :=
  {| ir.id := "other-flow";
     ir.tenant := "other-tenant";
     ir.tasks :=
       map (fun n => (n, {| ir.name := n; ir.agent := "a1"; ir.input := [];
                            ir.priority := 0; ir.timeout_ms := 10000;
                            ir.labels := [] |}))
           ["answer"; "fetch_context"];
     ir.edges :=
       [{| ir.source := "fetch_context"; ir.target := "answer";
           ir.condition := PyStr "ok" |}];
     ir.policy := ir.policy hello_flow |}.

(** The document of the test suite's HELLO_WORLD text, as parsed. *)
Definition hello_doc : grammar.FlowDocument :=
  {| grammar.version := 1;
     grammar.id := "example-flow";
     grammar.tenant := "demo-tenant";
     grammar.tasks :=
       [{| grammar.name := "fetch_context"; grammar.agent := "retriever";
           grammar.input := [("query", PyStr "{{user.input}}")];
           grammar.resources := [("priority", PyInt 10); ("timeout_ms", PyInt 2000)];
           grammar.labels := [] |};
        {| grammar.name := "answer"; grammar.agent := "llm";
           grammar.input := [("context_from", PyStr "fetch_context");
                             ("question", PyStr "{{user.input}}")];
           grammar.resources := [("priority", PyInt 5); ("timeout_ms", PyInt 8000)];
           grammar.labels := [] |}];
     grammar.edges :=
       [{| grammar.source := "fetch_context"; grammar.target := "answer";
           grammar.condition := PyNone |}];
     grammar.policy := {| grammar.risk_level := "medium";
                          grammar.requires_approval := false;
                          grammar.retention := PyNone; grammar.extra := [] |} |}.

(** A loaded document of one task, with a policy that carries an
    unknown key. *)
Definition sample_raw : dict py_value :=
  [("id", PyStr "f");
   ("tasks", PyList [PyDict [("name", PyStr "t1"); ("agent", PyStr "a1");
                             ("input", PyDict [])]]);
   ("policy", PyDict [("risk_level", PyStr "low");
                      ("custom_field", PyStr "val")])].

(** What the parser makes of [sample_raw]. *)
Definition sample_parsed : grammar.FlowDocument :=
  {| grammar.version := 1;
     grammar.id := "f";
     grammar.tenant := "";
     grammar.tasks :=
       [{| grammar.name := "t1"; grammar.agent := "a1"; grammar.input := [];
           grammar.resources := []; grammar.labels := [] |}];
     grammar.edges := [];
     grammar.policy :=
       {| grammar.risk_level := "low"; grammar.requires_approval := false;
          grammar.retention := PyNone;
          grammar.extra := [("custom_field", PyStr "val")] |} |}.

(** A sample loader for two more one-line texts: a mapping without
    tasks and a list. *)
Definition flow_load (src : string) : load_result :=
  if String.eqb src "{id: x}" then Loaded (PyDict [("id", PyStr "x")])
  else if String.eqb src "[1, 2, 3]" then Loaded (PyList [PyInt 1; PyInt 2; PyInt 3])
  else sample_load src.

(** A loaded document of two tasks, one edge and a policy. *)
Definition shaped_raw : dict py_value :=
  [("id", PyStr "f");
   ("tasks", PyList [PyDict [("name", PyStr "a"); ("agent", PyStr "x");
                             ("input", PyDict [("k", PyStr "v")])];
                     PyDict [("name", PyStr "b"); ("labels", PyNone)]]);
   ("edges", PyList [PyDict [("from", PyStr "a"); ("to", PyStr "b")]]);
   ("policy", PyDict [("risk_level", PyStr "high")])].

(** A sample loader for its text. *)
Definition shaped_load (src : string) : load_result :=
  if String.eqb src
       "{id: f, tasks: [{name: a, agent: x, input: {k: v}}, {name: b, labels: null}], edges: [{from: a, to: b}], policy: {risk_level: high}}"
  then Loaded (PyDict shaped_raw)
  else YAMLError "unsupported text".

(** A sample loader for a text whose only edge entry is a string. *)
Definition entry_load (src : string) : load_result :=
  if String.eqb src "{id: x, tasks: [{name: a, agent: b}], edges: [a]}" then
    Loaded (PyDict [("id", PyStr "x");
                 ("tasks", PyList [PyDict [("name", PyStr "a"); ("agent", PyStr "b")]]);
                 ("edges", PyList [PyStr "a"])])
  else flow_load src.

(** Task a leads into the cycle a -> b -> a and into the self-loop of c. *)
Definition fork_doc : grammar.FlowDocument :=
  sample_doc [sample_task "a" "a1" []; sample_task "b" "a2" [];
              sample_task "c" "a3" []]
             [sample_edge "a" "b"; sample_edge "b" "a"; sample_edge "a" "c";
              sample_edge "c" "c"]
             "low".

(** Another iteration order of a set: last inserted first. *)
Definition reverse_order (s : pyset) : list string := rev s.

(** The decimal digits of [n], in front of [acc]. *)
Fixpoint decimal_digits (fuel n : nat) (acc : string) : string :=
  match fuel with
  | O => acc
  | S fuel' =>
      let acc' := String (ascii_of_nat (48 + n mod 10)) acc in
      match n / 10 with
      | O => acc'
      | q => decimal_digits fuel' q acc'
      end
  end.

(** The task names t0, t1, t2, ... *)
Definition numbered (i : nat) : string := "t" ++ decimal_digits (S i) i "".

(** A chain t0 -> t1 -> ... of [n] tasks whose last task points back to
    the one before it: a cycle of length 2 at the end of the chain. *)
Definition deep_cycle_doc (n : nat) : grammar.FlowDocument :=
  sample_doc (map (fun i => sample_task (numbered i) "a1" []) (seq 0 n))
             (map (fun i => sample_edge (numbered i) (numbered (S i))) (seq 0 (n - 1))
              ++ [sample_edge (numbered (n - 1)) (numbered (n - 2))])
             "low".

(** * Proofs *)

(** ** Dicts and sets *)

Section DictFacts.
Context {V : Type}.
Implicit Types (d : dict V) (k : string) (v : V).

Lemma dict_get_set_eq k v d : dict_get k (dict_set k v d) = Some v.
Proof.
  induction d as [|[k' v'] d IH]; simpl.
  - now rewrite String.eqb_refl.
  - destruct (String.eqb k' k) eqn:E; simpl; now rewrite E.
Qed.

Lemma dict_get_set_neq k k' v d :
  k <> k' -> dict_get k' (dict_set k v d) = dict_get k' d.
Proof.
  intros Hne. induction d as [|[k0 v0] d IH]; simpl.
  - destruct (String.eqb_spec k k'); congruence.
  - destruct (String.eqb_spec k0 k); simpl.
    + subst. destruct (String.eqb_spec k k'); congruence.
    + now rewrite IH.
Qed.

Lemma dict_get_in_keys k d :
  In k (dict_keys d) <-> exists v, dict_get k d = Some v.
Proof.
  induction d as [|[k0 v0] d IH]; simpl.
  - split; [tauto | intros [v H]; discriminate].
  - destruct (String.eqb_spec k0 k).
    + split; eauto.
    + rewrite IH. split; [intros [?|?]; [congruence | assumption] | auto].
Qed.

Lemma dict_get_not_in_keys k d :
  ~ In k (dict_keys d) <-> dict_get k d = None.
Proof.
  rewrite dict_get_in_keys. destruct (dict_get k d); split; intros H.
  - exfalso. eauto.
  - discriminate.
  - reflexivity.
  - intros [v' Hv]. discriminate.
Qed.

Lemma dict_keys_set_in k v d :
  In k (dict_keys d) -> dict_keys (dict_set k v d) = dict_keys d.
Proof.
  induction d as [|[k0 v0] d IH]; simpl; [tauto|].
  intros H. destruct (String.eqb_spec k0 k); simpl; [reflexivity|].
  f_equal. apply IH. destruct H; congruence.
Qed.

Lemma dict_keys_set_fresh k v d :
  ~ In k (dict_keys d) -> dict_keys (dict_set k v d) = dict_keys d ++ [k].
Proof.
  induction d as [|[k0 v0] d IH]; simpl; [reflexivity|].
  intros H. destruct (String.eqb_spec k0 k); simpl.
  - tauto.
  - f_equal. apply IH. tauto.
Qed.

Lemma dict_get_in k v d : dict_get k d = Some v -> In (k, v) d.
Proof.
  induction d as [|[k0 v0] d IH]; simpl; [discriminate|].
  destruct (String.eqb_spec k0 k); intros H.
  - left. congruence.
  - right. auto.
Qed.

Lemma dict_in_get k v d : dict_wf d -> In (k, v) d -> dict_get k d = Some v.
Proof.
  unfold dict_wf. induction d as [|[k0 v0] d IH]; simpl; [tauto|].
  intros Hnd [H|H]; inversion Hnd; subst.
  - inversion H; subst. now rewrite String.eqb_refl.
  - destruct (String.eqb_spec k0 k).
    + subst. exfalso. apply H2. change k with (fst (k, v)). now apply in_map.
    + auto.
Qed.

(** [{name: c for name in names}] over distinct names. *)
Lemma dict_of_keys (c : V) (names : list string) (acc : dict V) :
  NoDup (dict_keys acc ++ names) ->
  fold_left (fun d name => dict_set name c d) names acc
  = acc ++ map (fun name => (name, c)) names.
Proof.
  revert acc. induction names as [|n names IH]; intros acc Hnd; simpl.
  - now rewrite app_nil_r.
  - assert (Hfresh : ~ In n (dict_keys acc)).
    { apply NoDup_remove_2 in Hnd. intros H. apply Hnd. apply in_or_app. now left. }
    rewrite IH.
    + assert (Hset : dict_set n c acc = acc ++ [(n, c)]).
      { clear - Hfresh. induction acc as [|[k0 v0] acc IHa]; simpl in *; [reflexivity|].
        destruct (String.eqb_spec k0 n); [tauto|]. f_equal. apply IHa. tauto. }
      rewrite Hset, <- app_assoc. reflexivity.
    + rewrite dict_keys_set_fresh by assumption.
      now rewrite <- app_assoc.
Qed.
End DictFacts.

Lemma set_mem_In x s : set_mem x s = true <-> In x s.
Proof.
  unfold set_mem. rewrite existsb_exists. split.
  - intros [y [Hy E]]. apply String.eqb_eq in E. now subst.
  - intros H. exists x. split; [assumption | apply String.eqb_refl].
Qed.

Lemma set_mem_not_In x s : set_mem x s = false <-> ~ In x s.
Proof.
  rewrite <- set_mem_In. destruct (set_mem x s); split; congruence.
Qed.

Lemma set_add_In x y s : In y (set_add x s) <-> y = x \/ In y s.
Proof.
  unfold set_add. destruct (set_mem x s) eqn:E.
  - apply set_mem_In in E. split; [auto | intros [->|H]; assumption].
  - rewrite in_app_iff. simpl. split; intros H.
    + destruct H as [H|[H|[]]]; auto.
    + destruct H as [H|H]; auto.
Qed.

Lemma set_add_fresh x s : ~ In x s -> set_add x s = s ++ [x].
Proof.
  intros H. unfold set_add. apply set_mem_not_In in H. now rewrite H.
Qed.

Lemma set_discard_In x y s : In y (set_discard x s) <-> y <> x /\ In y s.
Proof.
  unfold set_discard. rewrite filter_In. rewrite negb_true_iff.
  split; intros [H1 H2]; split; try assumption.
  - intros E. subst. now rewrite String.eqb_refl in H2.
  - destruct (String.eqb_spec x y); congruence.
Qed.

Lemma set_discard_last x s : ~ In x s -> set_discard x (s ++ [x]) = s.
Proof.
  intros H. unfold set_discard. rewrite filter_app. simpl.
  rewrite String.eqb_refl. simpl. rewrite app_nil_r.
  induction s as [|y s IH]; simpl; [reflexivity|].
  destruct (String.eqb_spec x y) as [E|E]; simpl.
  - exfalso. apply H. now left.
  - f_equal. apply IH. intros Hin. apply H. now right.
Qed.

(** ** sorted() permutes *)

Lemma insert_perm {A} (leb : A -> A -> bool) x l :
  Permutation (insert leb x l) (x :: l).
Proof.
  induction l as [|y l IH]; simpl; [reflexivity|].
  destruct (leb x y); [reflexivity|].
  rewrite IH. apply perm_swap.
Qed.

Lemma sorted_perm {A} (leb : A -> A -> bool) l : Permutation (sorted leb l) l.
Proof.
  induction l as [|x l IH]; simpl; [reflexivity|].
  rewrite insert_perm. now constructor.
Qed.

Lemma sorted_In {A} (leb : A -> A -> bool) l x : In x (sorted leb l) <-> In x l.
Proof.
  split; apply Permutation_in; [|symmetry]; apply sorted_perm.
Qed.

(** ** Kahn's algorithm *)

Lemma pending_cons e es emitted v :
  pending (e :: es) emitted v
  = (if String.eqb (ir.target e) v && negb (set_mem (ir.source e) emitted)
     then 1 else 0) + pending es emitted v.
Proof.
  unfold pending. simpl.
  destruct (String.eqb (ir.target e) v && negb (set_mem (ir.source e) emitted));
    reflexivity.
Qed.

Section Kahn.
Variable edges : list ir.IREdge.

Lemma arc_pending u v emitted :
  arc edges u v -> ~ In u emitted -> pending edges emitted v <> 0.
Proof.
  intros [e [He [Hu Hv]]] Hnot. unfold pending.
  assert (Hin : In e (filter (fun e => String.eqb (ir.target e) v
                         && negb (set_mem (ir.source e) emitted)) edges)).
  { apply filter_In. split; [assumption|].
    rewrite Hu, Hv, String.eqb_refl. simpl.
    apply negb_true_iff, set_mem_not_In, Hnot. }
  destruct (filter _ edges); [contradiction | discriminate].
Qed.

Lemma pending_arc v emitted :
  pending edges emitted v <> 0 -> exists u, arc edges u v /\ ~ In u emitted.
Proof.
  unfold pending. intros H.
  destruct (filter _ edges) as [|e l] eqn:E; [contradiction|].
  assert (Hin : In e (e :: l)) by now left.
  rewrite <- E in Hin. apply filter_In in Hin. destruct Hin as [He Hc].
  apply andb_true_iff in Hc. destruct Hc as [Ht Hs].
  apply String.eqb_eq in Ht. apply negb_true_iff, set_mem_not_In in Hs.
  exists (ir.source e). split; [exists e; auto | assumption].
Qed.

Lemma In_targets_of u v : In v (targets_of edges u) <-> arc edges u v.
Proof.
  unfold targets_of, arc. rewrite in_map_iff. split.
  - intros [e [Ht He]]. apply filter_In in He. destruct He as [He Hs].
    apply String.eqb_eq in Hs. eauto.
  - intros [e [He [Hs Ht]]]. exists e. split; [assumption|].
    apply filter_In. split; [assumption | now apply String.eqb_eq].
Qed.

(** Emitting [u] settles exactly the edges that leave [u]. *)
Lemma pending_emit u v emitted :
  ~ In u emitted ->
  pending edges emitted v
  = pending edges (emitted ++ [u]) v + count_occ string_dec (targets_of edges u) v.
Proof.
  intros Hu. unfold pending, targets_of.
  induction edges as [|e es IH]; simpl; [reflexivity|].
  assert (Hmem : set_mem (ir.source e) (emitted ++ [u])
                 = set_mem (ir.source e) emitted || String.eqb (ir.source e) u).
  { unfold set_mem. rewrite existsb_app. simpl. now rewrite orb_false_r. }
  rewrite Hmem.
  destruct (String.eqb_spec (ir.source e) u) as [Hs|Hs].
  - assert (Hn : set_mem (ir.source e) emitted = false).
    { apply set_mem_not_In. now rewrite Hs. }
    rewrite Hn. simpl. rewrite andb_true_r, andb_false_r.
    destruct (String.eqb_spec (ir.target e) v) as [Ht|Ht]; simpl.
    + destruct (string_dec (ir.target e) v); [|contradiction]. rewrite IH. lia.
    + destruct (string_dec (ir.target e) v); [contradiction|]. apply IH.
  - rewrite orb_false_r.
    destruct (String.eqb (ir.target e) v && negb (set_mem (ir.source e) emitted));
      simpl; rewrite IH; reflexivity.
Qed.

(** The edge loop succeeds when every target is a task, and leaves the
    in-degree of every task and the targets of every source. *)
Lemma add_edges_spec es : forall in_degree adj,
  (forall e, In e es -> In (ir.target e) (dict_keys in_degree)) ->
  exists in_degree' adj',
    compiler.add_edges es (in_degree, adj) = Ok (in_degree', adj') /\
    dict_keys in_degree' = dict_keys in_degree /\
    (forall v d, dict_get v in_degree = Some d ->
       dict_get v in_degree' = Some (d + Z.of_nat (pending es [] v))%Z) /\
    (forall u, compiler.adj_get u adj' = compiler.adj_get u adj ++ targets_of es u).
Proof.
  induction es as [|e es IH]; intros in_degree adj Hin.
  - exists in_degree, adj. simpl. repeat split; try reflexivity.
    + intros v d H. rewrite H. f_equal. unfold pending. simpl. lia.
    + intros u. unfold targets_of. simpl. now rewrite app_nil_r.
  - assert (Ht : In (ir.target e) (dict_keys in_degree)) by (apply Hin; now left).
    destruct (proj1 (dict_get_in_keys _ _) Ht) as [d0 Hd0].
    simpl. unfold dict_item. rewrite Hd0. simpl.
    set (deg1 := dict_set (ir.target e) (d0 + 1)%Z in_degree).
    set (adj1 := dict_set (ir.source e) _ adj).
    assert (Hk1 : dict_keys deg1 = dict_keys in_degree)
      by (apply dict_keys_set_in; assumption).
    destruct (IH deg1 adj1) as [deg' [adj' [Hrun [Hk [Hdeg Hadj]]]]].
    { intros e' He'. rewrite Hk1. apply Hin. now right. }
    exists deg', adj'. split; [assumption|]. split; [congruence|]. split.
    + intros v d Hv. rewrite pending_cons. simpl. rewrite andb_true_r.
      destruct (String.eqb_spec (ir.target e) v) as [E|E]; simpl.
      * subst v. rewrite (Hdeg (ir.target e) (d0 + 1)%Z).
        -- f_equal. assert (d = d0) by congruence. subst d. lia.
        -- apply dict_get_set_eq.
      * apply Hdeg. unfold deg1. rewrite dict_get_set_neq; assumption.
    + intros u. rewrite Hadj. unfold adj1, compiler.adj_get, targets_of. simpl.
      destruct (String.eqb_spec (ir.source e) u) as [E|E]; simpl.
      * subst u. rewrite dict_get_set_eq. now rewrite <- app_assoc.
      * rewrite dict_get_set_neq; [reflexivity | assumption].
Qed.

(** The inner loop over the sorted targets of the popped task: every
    target loses one unit per occurrence, and the targets enqueued are
    those whose count reaches zero, each once. *)
Lemma release_spec targets : forall in_degree queue,
  (forall v, In v targets -> In v (dict_keys in_degree)) ->
  exists in_degree' released,
    compiler.release targets in_degree queue = Ok (in_degree', queue ++ released) /\
    dict_keys in_degree' = dict_keys in_degree /\
    (forall v d, dict_get v in_degree = Some d ->
       dict_get v in_degree' = Some (d - Z.of_nat (count_occ string_dec targets v))%Z) /\
    (forall v, In v released <->
       exists d, dict_get v in_degree = Some d /\
                 (1 <= d <= Z.of_nat (count_occ string_dec targets v))%Z) /\
    NoDup released.
Proof.
  induction targets as [|nxt targets IH]; intros in_degree queue Hin.
  - exists in_degree, []. simpl. rewrite app_nil_r. repeat split; try reflexivity.
    + intros v d H. rewrite H. f_equal. lia.
    + intros [].
    + intros [d [_ H]]. lia.
    + constructor.
  - assert (Hn : In nxt (dict_keys in_degree)) by (apply Hin; now left).
    destruct (proj1 (dict_get_in_keys _ _) Hn) as [d0 Hd0].
    simpl. unfold dict_item. rewrite Hd0. simpl.
    set (deg1 := dict_set nxt (d0 - 1)%Z in_degree).
    assert (Hk1 : dict_keys deg1 = dict_keys in_degree)
      by (apply dict_keys_set_in; assumption).
    assert (Hin1 : forall v, In v targets -> In v (dict_keys deg1)).
    { intros v Hv. rewrite Hk1. apply Hin. now right. }
    assert (Hget1 : forall v d, dict_get v in_degree = Some d ->
              dict_get v deg1 = Some (if string_dec nxt v then d - 1 else d)%Z).
    { intros v d Hv. unfold deg1. destruct (string_dec nxt v) as [E|E].
      - subst v. rewrite dict_get_set_eq. congruence.
      - rewrite dict_get_set_neq; assumption. }
    assert (Hback : forall v d1, dict_get v deg1 = Some d1 ->
              exists d, dict_get v in_degree = Some d /\
                        d1 = (if string_dec nxt v then d - 1 else d)%Z).
    { intros v d1 Hv. unfold deg1 in Hv. destruct (string_dec nxt v) as [E|E].
      - subst v. rewrite dict_get_set_eq in Hv. exists d0. split; congruence.
      - rewrite dict_get_set_neq in Hv by assumption. eauto. }
    destruct (Z.eqb_spec (d0 - 1) 0) as [Hz|Hz].
    + destruct (IH deg1 (queue ++ [nxt]) Hin1)
        as [deg' [rel [Hrun [Hk [Hdeg [Hrel Hnd]]]]]].
      exists deg', (nxt :: rel). rewrite Hrun, <- app_assoc. simpl.
      split; [reflexivity|]. split; [congruence|]. split; [|split].
      * intros v d Hv. rewrite (Hdeg v _ (Hget1 v d Hv)). f_equal.
        destruct (string_dec nxt v); lia.
      * intros v. simpl. rewrite Hrel. split.
        -- intros [E|[d1 [Hv Hr]]].
           ++ subst v. exists d0. split; [assumption|].
              destruct (string_dec nxt nxt); [lia | contradiction].
           ++ destruct (Hback v d1 Hv) as [d [Hd E]]. exists d. split; [assumption|].
              destruct (string_dec nxt v); lia.
        -- intros [d [Hv Hr]]. destruct (string_dec nxt v) as [E|E]; [now left|].
           right. exists d. split; [|lia].
           rewrite (Hget1 v d Hv). destruct (string_dec nxt v); [contradiction|reflexivity].
      * constructor; [|assumption]. rewrite Hrel. intros [d1 [Hv Hr]].
        destruct (Hback nxt d1 Hv) as [d [Hd E]].
        destruct (string_dec nxt nxt); [|contradiction].
        assert (d = d0) by congruence. lia.
    + destruct (IH deg1 queue Hin1) as [deg' [rel [Hrun [Hk [Hdeg [Hrel Hnd]]]]]].
      exists deg', rel. split; [assumption|]. split; [congruence|]. split; [|split].
      * intros v d Hv. rewrite (Hdeg v _ (Hget1 v d Hv)). f_equal.
        destruct (string_dec nxt v); lia.
      * intros v. rewrite Hrel. split.
        -- intros [d1 [Hv Hr]]. destruct (Hback v d1 Hv) as [d [Hd E]].
           exists d. split; [assumption|]. destruct (string_dec nxt v); lia.
        -- intros [d [Hv Hr]]. eexists. split; [apply (Hget1 v d Hv)|].
           destruct (string_dec nxt v) as [E|E]; [|lia].
           subst v. assert (d = d0) by congruence. lia.
      * assumption.
Qed.

(** The state of the [while] loop. *)
Variable K : list string.
Variable adj : dict (list string).
Hypothesis K_distinct : NoDup K.
Hypothesis targets_known : forall e, In e edges -> In (ir.target e) K.
Hypothesis adj_targets : forall u, compiler.adj_get u adj = targets_of edges u.

Lemma pending_mono u v emitted :
  pending edges emitted v = 0 -> pending edges (emitted ++ [u]) v = 0.
Proof.
  intros H. destruct (in_dec string_dec u emitted) as [Hin|Hin].
  - destruct (Nat.eq_dec (pending edges (emitted ++ [u]) v) 0) as [E|E]; [assumption|].
    exfalso. apply pending_arc in E. destruct E as [w [Hw Hn]].
    apply (arc_pending w v emitted Hw); [|assumption].
    intros Hc. apply Hn. apply in_or_app. now left.
  - rewrite (pending_emit u v emitted Hin) in H. lia.
Qed.

(** One turn of the loop keeps the invariant. *)
Lemma kahn_step in_degree node queue order :
  kahn_inv edges K in_degree (node :: queue) order ->
  exists in_degree' released,
    compiler.release (sorted String.leb (compiler.adj_get node adj)) in_degree queue
    = Ok (in_degree', queue ++ released) /\
    kahn_inv edges K in_degree' (queue ++ released) (order ++ [node]) /\
    (forall v, In v released <->
       arc edges node v /\ pending edges (order ++ [node]) v = 0) /\
    NoDup released.
Proof.
  intros [Hkeys Hdeg Hnd Hknown Hready Hsrc].
  assert (Hnode_new : ~ In node order).
  { apply NoDup_remove_2 in Hnd. intros H. apply Hnd. apply in_or_app. now left. }
  assert (HnodeK : In node K).
  { apply Hknown. apply in_or_app. right. now left. }
  assert (Hcount : forall v,
            count_occ string_dec (sorted String.leb (compiler.adj_get node adj)) v
            = count_occ string_dec (targets_of edges node) v).
  { intros v. rewrite adj_targets.
    apply (proj1 (Permutation_count_occ string_dec _ _)). apply sorted_perm. }
  destruct (release_spec (sorted String.leb (compiler.adj_get node adj)) in_degree queue)
    as [deg' [rel [Hrun [Hk [Hd [Hrel Hrnd]]]]]].
  { intros v Hv. rewrite Hkeys. apply sorted_In in Hv. rewrite adj_targets in Hv.
    apply In_targets_of in Hv. destruct Hv as [e [He [_ Ht]]]. subst v. auto. }
  assert (Hrel2 : forall v, In v rel <->
            arc edges node v /\ pending edges (order ++ [node]) v = 0).
  { intros v. rewrite Hrel. rewrite Hcount. split.
    - intros [d [Hv Hr]].
      assert (Hc : count_occ string_dec (targets_of edges node) v > 0) by lia.
      apply count_occ_In in Hc. apply In_targets_of in Hc.
      assert (HvK : In v K).
      { destruct Hc as [e [He [_ Ht]]]. subst v. auto. }
      rewrite (Hdeg v HvK) in Hv. injection Hv as Hv.
      pose proof (pending_emit node v order Hnode_new). split; [assumption | lia].
    - intros [Harc Hz].
      assert (HvK : In v K).
      { destruct Harc as [e [He [_ Ht]]]. subst v. auto. }
      exists (Z.of_nat (pending edges order v)). split; [auto|].
      pose proof (pending_emit node v order Hnode_new).
      apply In_targets_of in Harc. apply (count_occ_In string_dec) in Harc. lia. }
  exists deg', rel. split; [assumption|]. split; [|split; assumption].
  assert (Hfresh : forall v, In v rel -> ~ In v (order ++ node :: queue)).
  { intros v Hv Hold. apply Hrel2 in Hv. destruct Hv as [Harc Hz].
    assert (HvK : In v K).
    { destruct Harc as [e [He [_ Ht]]]. subst v. auto. }
    apply (Hready v HvK) in Hold.
    apply (arc_pending node v order Harc Hnode_new Hold). }
  constructor.
  - congruence.
  - intros v HvK. rewrite (Hd v _ (Hdeg v HvK)). f_equal. rewrite Hcount.
    pose proof (pending_emit node v order Hnode_new). lia.
  - rewrite <- app_assoc. simpl.
    assert (Hsplit : NoDup ((order ++ node :: queue) ++ rel)).
    { clear - Hnd Hrnd Hfresh. induction (order ++ node :: queue) as [|x l IH]; simpl.
      - assumption.
      - inversion Hnd; subst. constructor.
        + intros Hin. apply in_app_or in Hin. destruct Hin as [Hin|Hin]; [contradiction|].
          apply (Hfresh x Hin). now left.
        + apply IH; [assumption|]. intros v Hv Hl. apply (Hfresh v Hv). now right. }
    rewrite <- app_assoc in Hsplit. exact Hsplit.
  - intros v Hv. rewrite <- app_assoc in Hv. simpl in Hv.
    apply in_app_or in Hv. destruct Hv as [Hv|[Hv|Hv]].
    + apply Hknown. apply in_or_app. now left.
    + now subst.
    + apply in_app_or in Hv. destruct Hv as [Hv|Hv].
      * apply Hknown. apply in_or_app. right. now right.
      * apply Hrel2 in Hv. destruct Hv as [[e [He [_ Ht]]] _]. subst v. auto.
  - intros v HvK.
    assert (Hsame : In v ((order ++ [node]) ++ queue ++ rel)
                    <-> In v (order ++ node :: queue) \/ In v rel).
    { rewrite !in_app_iff. simpl. tauto. }
    rewrite Hsame, Hrel2, (Hready v HvK). split.
    + intros [Hz|[_ Hz]]; [now apply pending_mono | assumption].
    + intros Hz. destruct (Nat.eq_dec (pending edges order v) 0) as [E|E]; [now left|].
      right. split; [|assumption].
      pose proof (pending_emit node v order Hnode_new).
      apply In_targets_of. apply (count_occ_In string_dec). lia.
  - intros l1 v l2 Heq u Harc.
    destruct (list_eq_dec string_dec l2 []) as [E|E].
    + subst l2. apply app_inj_tail in Heq. destruct Heq as [Hl Hv]. subst l1 v.
      assert (Hz : pending edges order node = 0).
      { apply (Hready node HnodeK). apply in_or_app. right. now left. }
      destruct (in_dec string_dec u order) as [Hin|Hin]; [assumption|].
      exfalso. apply (arc_pending u node order Harc Hin Hz).
    + destruct (exists_last E) as [l2' [x Hx]]. subst l2.
      change (l1 ++ v :: l2' ++ [x]) with (l1 ++ (v :: l2') ++ [x]) in Heq.
      rewrite app_assoc in Heq. apply app_inj_tail in Heq. destruct Heq as [Hl _].
      apply (Hsrc l1 v l2' Hl u Harc).
Qed.

(** The loop ends within as many turns as there are tasks left. *)
Lemma drain_spec fuel : forall in_degree queue order,
  kahn_inv edges K in_degree queue order ->
  length K <= fuel + length order ->
  exists final in_degree',
    compiler.drain fuel adj in_degree queue order = Ok final /\
    kahn_inv edges K in_degree' [] final.
Proof.
  induction fuel as [|fuel IH]; intros in_degree queue order Hinv Hfuel;
    destruct queue as [|node queue].
  - exists order, in_degree. split; [reflexivity | assumption].
  - exfalso. destruct Hinv as [_ _ Hnd Hknown _ _].
    pose proof (NoDup_incl_length Hnd Hknown) as Hlen.
    rewrite length_app in Hlen. simpl in Hlen. lia.
  - exists order, in_degree. split; [reflexivity | assumption].
  - destruct (kahn_step in_degree node queue order Hinv)
      as [deg' [rel [Hrun [Hinv' _]]]].
    simpl. rewrite Hrun. simpl. apply (IH deg' (queue ++ rel) (order ++ [node]) Hinv').
    rewrite length_app. simpl. lia.
Qed.
End Kahn.

(** In a finite acyclic graph no non-empty set of nodes is closed under
    taking a predecessor: walking backwards would never leave it, yet
    could not repeat a node. *)
Section Backwards.
Variable R : string -> string -> Prop.
Variable K : list string.
Variable S : string -> Prop.
Hypothesis S_known : forall v, S v -> In v K.
Hypothesis S_pred : forall v, S v -> exists u, S u /\ R u v.
Hypothesis R_acyclic : forall v, ~ clos_trans string R v v.

Lemma chain_reach x path y :
  chain R (x :: path) -> In y (x :: path) -> clos_refl_trans string R x y.
Proof.
  revert x. induction path as [|z path IH]; intros x Hc Hin.
  - destruct Hin as [E|[]]. subst. apply rt_refl.
  - destruct Hin as [E|Hin]; [subst; apply rt_refl|].
    destruct Hc as [Hxz Hc]. apply rt_trans with z; [now apply rt_step | now apply IH].
Qed.

Lemma no_backward_walk n : forall x path,
  length K <= n + length (x :: path) ->
  NoDup (x :: path) -> (forall y, In y (x :: path) -> S y) -> chain R (x :: path) ->
  False.
Proof.
  induction n as [|n IH]; intros x path Hlen Hnd HS Hc;
    destruct (S_pred x (HS x (or_introl eq_refl))) as [u [Hu Hux]];
    destruct (in_dec string_dec u (x :: path)) as [Hin|Hin].
  1, 3: apply (R_acyclic x); apply clos_rt_t with u;
    [ now apply chain_reach with path | now apply t_step ].
  - assert (Hnd' : NoDup (u :: x :: path)) by now constructor.
    assert (Hincl : incl (u :: x :: path) K).
    { intros y [E|Hy]; [subst; auto | auto]. }
    pose proof (NoDup_incl_length Hnd' Hincl) as Hle. simpl in *. lia.
  - apply (IH u (x :: path)).
    + simpl in *. lia.
    + now constructor.
    + intros y [E|Hy]; [now subst | auto].
    + split; assumption.
Qed.

Lemma backward_closed_empty v : ~ S v.
Proof.
  intros Hv. apply (no_backward_walk (length K) v []).
  - simpl. lia.
  - constructor; [intros [] | constructor].
  - intros y [E|[]]. now subst.
  - exact I.
Qed.
End Backwards.

Lemma index_app_found x l1 l2 :
  In x l1 -> exists i, index x (l1 ++ l2) = Some i /\ i < length l1.
Proof.
  induction l1 as [|y l1 IH]; simpl; [tauto|]. intros H.
  destruct (String.eqb_spec y x) as [E|E].
  - exists 0. split; [reflexivity | lia].
  - destruct H as [H|H]; [contradiction|].
    destruct (IH H) as [i [Hi Hlt]]. exists (Datatypes.S i). rewrite Hi. split; [reflexivity | lia].
Qed.

Lemma index_app_fresh x l1 l2 :
  ~ In x l1 -> index x (l1 ++ x :: l2) = Some (length l1).
Proof.
  induction l1 as [|y l1 IH]; simpl; intros H.
  - now rewrite String.eqb_refl.
  - destruct (String.eqb_spec y x) as [E|E]; [tauto|].
    rewrite IH by tauto. reflexivity.
Qed.

Lemma sources_first_index edges order u v :
  NoDup order -> sources_first edges order -> arc edges u v -> In v order ->
  exists i j, index u order = Some i /\ index v order = Some j /\ i < j.
Proof.
  intros Hnd Hsrc Harc Hv.
  destruct (in_split v order Hv) as [l1 [l2 E]].
  pose proof (Hsrc l1 v l2 E u Harc) as Hu. subst order.
  destruct (index_app_found u l1 (v :: l2) Hu) as [i [Hi Hlt]].
  exists i, (length l1). split; [assumption|]. split; [|assumption].
  apply index_app_fresh. now apply NoDup_remove_2 in Hnd; intros H; apply Hnd, in_or_app; left.
Qed.

Lemma NoDup_map_filter {A B} (f : A -> B) (p : A -> bool) l :
  NoDup (map f l) -> NoDup (map f (filter p l)).
Proof.
  induction l as [|x l IH]; simpl; intros H; [constructor|].
  inversion H; subst. destruct (p x); simpl; [|auto].
  constructor; [|auto]. intros Hin. apply H2.
  apply in_map_iff in Hin. destruct Hin as [y [E Hy]].
  apply filter_In in Hy. rewrite <- E. apply in_map. tauto.
Qed.

Lemma zero_degrees_eq tasks :
  dict_wf tasks ->
  compiler.zero_degrees tasks = map (fun name => (name, 0%Z)) (dict_keys tasks).
Proof.
  intros H. unfold compiler.zero_degrees. now rewrite dict_of_keys.
Qed.

Lemma dict_keys_const {V} (c : V) names :
  dict_keys (map (fun name => (name, c)) names) = names.
Proof.
  unfold dict_keys. rewrite map_map. simpl. apply map_id.
Qed.

(** The seed holds the tasks of in-degree zero, each once. *)
Lemma seed_spec (in_degree : dict Z) :
  dict_wf in_degree ->
  NoDup (compiler.seed in_degree) /\
  forall v, In v (compiler.seed in_degree) <-> dict_get v in_degree = Some 0%Z.
Proof.
  intros Hwf. unfold compiler.seed. split.
  - apply NoDup_map_filter.
    apply (Permutation_NoDup (l := map fst in_degree)); [|exact Hwf].
    apply Permutation_map. symmetry. apply sorted_perm.
  - intros v. rewrite in_map_iff. split.
    + intros [[k d] [E H]]. simpl in E. subst k.
      apply filter_In in H. destruct H as [H Hz]. simpl in Hz.
      apply Z.eqb_eq in Hz. subst d. apply sorted_In in H.
      now apply dict_in_get.
    + intros H. exists (v, 0%Z). split; [reflexivity|].
      apply filter_In. split; [|reflexivity].
      apply sorted_In. now apply dict_get_in.
Qed.

(** The state in which the [while] loop starts. *)
Lemma kahn_start (flow : ir.IRFlow) :
  dict_wf (ir.tasks flow) ->
  (forall e, In e (ir.edges flow) -> In (ir.target e) (dict_keys (ir.tasks flow))) ->
  exists in_degree adj,
    compiler.add_edges (ir.edges flow) (compiler.zero_degrees (ir.tasks flow), [])
    = Ok (in_degree, adj) /\
    (forall u, compiler.adj_get u adj = targets_of (ir.edges flow) u) /\
    kahn_inv (ir.edges flow) (dict_keys (ir.tasks flow)) in_degree
             (compiler.seed in_degree) [].
Proof.
  intros Hwf Htargets.
  set (K := dict_keys (ir.tasks flow)).
  assert (Hk0 : dict_keys (compiler.zero_degrees (ir.tasks flow)) = K).
  { rewrite zero_degrees_eq by assumption. apply dict_keys_const. }
  destruct (add_edges_spec (ir.edges flow) (compiler.zero_degrees (ir.tasks flow)) [])
    as [deg [adj [Hrun [Hkeys [Hdeg Hadj]]]]].
  { intros e He. rewrite Hk0. now apply Htargets. }
  exists deg, adj. split; [exact Hrun|]. split; [exact Hadj|].
  assert (Hdeg0 : forall v, In v K -> dict_get v deg
                    = Some (Z.of_nat (pending (ir.edges flow) [] v))).
  { intros v Hv. rewrite (Hdeg v 0%Z); [f_equal; lia|].
    apply dict_in_get.
    - unfold dict_wf. now rewrite Hk0.
    - rewrite zero_degrees_eq by assumption. apply in_map_iff. exists v. auto. }
  assert (Hwf' : dict_wf deg) by (unfold dict_wf; rewrite Hkeys, Hk0; exact Hwf).
  destruct (seed_spec deg Hwf') as [Hsnd Hseed].
  constructor; simpl.
  - congruence.
  - assumption.
  - assumption.
  - intros v Hv. apply Hseed in Hv.
    fold K. rewrite <- Hk0, <- Hkeys. apply dict_get_in_keys. eauto.
  - intros v Hv. rewrite Hseed, (Hdeg0 v Hv). split; intros H.
    + injection H as H. lia.
    + now rewrite H.
  - intros l1 v l2 E. destruct l1; discriminate.
Qed.

(** Kahn's algorithm runs to completion on every flow whose edge
    targets are tasks, and ends in a state that satisfies the invariant. *)
Lemma topological_order_run (flow : ir.IRFlow) :
  dict_wf (ir.tasks flow) ->
  (forall e, In e (ir.edges flow) -> In (ir.target e) (dict_keys (ir.tasks flow))) ->
  exists order in_degree,
    compiler._topological_order flow = Ok order /\
    kahn_inv (ir.edges flow) (dict_keys (ir.tasks flow)) in_degree [] order.
Proof.
  intros Hwf Htargets. unfold compiler._topological_order.
  destruct (kahn_start flow Hwf Htargets) as [deg [adj [Hrun [Hadj Hinv]]]].
  rewrite Hrun. simpl.
  destruct (drain_spec (ir.edges flow) (dict_keys (ir.tasks flow)) adj Hwf Htargets
              Hadj (length (ir.tasks flow)) deg (compiler.seed deg) [] Hinv)
    as [final [deg' [Hfinal Hinv']]].
  { unfold dict_keys. rewrite length_map. simpl. lia. }
  exists final, deg'. split; assumption.
Qed.

(** A ranking that grows along every edge rules out cycles. *)
Lemma acyclic_by_rank (edges : list ir.IREdge) (rank : string -> nat) :
  (forall e, In e edges -> rank (ir.source e) < rank (ir.target e)) ->
  acyclic edges.
Proof.
  intros Hrank.
  assert (Hpath : forall u v, clos_trans string (arc edges) u v -> rank u < rank v).
  { intros u v H. induction H as [u v [e [He [Hu Hv]]]|u w v _ IH1 _ IH2].
    - subst. now apply Hrank.
    - lia. }
  intros v Hv. apply Hpath in Hv. lia.
Qed.

Lemma hello_flow_valid : valid_IRFlow hello_flow.
Proof.
  constructor; simpl.
  - unfold nonblank. vm_compute. discriminate.
  - unfold nonblank. vm_compute. discriminate.
  - discriminate.
  - unfold dict_wf. simpl. repeat constructor; simpl; intuition discriminate.
  - intros k t [E|[E|[]]]; inversion E; subst; simpl;
      (split; [reflexivity | unfold nonblank; vm_compute; discriminate]).
  - intros k t [E|[E|[]]]; inversion E; subst; simpl;
      unfold nonblank; vm_compute; discriminate.
  - intros e [E|[]]; subst; simpl; tauto.
  - apply (acyclic_by_rank _ (fun s => if String.eqb s "answer" then 1 else 0)).
    intros e [E|[]]; subst; simpl; lia.
  - intros k t [E|[E|[]]]; inversion E; subst; simpl; lia.
  - tauto.
Qed.

(** ** C1: the topological order is a permutation that respects every edge *)

(** C1.  For every valid (acyclic) IRFlow, [_topological_order], which both
    code generators call, returns a permutation of all task names of the
    flow, so its length is the task count, and for every edge (u, v) the
    index of u in the returned sequence is strictly less than that of v. *)
Theorem topological_order_correct (flow : ir.IRFlow) :
  valid_IRFlow flow ->
  exists order,
    compiler._topological_order flow = Ok order /\
    Permutation order (dict_keys (ir.tasks flow)) /\
    length order = length (ir.tasks flow) /\
    forall u v, arc (ir.edges flow) u v ->
      exists i j, index u order = Some i /\ index v order = Some j /\ i < j.
Proof.
  intros Hvalid.
  destruct (topological_order_run flow (valid_distinct flow Hvalid))
    as [order [deg [Hrun [_ _ Hnd Hknown Hready Hsrc]]]].
  { intros e He. now apply (valid_edges flow Hvalid). }
  rewrite app_nil_r in Hnd, Hknown.
  assert (Hall : forall v, In v (dict_keys (ir.tasks flow)) -> In v order).
  { intros v Hv. destruct (in_dec string_dec v order) as [Hin|Hout]; [assumption|].
    exfalso.
    apply (backward_closed_empty (arc (ir.edges flow)) (dict_keys (ir.tasks flow))
             (fun x => In x (dict_keys (ir.tasks flow)) /\ ~ In x order)) with (v := v).
    - tauto.
    - intros x [Hx Hnx].
      destruct (pending_arc (ir.edges flow) x order) as [u [Hux Hu]].
      { intros Hz. apply Hnx. apply (Hready x Hx) in Hz. now rewrite app_nil_r in Hz. }
      exists u. split; [split; [|assumption] | assumption].
      destruct Hux as [e [He [Hs _]]]. subst u. now apply (valid_edges flow Hvalid).
    - apply (valid_acyclic flow Hvalid).
    - tauto. }
  assert (Hperm : Permutation order (dict_keys (ir.tasks flow))).
  { apply NoDup_Permutation.
    - assumption.
    - apply (valid_distinct flow Hvalid).
    - intros v. split; [apply Hknown | apply Hall]. }
  exists order. split; [assumption|]. split; [assumption|]. split.
  - rewrite (Permutation_length Hperm). unfold dict_keys. apply length_map.
  - intros u v Harc. apply (sources_first_index (ir.edges flow)); try assumption.
    apply Hall. destruct Harc as [e [He [_ Ht]]]. subst v.
    now apply (valid_edges flow Hvalid).
Qed.

Lemma topological_order_correct_witness :
  exists order,
    compiler._topological_order hello_flow = Ok order /\
    Permutation order (dict_keys (ir.tasks hello_flow)) /\
    length order = length (ir.tasks hello_flow) /\
    forall u v, arc (ir.edges hello_flow) u v ->
      exists i j, index u order = Some i /\ index v order = Some j /\ i < j.
Proof.
  apply (topological_order_correct hello_flow). exact hello_flow_valid.
Defined.

(** ** Cycle detection *)

(** Paths: a prefix of a path is a path, and an arc extends one. *)
Lemma chain_prefix R p : forall q, chain R (p ++ q) -> chain R p.
Proof.
  induction p as [|x p IH]; intros q H; [exact I|].
  destruct p as [|y p]; [exact I|].
  change (R x y /\ chain R ((y :: p) ++ q)) in H.
  change (R x y /\ chain R (y :: p)).
  destruct H as [Hxy H]. split; [exact Hxy | exact (IH q H)].
Qed.

Lemma chain_snoc R p u v :
  chain R (p ++ [u]) -> R u v -> chain R ((p ++ [u]) ++ [v]).
Proof.
  intros H Huv. induction p as [|x p IH].
  - simpl. split; [exact Huv | exact I].
  - destruct p as [|y p].
    + simpl in *. tauto.
    + change (R x y /\ chain R ((y :: p) ++ [u])) in H.
      change (R x y /\ chain R (((y :: p) ++ [u]) ++ [v])).
      destruct H as [Hxy H]. split; [exact Hxy | exact (IH H)].
Qed.

(** In a path of two tasks or more every task is an endpoint of an arc. *)
Lemma chain_endpoints R (known : string -> Prop) :
  (forall u v, R u v -> known u /\ known v) ->
  forall p x y, chain R (x :: y :: p) -> forall z, In z (x :: y :: p) -> known z.
Proof.
  intros Hends. induction p as [|w p IH]; intros x y H z Hz.
  - simpl in H. destruct H as [Hxy _]. destruct (Hends x y Hxy).
    destruct Hz as [<-|[<-|[]]]; assumption.
  - change (R x y /\ chain R (y :: w :: p)) in H. destruct H as [Hxy H].
    destruct Hz as [<-|Hz]; [exact (proj1 (Hends x y Hxy))|].
    exact (IH y w H z Hz).
Qed.

(** A graph on fewer tasks than there are frames is shallow. *)
Lemma shallow_by_count edges names frames :
  (forall e, In e edges -> In (ir.source e) names /\ In (ir.target e) names) ->
  length names < frames -> 1 < frames ->
  shallow edges frames.
Proof.
  intros Hends Hlen Hone path Hnd Hch.
  destruct path as [|x [|y p]]; simpl; try lia.
  assert (Hincl : incl (x :: y :: p) names).
  { intros z Hz.
    apply (chain_endpoints (arc edges) (fun n => In n names)) with p x y;
      [|exact Hch|exact Hz].
    intros u v [e [He [<- <-]]]. now apply Hends. }
  pose proof (NoDup_incl_length Hnd Hincl) as H. simpl in H. lia.
Qed.

Lemma shallow_not_deep edges frames : shallow edges frames -> ~ deep edges frames.
Proof.
  intros Hs [path [Hnd [Hch Hlen]]]. specialize (Hs path Hnd Hch). lia.
Qed.

Section Dfs.
Variable set_iter : pyset -> list string.
Hypothesis set_iter_perm : forall s, Permutation (set_iter s) s.

Variable graph : dict pyset.
(** The arcs the adjacency sets stand for. *)
Variable E : string -> string -> Prop.
Hypothesis graph_arcs : forall u v,
  (exists succs, dict_get u graph = Some succs /\ In v succs) <-> E u v.
Hypothesis graph_closed : forall u v, E u v -> In v (dict_keys graph).

Lemma closed_reach visited :
  (forall v w, In v visited -> E v w -> In w visited) ->
  forall a b, clos_refl_trans string E a b -> In a visited -> In b visited.
Proof.
  intros Hc a b H. induction H; eauto.
Qed.

Lemma first_step a b :
  clos_trans string E a b -> exists w, E a w /\ clos_refl_trans string E w b.
Proof.
  intros H. apply clos_trans_t1n in H. destruct H as [w H|w c H Hr].
  - exists w. split; [assumption | apply rt_refl].
  - exists w. split; [assumption|]. apply clos_t_clos_rt. now apply clos_t1n_trans.
Qed.

Lemma dfs_loop depth
  (IH : forall node visiting visited,
      In node (dict_keys graph) -> dfs_inv graph E visiting visited ->
      (forall w, In w visiting -> clos_trans string E w node) ->
      chain E (visiting ++ [node]) ->
      dfs_post graph E depth visiting visited [node]
        (validator.dfs set_iter depth graph node (visiting, visited))) :
  forall targets visiting visited,
    incl targets (dict_keys graph) -> dfs_inv graph E visiting visited ->
    (forall w x, In w visiting -> In x targets -> clos_trans string E w x) ->
    (forall x, In x targets -> chain E (visiting ++ [x])) ->
    dfs_post graph E depth visiting visited targets
      (for_each (validator.dfs set_iter depth graph) targets (visiting, visited)).
Proof.
  induction targets as [|x targets IHt]; intros visiting visited Hk Hinv Hpath Hch.
  - simpl. split; [reflexivity|]. split; [assumption|].
    split; intros y Hy; [destruct Hy | assumption].
  - simpl.
    pose proof (IH x visiting visited (Hk x (or_introl eq_refl)) Hinv
                  (fun w Hw => Hpath w x Hw (or_introl eq_refl))
                  (Hch x (or_introl eq_refl))) as Hx.
    destruct (validator.dfs set_iter depth graph x (visiting, visited))
      as [[vi vd]|e|]; simpl in *; [|exact Hx|exact Hx].
    destruct Hx as [Hvi [Hinv' [Hin Hmono]]]. subst vi.
    pose proof (IHt visiting vd (fun y Hy => Hk y (or_intror Hy)) Hinv'
                  (fun w y Hw Hy => Hpath w y Hw (or_intror Hy))
                  (fun y Hy => Hch y (or_intror Hy))) as Hrest.
    destruct (for_each _ targets (visiting, vd)) as [[vi' vd']|e|]; simpl in *;
      [|exact Hrest|exact Hrest].
    destruct Hrest as [Hvi' [Hinv'' [Hin' Hmono']]].
    split; [assumption|]. split; [assumption|]. split.
    + intros y [Hy|Hy]; [subst y; apply Hmono', Hin; now left | now apply Hin'].
    + intros y Hy. apply Hmono', Hmono, Hy.
Qed.

Lemma dfs_S depth node visiting visited :
  validator.dfs set_iter (Datatypes.S depth) graph node (visiting, visited)
  = if set_mem node visiting then Raise (ValidationError (CycleAt node))
    else if set_mem node visited then Ok (visiting, visited)
    else
      succs <- dict_item node graph ;;
      st <- for_each (validator.dfs set_iter depth graph) (set_iter succs)
              (set_add node visiting, visited) ;;
      Ok (set_discard node (fst st), set_add node (snd st)).
Proof.
  simpl. destruct (set_mem node visiting); [reflexivity|].
  destruct (set_mem node visited); [reflexivity|].
  destruct (dict_item node graph); simpl; try reflexivity.
  destruct (for_each _ _ _) as [[vi vd]| |]; reflexivity.
Qed.

(** The tasks being visited form a path through distinct tasks, one
    per frame in use, which the call extends by [node]. *)
Lemma dfs_spec depth : forall node visiting visited,
  In node (dict_keys graph) -> dfs_inv graph E visiting visited ->
  (forall w, In w visiting -> clos_trans string E w node) ->
  chain E (visiting ++ [node]) ->
  dfs_post graph E depth visiting visited [node]
    (validator.dfs set_iter depth graph node (visiting, visited)).
Proof.
  induction depth as [|depth IH]; intros node visiting visited Hk Hinv Hpath Hch.
  - simpl. exists visiting. destruct Hinv as [Hnd _ _ _ _].
    split; [exact Hnd|]. split; [exact (chain_prefix E visiting [node] Hch) | lia].
  - rewrite dfs_S. destruct (set_mem node visiting) eqn:Hvisiting.
    { apply set_mem_In in Hvisiting. simpl. now apply Hpath. }
    apply set_mem_not_In in Hvisiting.
    destruct (set_mem node visited) eqn:Hvisited.
    { apply set_mem_In in Hvisited. simpl.
      split; [reflexivity|]. split; [assumption|]. split.
      - intros y [Hy|[]]. now subst.
      - intros y Hy. exact Hy. }
    apply set_mem_not_In in Hvisited.
    destruct (proj1 (dict_get_in_keys _ _) Hk) as [succs Hsuccs].
    unfold dict_item. rewrite Hsuccs. simpl.
    rewrite (set_add_fresh node visiting Hvisiting).
    assert (Hsucc : forall x, In x (set_iter succs) <-> E node x).
    { intros x. rewrite <- graph_arcs. split.
      - intros Hx. exists succs. split; [assumption|].
        apply (Permutation_in _ (set_iter_perm succs) Hx).
      - intros [s' [Hs' Hx]]. assert (s' = succs) by congruence. subst s'.
        apply (Permutation_in _ (Permutation_sym (set_iter_perm succs)) Hx). }
    destruct Hinv as [Hnd Hkn Hdis Hclosed Hacyc].
    assert (Hinv1 : dfs_inv graph E (visiting ++ [node]) visited).
    { constructor.
      - apply NoDup_app_remove_l with (l := []). simpl.
        apply (Permutation_NoDup (l := node :: visiting)).
        + apply Permutation_cons_append.
        + now constructor.
      - intros y Hy. apply in_app_or in Hy. destruct Hy as [Hy|[Hy|[]]];
          [now apply Hkn | now subst].
      - intros y Hy. apply in_app_or in Hy. destruct Hy as [Hy|[Hy|[]]];
          [now apply Hdis | now subst].
      - assumption.
      - assumption. }
    pose proof (dfs_loop depth IH (set_iter succs) (visiting ++ [node]) visited) as Hloop.
    match goal with
    | |- dfs_post graph E _ _ _ _ (bind ?r _) =>
        assert (Hpost : dfs_post graph E depth (visiting ++ [node]) visited
                          (set_iter succs) r);
        [ | destruct r as [[vi vd]|e|]; cbn [bind]; [| |exact Hpost] ]
    end.
    { apply Hloop.
      - intros x Hx. apply (graph_closed node x). now apply Hsucc.
      - exact Hinv1.
      - intros w x Hw Hx. apply Hsucc in Hx. apply in_app_or in Hw.
        destruct Hw as [Hw|[Hw|[]]].
        + apply t_trans with node; [now apply Hpath | now apply t_step].
        + subst w. now apply t_step.
      - intros x Hx. apply chain_snoc; [exact Hch | now apply Hsucc]. }
    2:{ destruct e as [|m| | | | | |]; try exact Hpost.
        destruct Hpost as [path [Hp1 [Hp2 Hp3]]]. exists path.
        rewrite length_app in Hp3. simpl in Hp3 |- *.
        split; [exact Hp1|]. split; [exact Hp2 | lia]. }
    simpl in Hpost |- *.
    destruct Hpost as [Hvi [[_ _ Hdis' Hclosed' Hacyc'] [Hin Hmono]]]. subst vi.
    rewrite (set_discard_last node visiting Hvisiting).
    assert (Hnode_out : ~ In node vd).
    { apply Hdis'. apply in_or_app. right. now left. }
    split; [reflexivity|]. split; [|split].
    + constructor; try assumption.
      * intros y Hy Hc. apply set_add_In in Hc. destruct Hc as [Hc|Hc].
        -- subst y. contradiction.
        -- apply (Hdis' y); [apply in_or_app; now left | assumption].
      * intros v w Hv Hvw. apply set_add_In. right.
        apply set_add_In in Hv. destruct Hv as [Hv|Hv].
        -- subst v. apply Hin. now apply Hsucc.
        -- now apply (Hclosed' v w).
      * intros v Hv Hc. apply set_add_In in Hv. destruct Hv as [Hv|Hv].
        -- subst v. destruct (first_step node node Hc) as [w [Hw Hr]].
           apply Hnode_out. apply (closed_reach vd Hclosed' w node Hr).
           apply Hin. now apply Hsucc.
        -- now apply (Hacyc' v).
    + intros y [Hy|[]]. subst y. apply set_add_In. now left.
    + intros y Hy. apply set_add_In. right. now apply Hmono.
Qed.
End Dfs.

Lemma arc_cons e es u v :
  arc (e :: es) u v <-> (ir.source e = u /\ ir.target e = v) \/ arc es u v.
Proof.
  unfold arc. simpl. split.
  - intros [e' [[He|He] H]]; [subst e'; now left | right; eauto].
  - intros [H|[e' [He H]]]; [exists e; auto | exists e'; auto].
Qed.

(** The adjacency sets hold exactly the arcs of the edge list. *)
Lemma graph_build_spec edges : forall graph,
  (forall e, In e edges -> In (ir.source e) (dict_keys graph)) ->
  exists graph',
    for_each validator.graph_add edges graph = Ok graph' /\
    dict_keys graph' = dict_keys graph /\
    forall u v,
      (exists succs, dict_get u graph' = Some succs /\ In v succs) <->
      (exists succs, dict_get u graph = Some succs /\ In v succs) \/ arc edges u v.
Proof.
  induction edges as [|e es IH]; intros graph Hsrc.
  - exists graph. split; [reflexivity|]. split; [reflexivity|].
    intros u v. split; [now left | intros [H|[e [[] _]]]; exact H].
  - assert (Hs : In (ir.source e) (dict_keys graph)) by (apply Hsrc; now left).
    destruct (proj1 (dict_get_in_keys _ _) Hs) as [succs Hsuccs].
    simpl. unfold validator.graph_add at 1, dict_item. rewrite Hsuccs. simpl.
    set (g1 := dict_set (ir.source e) (set_add (ir.target e) succs) graph).
    assert (Hk1 : dict_keys g1 = dict_keys graph) by now apply dict_keys_set_in.
    destruct (IH g1) as [g' [Hrun [Hk Harcs]]].
    { intros e' He'. rewrite Hk1. apply Hsrc. now right. }
    exists g'. split; [assumption|]. split; [congruence|].
    intros u v. rewrite Harcs, arc_cons.
    assert (H1 : (exists s, dict_get u g1 = Some s /\ In v s) <->
                 (exists s, dict_get u graph = Some s /\ In v s)
                 \/ (ir.source e = u /\ ir.target e = v)).
    { unfold g1. destruct (string_dec (ir.source e) u) as [Eu|Eu].
      - subst u. rewrite dict_get_set_eq. split.
        + intros [s [Hs' Hv]]. injection Hs' as <-. apply set_add_In in Hv.
          destruct Hv as [Hv|Hv]; [right; auto | left; eauto].
        + intros [[s [Hs' Hv]]|[_ Hv]]; eexists; (split; [reflexivity|]);
            apply set_add_In; [right; congruence | left; auto].
      - rewrite dict_get_set_neq by assumption. split; [auto | intros [H|[H _]]; tauto]. }
    rewrite H1. tauto.
Qed.

Lemma empty_graph_spec tasks :
  dict_wf tasks ->
  dict_keys (validator.empty_graph tasks) = dict_keys tasks /\
  forall u succs, dict_get u (validator.empty_graph tasks) = Some succs -> succs = [].
Proof.
  intros Hwf. unfold validator.empty_graph. rewrite dict_of_keys by exact Hwf. simpl.
  split; [apply dict_keys_const|].
  intros u succs H. apply dict_get_in in H. apply in_map_iff in H.
  destruct H as [n [Hn _]]. congruence.
Qed.

(** With fewer frames the traversal does the same, until it runs out
    of them. *)
Lemma same_or_overflow_refl {A} (r : res A) : same_or_overflow r r.
Proof. now left. Qed.

Lemma for_each_fewer {A St} (f' f : A -> St -> res St) l :
  (forall x s, same_or_overflow (f' x s) (f x s)) ->
  forall s, same_or_overflow (for_each f' l s) (for_each f l s).
Proof.
  intros Hf. induction l as [|x l IH]; intros s; simpl.
  - apply same_or_overflow_refl.
  - destruct (Hf x s) as [E|E]; rewrite E.
    + destruct (f x s) as [s1|e|]; simpl;
        [apply IH | apply same_or_overflow_refl | apply same_or_overflow_refl].
    + now right.
Qed.

Lemma dfs_fewer_frames set_iter graph depth : forall depth' node st,
  depth' <= depth ->
  same_or_overflow (validator.dfs set_iter depth' graph node st)
                   (validator.dfs set_iter depth graph node st).
Proof.
  induction depth as [|depth IH]; intros depth' node [visiting visited] Hle.
  - assert (depth' = 0) by lia. subst. apply same_or_overflow_refl.
  - destruct depth' as [|depth']; [now right|].
    cbn [validator.dfs].
    destruct (set_mem node visiting); [apply same_or_overflow_refl|].
    destruct (set_mem node visited); [apply same_or_overflow_refl|].
    destruct (dict_item node graph) as [succs|e|]; cbn [bind];
      [|apply same_or_overflow_refl|apply same_or_overflow_refl].
    destruct (for_each_fewer (validator.dfs set_iter depth' graph)
                (validator.dfs set_iter depth graph) (set_iter succs)
                (fun x s => IH depth' x s ltac:(lia))
                (set_add node visiting, visited)) as [E|E]; rewrite E.
    + apply same_or_overflow_refl.
    + now right.
Qed.

Lemma assert_dag_fewer_frames set_iter frames' frames tasks edges :
  frames' <= frames ->
  same_or_overflow (validator._assert_dag set_iter frames' tasks edges)
                   (validator._assert_dag set_iter frames tasks edges).
Proof.
  intros Hle. unfold validator._assert_dag.
  destruct (for_each validator.graph_add edges (validator.empty_graph tasks))
    as [graph|e|]; cbn [bind];
    [|apply same_or_overflow_refl|apply same_or_overflow_refl].
  destruct (for_each_fewer (validator.dfs set_iter frames' graph)
              (validator.dfs set_iter frames graph) (dict_keys tasks)
              (fun x s => dfs_fewer_frames set_iter graph frames frames' x s Hle)
              ([], [])) as [E|E]; rewrite E.
  - apply same_or_overflow_refl.
  - now right.
Qed.

(** Whatever the number of frames, [_assert_dag] returns on acyclic
    graphs only, names a task on a cycle when it reports one, and runs out
    of frames only on a path through distinct tasks that has as many
    tasks as there are frames. *)
Lemma assert_dag_spec (set_iter : pyset -> list string) frames tasks edges :
  (forall s, Permutation (set_iter s) s) ->
  dict_wf tasks ->
  (forall e, In e edges -> In (ir.source e) (dict_keys tasks) /\
                           In (ir.target e) (dict_keys tasks)) ->
  assert_dag_post frames tasks edges
    (validator._assert_dag set_iter frames tasks edges).
Proof.
  intros Hperm Hwf Hends. unfold validator._assert_dag.
  destruct (empty_graph_spec tasks Hwf) as [Hk0 Hempty].
  destruct (graph_build_spec edges (validator.empty_graph tasks)) as [graph [Hrun [Hk Harcs]]].
  { intros e He. rewrite Hk0. now apply Hends. }
  rewrite Hrun. cbn [bind].
  assert (Hgk : dict_keys graph = dict_keys tasks) by congruence.
  assert (Hgarcs : forall u v,
            (exists succs, dict_get u graph = Some succs /\ In v succs) <-> arc edges u v).
  { intros u v. rewrite Harcs. split; [|auto].
    intros [[s [Hs Hv]]|H]; [|assumption].
    apply Hempty in Hs. subst s. destruct Hv. }
  assert (Hclosed : forall u v, arc edges u v -> In v (dict_keys graph)).
  { intros u v [e [He [_ Ht]]]. subst v. rewrite Hgk. now apply Hends. }
  pose proof (dfs_loop set_iter graph (arc edges) frames
                (dfs_spec set_iter Hperm graph (arc edges) Hgarcs Hclosed frames)
                (dict_keys tasks) [] []) as Hloop.
  match goal with
  | |- assert_dag_post _ _ _ (bind ?r _) =>
      assert (Hpost : dfs_post graph (arc edges) frames [] [] (dict_keys tasks) r);
      [ | destruct r as [[vi vd]|e|]; cbn [bind]; [| |exact Hpost] ]
  end.
  { apply Hloop.
    - rewrite Hgk. intros x Hx. exact Hx.
    - constructor; [apply NoDup_nil | intros x [] | intros x [] | intros x w [] | intros x []].
    - intros w x [].
    - intros x _. exact I. }
  2:{ destruct e as [|m| | | | | |]; try exact Hpost.
      destruct Hpost as [path [Hp1 [Hp2 Hp3]]]. exists path.
      simpl in Hp3. split; [exact Hp1|]. split; [exact Hp2 | lia]. }
  simpl in Hpost |- *.
  destruct Hpost as [_ [[_ _ _ _ Hacyc] [Hall _]]].
  intros v Hv. apply (Hacyc v); [|exact Hv].
  apply Hall. apply clos_trans_t1n in Hv.
  assert (Hout : exists w, arc edges v w) by (inversion Hv; eauto).
  destruct Hout as [w [e [He [Hs _]]]]. subst v. now apply Hends.
Qed.

(** ** The validator's loops *)

Lemma str_empty_true s : str_empty s = true <-> s = "".
Proof. apply String.eqb_eq. Qed.

Lemma str_empty_false s : str_empty s = false <-> s <> "".
Proof. apply String.eqb_neq. Qed.

Section ValidatorFacts.
Variable int_of_str : string -> option Z.
Variable repr : py_value -> string + repr_exn.

Lemma py_int_outcomes v :
  match py_int int_of_str v with
  | Ok _ | Raise TypeError | Raise ValueError | Raise OverflowError => True
  | _ => False
  end.
Proof.
  destruct v as [|b|z|f|s|l|d]; simpl; try exact I.
  - destruct f; simpl; exact I.
  - destruct (int_of_str s); exact I.
Qed.

Lemma int_field_cases resources key default name :
  let val := dict_get_default key (PyInt default) resources in
  match validator._int_field int_of_str repr resources key default name with
  | Ok z => py_int int_of_str val = Ok z
  | Raise (ValidationError m) =>
      not_integer int_of_str val /\ m = NotAnInteger name key val
  | Raise OverflowError => py_int int_of_str val = Raise OverflowError
  | Raise e =>
      not_integer int_of_str val /\ exists x, repr val = inr x /\ e = repr_error x
  | OutOfFuel => False
  end.
Proof.
  intros val. unfold validator._int_field. fold val.
  pose proof (py_int_outcomes val) as H. unfold not_integer.
  destruct (py_int int_of_str val) as [z|e|]; [reflexivity| |exact H].
  destruct e; try contradiction; try reflexivity;
    (destruct (repr val) as [text|x];
     [auto | destruct x; simpl; (split; [auto | eexists; split; reflexivity])]).
Qed.

Lemma check_task_cases t seen ir_tasks :
  check_task_post int_of_str repr t seen ir_tasks
    (validator.check_task int_of_str repr t (seen, ir_tasks)).
Proof.
  unfold check_task_post, validator.check_task.
  destruct (str_empty (strip (grammar.name t))) eqn:Hname.
  { apply str_empty_true in Hname. exists NameGiven. split; [exact Hname|].
    split; [reflexivity|]. intros c' Hlt. destruct c'; simpl in Hlt; lia. }
  apply str_empty_false in Hname.
  destruct (set_mem (grammar.name t) seen) eqn:Hseen.
  { apply set_mem_In in Hseen. exists NameFresh. split; [exact Hseen|].
    split; [reflexivity|]. intros c' Hlt.
    destruct c'; simpl in Hlt; try lia. exact Hname. }
  apply set_mem_not_In in Hseen.
  destruct (str_empty (strip (grammar.agent t))) eqn:Hagent.
  { apply str_empty_true in Hagent. exists AgentGiven. split; [exact Hagent|].
    split; [reflexivity|]. intros c' Hlt.
    destruct c'; simpl in Hlt; try lia; assumption. }
  apply str_empty_false in Hagent.
  pose proof (int_field_cases (grammar.resources t) "priority"
                validator.DEFAULT_PRIORITY (grammar.name t)) as Hp.
  cbv zeta in Hp. fold (priority_of t) in Hp.
  destruct (validator._int_field int_of_str repr (grammar.resources t) "priority" _ _)
    as [p|e|]; [| |exact Hp].
  2:{ destruct e; simpl in Hp |- *;
        try match type of Hp with
            | _ /\ (exists _, _) =>
                right; destruct Hp as [Hbad [x [Hr He]]]; exists x;
                split; [exact He | left; split; assumption]
            | _ = Raise OverflowError =>
                left; split; [reflexivity | left; exact Hp]
            end.
      destruct Hp as [Hbad Hm]. exists PriorityInt. split; [exact Hbad|].
      split; [exact Hm|]. intros c' Hlt.
      destruct c'; simpl in Hlt; try lia; assumption. }
  simpl.
  pose proof (int_field_cases (grammar.resources t) "timeout_ms"
                validator.DEFAULT_TIMEOUT_MS (grammar.name t)) as Hz.
  cbv zeta in Hz. fold (timeout_of t) in Hz.
  destruct (validator._int_field int_of_str repr (grammar.resources t) "timeout_ms" _ _)
    as [z|e|]; [| |exact Hz].
  2:{ destruct e; simpl in Hz |- *;
        try match type of Hz with
            | _ /\ (exists _, _) =>
                right; destruct Hz as [Hbad [x [Hr He]]]; exists x;
                split; [exact He | right; split; assumption]
            | _ = Raise OverflowError =>
                left; split; [reflexivity | right; exact Hz]
            end.
      destruct Hz as [Hbad Hm]. exists TimeoutInt. split; [exact Hbad|].
      split; [exact Hm|]. intros c' Hlt.
      destruct c'; simpl in Hlt; try lia; try assumption.
      unfold task_violated, not_integer, priority_of, resource in *.
      intros [H|H]; congruence. }
  simpl. destruct (Z.leb_spec z 0) as [Hle|Hgt].
  - exists TimeoutPositive. split; [exists z; auto|]. split; [reflexivity|].
    intros c' Hlt. destruct c'; simpl in Hlt; try lia; try assumption;
      unfold task_violated, not_integer, priority_of, timeout_of, resource in *;
      intros [H|H]; congruence.
  - split; [|split; [reflexivity | exists p, z; auto]].
    repeat split; try assumption. exists p, z. auto.
Qed.

Lemma check_edge_cases ir_tasks e ir_edges :
  check_edge_post ir_tasks e ir_edges (validator.check_edge ir_tasks e ir_edges).
Proof.
  unfold check_edge_post, validator.check_edge, dict_mem.
  destruct (dict_get (grammar.source e) ir_tasks) as [ts|] eqn:Hs; simpl.
  - assert (Hsk : In (grammar.source e) (dict_keys ir_tasks))
      by (apply dict_get_in_keys; eauto).
    destruct (dict_get (grammar.target e) ir_tasks) as [tt|] eqn:Ht; simpl.
    + repeat split; try assumption. apply dict_get_in_keys; eauto.
    + apply dict_get_not_in_keys in Ht. exists TargetKnown.
      split; [exact Ht|]. split; [reflexivity|].
      intros c' Hlt. destruct c'; simpl in Hlt; try lia. simpl. tauto.
  - apply dict_get_not_in_keys in Hs. exists SourceKnown.
    split; [exact Hs|]. split; [reflexivity|].
    intros c' Hlt. destruct c'; simpl in Hlt; lia.
Qed.

Lemma task_ok_not_violated seen t c :
  task_ok int_of_str seen t -> ~ task_violated int_of_str seen t c.
Proof.
  intros [Hn [Hf [Ha [p [z [Hp [Hz Hpos]]]]]]].
  destruct c; simpl; try assumption;
    unfold not_integer; try (intros [H|H]; congruence).
  intros [z' [Hz' Hle]]. assert (z' = z) by congruence. lia.
Qed.

Lemma task_ok_not_escapes seen t e :
  task_ok int_of_str seen t -> ~ escapes int_of_str repr e t.
Proof.
  intros [_ [_ [_ [p [z [Hp [Hz _]]]]]]]
         [[_ [H|H]]|[x [_ [[[H|H] _]|[[H|H] _]]]]];
    congruence.
Qed.

Lemma task_ok_not_overflows seen t : task_ok int_of_str seen t -> ~ overflows int_of_str t.
Proof.
  intros [_ [_ [_ [p [z [Hp [Hz _]]]]]]] [H|H]; congruence.
Qed.

Lemma dict_set_in {V} k v k0 (v0 : V) d :
  In (k, v) (dict_set k0 v0 d) -> (k = k0 /\ v = v0) \/ In (k, v) d.
Proof.
  induction d as [|[k1 v1] d IH]; simpl.
  - intros [H|[]]. inversion H. now left.
  - destruct (String.eqb_spec k1 k0); simpl.
    + intros [H|H]; [inversion H; subst; now left | right; now right].
    + intros [H|H]; [right; now left | destruct (IH H); [now left | right; now right]].
Qed.

Lemma tasks_loop_spec ts : forall pre ir_tasks,
  dict_keys ir_tasks = map grammar.name pre ->
  NoDup (map grammar.name pre) ->
  tasks_loop_post int_of_str repr pre ts ir_tasks
    (for_each (validator.check_task int_of_str repr) ts (map grammar.name pre, ir_tasks)).
Proof.
  induction ts as [|t ts IH]; intros pre ir_tasks Hkeys Hnd.
  - simpl. rewrite app_nil_r. repeat split; try assumption;
      try (destruct i; discriminate).
    intros k v H. now left.
  - cbn [for_each].
    match goal with
    | |- tasks_loop_post int_of_str repr _ _ _ (bind ?r _) =>
        pose proof (check_task_cases t (map grammar.name pre) ir_tasks
                    : check_task_post int_of_str repr _ _ _ r) as Ht;
        destruct r as [[seen1 irt1]|e|]; cbn [bind]; [| |exact Ht]
    end.
    + unfold check_task_post in Ht.
      destruct Ht as [Hok [Hseen [p [z [Hp [Hz [Hpos Hirt]]]]]]].
      assert (Hfresh : ~ In (grammar.name t) (map grammar.name pre))
        by (destruct Hok as [_ [H _]]; exact H).
      assert (Hseen1 : seen1 = map grammar.name (pre ++ [t])).
      { rewrite Hseen, set_add_fresh by assumption. now rewrite map_app. }
      clear Hseen.
      assert (Hkeys1 : dict_keys irt1 = map grammar.name (pre ++ [t])).
      { rewrite Hirt, dict_keys_set_fresh by (rewrite Hkeys; assumption).
        rewrite Hkeys. now rewrite map_app. }
      assert (Hnd1 : NoDup (map grammar.name (pre ++ [t]))).
      { rewrite map_app. simpl.
        apply (Permutation_NoDup (l := grammar.name t :: map grammar.name pre)).
        - apply Permutation_cons_append.
        - now constructor. }
      specialize (IH (pre ++ [t]) irt1 Hkeys1 Hnd1). subst seen1.
      assert (Hshift : forall i, (pre ++ [t]) ++ firstn i ts
                                 = pre ++ firstn (Datatypes.S i) (t :: ts)).
      { intros i. simpl. now rewrite <- app_assoc. }
      assert (Hshift0 : (pre ++ [t]) ++ ts = pre ++ t :: ts)
        by now rewrite <- app_assoc.
      match goal with
      | |- tasks_loop_post int_of_str repr _ _ _ ?r =>
          change (tasks_loop_post int_of_str repr (pre ++ [t]) ts irt1 r) in IH;
          destruct r as [[seen' irt']|e|]; unfold tasks_loop_post in IH |- *;
          [| |exact IH]
      end.
      * destruct IH as [Hk' [Hnd' [Hall Hentries]]]. rewrite Hshift0 in Hk', Hnd'.
        split; [assumption|]. split; [assumption|]. split.
        -- intros [|i] t' Hi; simpl in Hi.
           ++ injection Hi as <-. simpl. now rewrite app_nil_r.
           ++ rewrite <- Hshift. now apply Hall.
        -- intros k v Hkv. destruct (Hentries k v Hkv) as [Hin|[t' [p' [z' [Hin H]]]]].
           ++ rewrite Hirt in Hin. apply dict_set_in in Hin.
              destruct Hin as [[Hk Hv]|Hin]; [|now left].
              right. exists t, p, z. repeat split; auto. now left.
           ++ right. exists t', p', z'. split; [now right | assumption].
      * assert (Hlift : forall i,
                  (forall i' t', i' < i -> nth_error ts i' = Some t' ->
                     task_ok int_of_str (map grammar.name ((pre ++ [t]) ++ firstn i' ts)) t') ->
                  forall i' t', i' < Datatypes.S i -> nth_error (t :: ts) i' = Some t' ->
                     task_ok int_of_str (map grammar.name (pre ++ firstn i' (t :: ts))) t').
        { intros i Hbefore [|i'] t' Hlt Hi'; simpl in Hi'.
          - injection Hi' as <-. simpl. now rewrite app_nil_r.
          - rewrite <- Hshift. apply Hbefore; [lia | assumption]. }
        destruct e;
          try (destruct IH as [i [t' [Hi [Hesc Hbefore]]]];
               exists (Datatypes.S i), t';
               (split; [exact Hi|]); (split; [exact Hesc | now apply Hlift])).
        destruct IH as [i [t' [c [Hi [Hbefore [Hviol [Hm Hfirst]]]]]]].
        exists (Datatypes.S i), t', c. rewrite <- Hshift.
        split; [exact Hi|]. split; [now apply Hlift|]. auto.
    + assert (Hnone : forall i' t', i' < 0 -> nth_error (t :: ts) i' = Some t' ->
                task_ok int_of_str (map grammar.name (pre ++ firstn i' (t :: ts))) t')
        by (intros; lia).
      unfold check_task_post in Ht. unfold tasks_loop_post.
      destruct e;
        try (exists 0, t; (split; [reflexivity|]); (split; [exact Ht | exact Hnone])).
      destruct Ht as [c [Hviol [Hm Hfirst]]]. exists 0, t, c.
      simpl. rewrite app_nil_r. auto.
Qed.

Lemma edges_loop_spec ir_tasks es : forall ir_edges,
  edges_loop_post ir_tasks es ir_edges
    (for_each (validator.check_edge ir_tasks) es ir_edges).
Proof.
  induction es as [|e es IH]; intros ir_edges.
  - simpl. rewrite app_nil_r. split; [reflexivity | intros e []].
  - cbn [for_each]. pose proof (check_edge_cases ir_tasks e ir_edges) as He.
    unfold check_edge_post in He.
    destruct (validator.check_edge ir_tasks e ir_edges) as [acc|x|]; cbn [bind];
      [| |exact He].
    + destruct He as [Hacc [Hs Ht]]. specialize (IH acc).
      unfold edges_loop_post in IH |- *.
      destruct (for_each (validator.check_edge ir_tasks) es acc) as [acc'|x|];
        [| |exact IH].
      * destruct IH as [Hacc' Hall]. split.
        -- rewrite Hacc', Hacc, <- app_assoc. reflexivity.
        -- intros e' [E|Hin]; [subst; auto | auto].
      * destruct x; try exact IH.
        destruct IH as [j [e' [c [Hj [Hbefore H]]]]].
        exists (Datatypes.S j), e', c. split; [exact Hj|]. split; [|exact H].
        intros [|j'] e'' Hlt Hj'; simpl in Hj'.
        -- injection Hj' as <-. auto.
        -- apply (Hbefore j'); [lia | assumption].
    + unfold edges_loop_post. destruct x; try exact He.
      destruct He as [c H]. exists 0, e, c. split; [reflexivity|]. split; [|exact H].
      intros; lia.
Qed.
End ValidatorFacts.

(** ** The validator as a whole *)

Section ValidateCases.
Variable int_of_str : string -> option Z.
Variable repr : py_value -> string + repr_exn.
Variable set_iter : pyset -> list string.
Variable recursion_limit : nat.
Hypothesis set_iter_perm : forall s, Permutation (set_iter s) s.

(** No rule that comes before the reported one is broken. *)
Ltac no_earlier :=
  let r' := fresh "r'" in
  let Hprec := fresh "Hprec" in
  let Hviol := fresh "Hviol" in
  intros r' Hprec Hviol; unfold precedes in Hprec;
  destruct r' as [| | |i' c'|j' c'| |]; simpl in Hprec, Hviol; try lia;
  try contradiction;
  try (destruct Hviol as [t' [Hn' Hv']];
       match goal with
       | H : forall i t, nth_error _ i = Some t -> task_ok _ _ t |- _ =>
           exact (task_ok_not_violated _ _ _ _ (H _ _ Hn') Hv')
       | H : forall i t, _ < _ -> nth_error _ i = Some t -> task_ok _ _ t |- _ =>
           refine (task_ok_not_violated _ _ _ _ (H _ _ _ Hn') Hv'); lia
       | H : forall j e, _ < _ -> nth_error _ j = Some e -> _ /\ _ |- _ =>
           assert (Hk' : In (grammar.source t') _ /\ In (grammar.target t') _)
             by (apply (H j'); [lia | exact Hn']);
           destruct c'; simpl in Hv'; tauto
       | H : forall e, In e _ -> _ /\ _ |- _ =>
           pose proof (H _ (nth_error_In _ _ Hn')) as Hk';
           destruct c'; simpl in Hv'; tauto
       end).

Lemma validate_cases doc :
  validate_post int_of_str repr recursion_limit doc
    (validator.validate_and_normalize int_of_str repr set_iter recursion_limit doc).
Proof.
  unfold validator.validate_and_normalize.
  destruct (str_empty (strip (grammar.id doc))) eqn:Hid.
  { apply str_empty_true in Hid. exists IdGiven.
    split; [exact Hid|]. split; [reflexivity|]. no_earlier. }
  apply str_empty_false in Hid.
  destruct (str_empty (strip (grammar.tenant doc))) eqn:Hten.
  { apply str_empty_true in Hten. exists TenantGiven.
    split; [exact Hten|]. split; [reflexivity|]. no_earlier. }
  apply str_empty_false in Hten.
  destruct (grammar.tasks doc) as [|t0 ts0] eqn:Htasks.
  { exists SomeTask. split; [exact Htasks|]. split; [reflexivity|]. no_earlier. }
  rewrite <- Htasks.
  assert (Hsome : grammar.tasks doc <> []) by (rewrite Htasks; discriminate).
  clear t0 ts0 Htasks.
  pose proof (tasks_loop_spec int_of_str repr (grammar.tasks doc) [] [] eq_refl (NoDup_nil _))
    as Hloop.
  match goal with
  | |- validate_post _ _ _ _ (bind ?r _) =>
      change (tasks_loop_post int_of_str repr [] (grammar.tasks doc) [] r) in Hloop;
      destruct r as [[seen ir_tasks]|e|]; unfold tasks_loop_post in Hloop;
      cbn [bind app] in Hloop |- *; [| |exact Hloop]
  end.
  2:{ destruct e;
        try (right; destruct Hloop as [i [t [Hi [Hesc _]]]]; exists i, t;
             split; assumption).
      destruct Hloop as [i [t [c [Hi [Hbefore [Hviol [Hm Hfirst]]]]]]].
        rewrite <- firstn_map in Hviol, Hfirst.
        assert (Hb : forall i' t', i' < i -> nth_error (grammar.tasks doc) i' = Some t' ->
                  task_ok int_of_str (firstn i' (task_names doc)) t').
        { intros i' t' Hlt Hn. unfold task_names. rewrite firstn_map. now apply Hbefore. }
        clear Hbefore.
        exists (TaskRule i c). split; [exists t; auto|]. split; [exists t; auto|].
        intros r' Hprec Hv. unfold precedes in Hprec.
        destruct r' as [| | |i' c'|j' c'| |]; simpl in Hprec, Hv; try lia;
          try contradiction.
        destruct Hv as [t' [Hn' Hv']].
        destruct (Nat.eq_dec i' i) as [E|E].
        + subst i'. assert (t' = t) by congruence. subst t'.
          apply (Hfirst c'); [lia | exact Hv'].
        + refine (task_ok_not_violated _ _ _ _ (Hb i' t' _ Hn') Hv'). lia. }
  destruct Hloop as [Hkeys [Hnd [Hall Hentries]]].
  assert (Hok : forall i t, nth_error (grammar.tasks doc) i = Some t ->
            task_ok int_of_str (firstn i (task_names doc)) t).
  { intros i t Hn. unfold task_names. rewrite firstn_map. now apply Hall. }
  clear Hall. fold (task_names doc) in Hkeys, Hnd.
  pose proof (edges_loop_spec ir_tasks (grammar.edges doc) []) as Hedges.
  match goal with
  | |- validate_post _ _ _ _ (bind ?r _) =>
      change (edges_loop_post ir_tasks (grammar.edges doc) [] r) in Hedges;
      destruct r as [ir_edges|e|]; unfold edges_loop_post in Hedges;
      cbn [bind app] in Hedges |- *; [| |exact Hedges]
  end.
  2:{ destruct e; try contradiction.
      destruct Hedges as [j [e [c [Hj [Hbefore [Hviol [Hm Hfirst]]]]]]].
      rewrite Hkeys in Hbefore, Hviol, Hfirst.
      exists (EdgeRule j c). split; [exists e; auto|]. split; [exists e; auto|].
      intros r' Hprec Hv. unfold precedes in Hprec.
      destruct r' as [| | |i' c'|j' c'| |]; simpl in Hprec, Hv; try lia;
        try contradiction.
      - destruct Hv as [t' [Hn' Hv']].
        exact (task_ok_not_violated _ _ _ _ (Hok _ _ Hn') Hv').
      - destruct Hv as [e' [Hn' Hv']].
        destruct (Nat.eq_dec j' j) as [E|E].
        + subst j'. assert (e' = e) by congruence. subst e'.
          apply (Hfirst c'); [lia | exact Hv'].
        + assert (Hk' : In (grammar.source e') (task_names doc) /\
                        In (grammar.target e') (task_names doc))
            by (apply (Hbefore j'); [lia | exact Hn']).
          destruct c'; simpl in Hv'; tauto. }
  destruct Hedges as [Hir_edges Hknown]. rewrite Hkeys in Hknown.
  fold (doc_edges doc) in Hir_edges. subst ir_edges.
  destruct (set_mem (grammar.risk_level (grammar.policy doc)) validator.VALID_RISK_LEVELS)
    eqn:Hrisk; cbn [negb].
  2:{ apply set_mem_not_In in Hrisk. exists RiskLevelValid.
      split; [exact Hrisk|]. split; [reflexivity|]. no_earlier. }
  apply set_mem_In in Hrisk.
  assert (Hends : forall e, In e (doc_edges doc) ->
            In (ir.source e) (dict_keys ir_tasks) /\ In (ir.target e) (dict_keys ir_tasks)).
  { intros e He. apply in_map_iff in He. destruct He as [e0 [E He0]]. subst e.
    rewrite Hkeys. simpl. now apply Hknown. }
  pose proof (assert_dag_spec set_iter recursion_limit ir_tasks (doc_edges doc)
                set_iter_perm (eq_ind_r (fun l => NoDup l) Hnd Hkeys) Hends) as Hdag.
  assert (Hpass : passes_structural int_of_str doc)
    by (unfold passes_structural; auto 10).
  destruct (validator._assert_dag set_iter recursion_limit ir_tasks (doc_edges doc))
    as [u|e|]; cbn [bind]; [| |exact Hdag].
  2:{ destruct e; try contradiction.
      - destruct m; try contradiction.
        exists Acyclic. split; [exists name; exact Hdag|].
        split; [exists name; auto|]. no_earlier.
      - left. split; [reflexivity|]. split; [exact Hpass | exact Hdag]. }
  simpl. split.
  { exact Hpass. }
  split; [exact Hdag|]. repeat split; try assumption.
  intros k v Hkv. destruct (Hentries k v Hkv) as [[]|H]. exact H.
Qed.

Lemma passes_not_violated doc r :
  passes_structural int_of_str doc -> r <> Acyclic -> ~ violated int_of_str doc r.
Proof.
  intros [Hid [Hten [Hsome [Htasks [Hedges Hrisk]]]]] Hr Hv.
  destruct r as [| | |i c|j c| |]; simpl in Hv; try contradiction.
  - destruct Hv as [t [Hn Hv]].
    exact (task_ok_not_violated _ _ _ _ (Htasks _ _ Hn) Hv).
  - destruct Hv as [e [Hn Hv]].
    pose proof (Hedges _ (nth_error_In _ _ Hn)). destruct c; simpl in Hv; tauto.
Qed.

(** A document that passes the structural rules reaches cycle
    detection, which alone decides the outcome. *)
Lemma validate_structural doc :
  passes_structural int_of_str doc ->
  (acyclic (doc_edges doc) /\
   exists flow, validator.validate_and_normalize int_of_str repr set_iter
                  recursion_limit doc = Ok flow) \/
  (exists n, validator.validate_and_normalize int_of_str repr set_iter
               recursion_limit doc
             = Raise (ValidationError (CycleAt n)) /\
             on_cycle (doc_edges doc) n) \/
  (validator.validate_and_normalize int_of_str repr set_iter recursion_limit doc
   = Raise RecursionError /\
   deep (doc_edges doc) recursion_limit).
Proof.
  intros Hpass. pose proof (validate_cases doc) as H.
  destruct (validator.validate_and_normalize int_of_str repr set_iter
              recursion_limit doc) as [flow|e|];
    simpl in H; [| |contradiction].
  - left. split; [tauto | eauto].
  - assert (Hstay : forall i t, nth_error (grammar.tasks doc) i = Some t ->
              ~ escapes int_of_str repr e t).
    { intros i t Hn. destruct Hpass as [_ [_ [_ [Htasks _]]]].
      exact (task_ok_not_escapes _ _ _ _ _ (Htasks _ _ Hn)). }
    destruct e;
      try (exfalso; destruct H as [[E _]|[i [t [Hn Hesc]]]];
           [discriminate | exact (Hstay i t Hn Hesc)]).
    + destruct H as [r [Hv [Hrep _]]].
      destruct r; try (exfalso; revert Hv; apply passes_not_violated;
                       [assumption | discriminate]).
      destruct Hrep as [n [-> Hn]]. right. left. eauto.
    + right. right. split; [reflexivity|].
      destruct H as [[_ [_ Hdeep]]|[i [t [Hn Hesc]]]]; [exact Hdeep|].
      exfalso. exact (Hstay i t Hn Hesc).
Qed.

(** Every flow the validator returns satisfies the invariants. *)
Lemma validated_flow_valid doc flow :
  validator.validate_and_normalize int_of_str repr set_iter recursion_limit doc = Ok flow ->
  valid_IRFlow flow.
Proof.
  intros Hrun. pose proof (validate_cases doc) as H. rewrite Hrun in H. simpl in H.
  destruct H as [[Hid [Hten [Hsome [Htasks [Hedges Hrisk]]]]]
                   [Hacyc [Eid [Eten [Eedges [Erisk [Ekeys [Hnd Hentries]]]]]]]].
  assert (Htask : forall t, In t (grammar.tasks doc) ->
            nonblank (grammar.name t) /\ nonblank (grammar.agent t)).
  { intros t Ht. apply In_nth_error in Ht. destruct Ht as [i Hi].
    destruct (Htasks i t Hi) as [Hn [_ [Ha _]]]. auto. }
  constructor.
  - now rewrite Eid.
  - now rewrite Eten.
  - intros E. apply Hsome. apply (f_equal (@dict_keys ir.IRTask)) in E.
    rewrite Ekeys in E. unfold task_names in E.
    destruct (grammar.tasks doc); [reflexivity | discriminate].
  - unfold dict_wf. now rewrite Ekeys.
  - intros k v Hkv. destruct (Hentries k v Hkv) as [t [p [z [Ht [-> [-> _]]]]]].
    split; [reflexivity | now apply Htask].
  - intros k v Hkv. destruct (Hentries k v Hkv) as [t [p [z [Ht [_ [-> _]]]]]].
    simpl. now apply Htask.
  - intros e He. rewrite Eedges in He. apply in_map_iff in He.
    destruct He as [e0 [<- He0]]. rewrite Ekeys. simpl. now apply Hedges.
  - now rewrite Eedges.
  - intros k v Hkv. destruct (Hentries k v Hkv) as [t [p [z [Ht [_ [-> Hz]]]]]].
    exact Hz.
  - now rewrite Erisk.
Qed.
End ValidateCases.

Lemma insertion_order_perm s : Permutation (insertion_order s) s.
Proof. apply Permutation_refl. Qed.

Ltac sample_task_ok :=
  unfold task_ok, nonblank, priority_of, timeout_of, resource; simpl;
  repeat split;
  [ vm_compute; discriminate
  | intuition discriminate
  | vm_compute; discriminate
  | eexists; eexists; repeat split; reflexivity ].

Ltac sample_passes :=
  unfold passes_structural, nonblank; simpl;
  split; [vm_compute; discriminate|];
  split; [vm_compute; discriminate|];
  split; [discriminate|];
  split;
  [ intros i t Hn;
    repeat (destruct i as [|i]; simpl in Hn;
            [injection Hn as <-; sample_task_ok|]);
    destruct i; discriminate
  | split;
    [ intros e He; simpl in He;
      repeat (destruct He as [<-|He]; [simpl; tauto|]); destruct He
    | simpl; tauto ] ].

Lemma two_cycle_doc_passes : passes_structural decimal_int two_cycle_doc.
Proof. sample_passes. Qed.

Lemma loops_doc_passes : passes_structural decimal_int loops_doc.
Proof. sample_passes. Qed.

Lemma self_loop_doc_passes : passes_structural decimal_int self_loop_doc.
Proof. sample_passes. Qed.

Lemma chain_last R path : forall x y,
  chain R (x :: path ++ [y]) -> clos_trans string R x y.
Proof.
  induction path as [|z path IH]; intros x y H; simpl in H.
  - apply t_step. tauto.
  - destruct H as [Hxz H]. apply t_trans with z; [now apply t_step | now apply IH].
Qed.

Lemma cycle_on_cycle edges v c : cycle edges (v :: c) -> on_cycle edges v.
Proof.
  unfold cycle, on_cycle. simpl. apply chain_last.
Qed.

Lemma self_loop_on_cycle edges e :
  In e edges -> ir.source e = ir.target e -> on_cycle edges (ir.source e).
Proof.
  intros He Hs. apply t_step. exists e. auto.
Qed.

(** ** C3: an infinite float escapes the validator's error handling *)

(** C3 (the part that holds).  Every IRFlow the validator returns
    satisfies all structural invariants: [validated_flow_valid].

    C3 (the part the code breaks).  The document [infinite_timeout_doc]
    has a risk level outside the four recognised values, so no valid
    IRFlow exists for it; validation produces no IRFlow but fails with
    [OverflowError], not [ValidationError]: [_int_field] converts only the
    [TypeError] and [ValueError] of [int] and lets the [OverflowError] of
    an infinite float through. *)
Theorem overflow_escapes_validation :
  validator.validate_and_normalize decimal_int sample_repr insertion_order
    default_limit infinite_timeout_doc
  = Raise OverflowError /\
  violated decimal_int infinite_timeout_doc RiskLevelValid /\
  forall flow, validator.validate_and_normalize decimal_int sample_repr
                 insertion_order default_limit infinite_timeout_doc <> Ok flow.
Proof.
  split; [reflexivity|]. split.
  - simpl. intuition discriminate.
  - intros flow H. discriminate.
Qed.

(** ** C4: a cycle behind a long chain ends in RecursionError *)

Lemma sample_repr_raises v x : sample_repr v = inr x -> x = ReprValueError.
Proof.
  unfold sample_repr. destruct (holds_long_int v); congruence.
Qed.

(** Validation with fewer frames does the same, or runs out of them. *)
Lemma validate_fewer_frames int_of_str repr set_iter frames' frames doc :
  frames' <= frames ->
  same_or_overflow
    (validator.validate_and_normalize int_of_str repr set_iter frames' doc)
    (validator.validate_and_normalize int_of_str repr set_iter frames doc).
Proof.
  intros Hle. unfold validator.validate_and_normalize.
  destruct (str_empty (strip (grammar.id doc))); [apply same_or_overflow_refl|].
  destruct (str_empty (strip (grammar.tenant doc))); [apply same_or_overflow_refl|].
  destruct (match grammar.tasks doc with [] => true | _ => false end);
    [apply same_or_overflow_refl|].
  match goal with
  | |- same_or_overflow (bind ?r _) _ =>
      destruct r as [[seen ir_tasks]|e|]; cbn [bind];
      [|apply same_or_overflow_refl|apply same_or_overflow_refl]
  end.
  destruct (for_each (validator.check_edge ir_tasks) (grammar.edges doc) [])
    as [ir_edges|e|]; cbn [bind];
    [|apply same_or_overflow_refl|apply same_or_overflow_refl].
  destruct (negb (set_mem (grammar.risk_level (grammar.policy doc))
                    validator.VALID_RISK_LEVELS)); [apply same_or_overflow_refl|].
  destruct (assert_dag_fewer_frames set_iter frames' frames ir_tasks ir_edges Hle)
    as [E|E]; rewrite E.
  - apply same_or_overflow_refl.
  - now right.
Qed.

(** C4 holds of the traversal as an algorithm, and fails of the code: the
    nested [dfs] calls itself once per task of a path, so on a path longer
    than the interpreter's recursion limit allows the call raises
    [RecursionError] before the cycle is met.  The document
    [deep_cycle_doc 1200] passes all earlier rules and has the cycle
    t1198 -> t1199 -> t1198 at the end of the chain t0 -> ... -> t1199;
    under the default limit of 1000, and under any smaller number of
    frames, validation fails with [RecursionError], not with the cycle
    [ValidationError]. *)
Theorem deep_cycle_overflows frames :
  frames <= default_limit ->
  validator.validate_and_normalize decimal_int sample_repr insertion_order
    frames (deep_cycle_doc 1200)
  = Raise RecursionError /\
  passes_structural decimal_int (deep_cycle_doc 1200) /\
  cycle (doc_edges (deep_cycle_doc 1200)) ["t1198"; "t1199"].
Proof.
  intros Hle.
  assert (Hrun : validator.validate_and_normalize decimal_int sample_repr
                   insertion_order default_limit (deep_cycle_doc 1200)
                 = Raise RecursionError) by (vm_compute; reflexivity).
  split; [|split].
  - destruct (validate_fewer_frames decimal_int sample_repr insertion_order
                frames default_limit (deep_cycle_doc 1200) Hle) as [E|E];
      rewrite E; [exact Hrun | reflexivity].
  - pose proof (validate_cases decimal_int sample_repr insertion_order default_limit
                  insertion_order_perm (deep_cycle_doc 1200)) as Hpost.
    rewrite Hrun in Hpost.
    destruct Hpost as [[_ [Hpass _]]|[i [t [_ [[E _]|[x [E Hx]]]]]]];
      [exact Hpass | discriminate |].
    exfalso. destruct Hx as [[_ Hx]|[_ Hx]];
      apply sample_repr_raises in Hx; subst x; discriminate.
  - assert (Harc : forall i e, nth_error (doc_edges (deep_cycle_doc 1200)) i = Some e ->
              arc (doc_edges (deep_cycle_doc 1200)) (ir.source e) (ir.target e)).
    { intros i e Hi. exists e. split; [exact (nth_error_In _ _ Hi) | auto]. }
    simpl. split; [|split; [|exact I]].
    + apply (Harc 1198 (validator.ir_edge (sample_edge "t1198" "t1199"))).
      vm_compute. reflexivity.
    + apply (Harc 1199 (validator.ir_edge (sample_edge "t1199" "t1198"))).
      vm_compute. reflexivity.
Qed.

Lemma deep_cycle_overflows_witness :
  validator.validate_and_normalize decimal_int sample_repr insertion_order
    default_limit (deep_cycle_doc 1200)
  = Raise RecursionError /\
  passes_structural decimal_int (deep_cycle_doc 1200) /\
  cycle (doc_edges (deep_cycle_doc 1200)) ["t1198"; "t1199"].
Proof.
  apply (deep_cycle_overflows default_limit). apply le_n.
Defined.

(** ** C10: self-loops are rejected, naming a task on a cycle *)

(** C10, as stated, fails: in [loops_doc] the task t3 has a self-loop, the
    document passes all earlier rules, and the error names t1, a task of
    the two-task cycle that the traversal meets first. *)
Lemma self_loop_counterexample :
  passes_structural decimal_int loops_doc /\
  In (sample_edge "t3" "t3") (grammar.edges loops_doc) /\
  grammar.source (sample_edge "t3" "t3") = grammar.target (sample_edge "t3" "t3") /\
  validator.validate_and_normalize decimal_int sample_repr insertion_order default_limit loops_doc
  = Raise (ValidationError (CycleAt "t1")) /\
  validator.validate_and_normalize decimal_int sample_repr insertion_order default_limit loops_doc
  <> Raise (ValidationError (CycleAt (grammar.source (sample_edge "t3" "t3")))).
Proof.
  split; [exact loops_doc_passes|]. split; [simpl; tauto|].
  split; [reflexivity|]. split; [reflexivity|]. discriminate.
Qed.

(** C10 (amended).  For every document that passes all earlier validation
    rules, contains an edge whose source equals its target, and in whose
    graph every path through distinct tasks has fewer tasks than the
    recursion limit leaves room for nested calls of the traversal,
    validation fails with the cycle [ValidationError], naming a task that
    lies on a cycle; it names the task of the self-loop whenever that is
    the only task on a cycle. *)
Theorem self_loop_rejected int_of_str repr set_iter recursion_limit doc e :
  (forall s, Permutation (set_iter s) s) ->
  shallow (doc_edges doc) recursion_limit ->
  passes_structural int_of_str doc ->
  In e (grammar.edges doc) ->
  grammar.source e = grammar.target e ->
  exists n,
    validator.validate_and_normalize int_of_str repr set_iter recursion_limit doc
    = Raise (ValidationError (CycleAt n)) /\
    on_cycle (doc_edges doc) n /\
    ((forall v, on_cycle (doc_edges doc) v -> v = grammar.source e) ->
     n = grammar.source e).
Proof.
  intros Hperm Hroom Hpass He Hloop.
  destruct (validate_structural int_of_str repr set_iter recursion_limit Hperm doc Hpass)
    as [[Hacyclic _]|[[n [Hrun Hn]]|[_ Hfull]]].
  - exfalso. apply (Hacyclic (grammar.source e)).
    apply (self_loop_on_cycle (doc_edges doc) (validator.ir_edge e)).
    + unfold doc_edges. now apply in_map.
    + exact Hloop.
  - exists n. split; [assumption|]. split; [assumption|]. intros Honly. now apply Honly.
  - exfalso. exact (shallow_not_deep _ _ Hroom Hfull).
Qed.

Lemma self_loop_rejected_witness :
  exists n,
    validator.validate_and_normalize decimal_int sample_repr insertion_order default_limit self_loop_doc
    = Raise (ValidationError (CycleAt n)) /\
    on_cycle (doc_edges self_loop_doc) n /\
    ((forall v, on_cycle (doc_edges self_loop_doc) v
                -> v = grammar.source (sample_edge "t1" "t1")) ->
     n = grammar.source (sample_edge "t1" "t1")).
Proof.
  apply (self_loop_rejected decimal_int sample_repr insertion_order default_limit
           self_loop_doc (sample_edge "t1" "t1")).
  - exact insertion_order_perm.
  - apply (shallow_by_count _ (task_names self_loop_doc));
      [|unfold default_limit; simpl; lia..].
    intros x [<-|[]]. simpl. tauto.
  - exact self_loop_doc_passes.
  - simpl. tauto.
  - reflexivity.
Defined.

(** ** C5: the first broken rule is the one reported *)

(** C5, as stated, fails: [zero_timeout_doc] breaks the timeout check of
    its task and the risk-level rule.  Of the rules the claim lists, the
    risk-level rule is the first one broken, yet the error raised is the
    timeout one, which is the report of no listed rule. *)
Lemma listed_order_counterexample :
  validator.validate_and_normalize decimal_int sample_repr insertion_order default_limit zero_timeout_doc
  = Raise (ValidationError (TimeoutNotPositive "t1")) /\
  violated decimal_int zero_timeout_doc RiskLevelValid /\
  (forall r, listed r -> precedes r RiskLevelValid ->
             ~ violated decimal_int zero_timeout_doc r) /\
  (forall r, listed r -> ~ reports zero_timeout_doc r (TimeoutNotPositive "t1")).
Proof.
  split; [reflexivity|]. split; [simpl; intuition discriminate|]. split.
  - intros r Hl Hp Hv. unfold precedes in Hp.
    destruct r as [| | |i c|j c| |]; simpl in Hp, Hv; try lia.
    + revert Hv. vm_compute. discriminate.
    + revert Hv. vm_compute. discriminate.
    + discriminate.
    + destruct Hv as [t [Hn Hv]].
      destruct i as [|i]; [|destruct i; discriminate].
      injection Hn as <-. destruct c; simpl in Hl, Hv; try contradiction.
      * revert Hv. vm_compute. discriminate.
      * revert Hv. vm_compute. discriminate.
    + destruct Hv as [e [Hn _]]. destruct j; discriminate.
  - intros r Hl Hr. destruct r as [| | |i c|j c| |]; simpl in Hr; try discriminate.
    + destruct Hr as [t [_ Hm]]. destruct c; simpl in Hl, Hm; try discriminate;
        contradiction.
    + destruct Hr as [e [_ Hm]]. destruct c; discriminate.
    + destruct Hr as [n [Hm _]]. discriminate.
Qed.

(** C5 (amended).  Validation is fail-fast and reports exactly the first
    broken rule in the fixed priority order: empty id, empty tenant, empty
    task list, then per task in declaration order (empty name, duplicate
    name, empty agent, non-integer priority, non-integer timeout_ms,
    timeout_ms not positive), then per edge in declaration order (unknown
    source, unknown target), then invalid risk_level, then cycle detection
    last.  It returns a flow only if no rule is broken, and raises the
    [ValidationError] of the first broken rule otherwise.  This is so for
    every document whose priority and timeout_ms resources are neither an
    infinite float nor a non-integer without a [repr], and in whose graph
    every path through distinct tasks has fewer tasks than the recursion
    limit leaves room for nested calls of the traversal. *)
Theorem first_violation_reported int_of_str repr set_iter recursion_limit doc :
  (forall s, Permutation (set_iter s) s) ->
  (forall t, In t (grammar.tasks doc) ->
             ~ overflows int_of_str t /\ ~ unprintable int_of_str repr t) ->
  shallow (doc_edges doc) recursion_limit ->
  match validator.validate_and_normalize int_of_str repr set_iter recursion_limit doc with
  | Ok _ => forall r, ~ violated int_of_str doc r
  | Raise (ValidationError m) =>
      exists r, violated int_of_str doc r /\ reports doc r m /\
                forall r', precedes r' r -> ~ violated int_of_str doc r'
  | _ => False
  end.
Proof.
  intros Hperm Hplain Hroom.
  pose proof (validate_cases int_of_str repr set_iter recursion_limit Hperm doc) as H.
  destruct (validator.validate_and_normalize int_of_str repr set_iter
              recursion_limit doc) as [flow|e|];
    simpl in H; [| |exact H].
  - destruct H as [Hpass [Hacyclic _]]. intros r.
    destruct r; try (apply passes_not_violated; [assumption | discriminate]).
    intros [v Hv]. exact (Hacyclic v Hv).
  - assert (Hstay : forall i t, nth_error (grammar.tasks doc) i = Some t ->
              ~ escapes int_of_str repr e t).
    { intros i t Hn [[_ Hov]|[x [_ Hx]]];
        destruct (Hplain t (nth_error_In _ _ Hn)) as [Hno Hnu];
        [exact (Hno Hov) | apply Hnu; now exists x]. }
    destruct e;
      try (destruct H as [[_ [_ Hfull]]|[i [t [Hn Hesc]]]];
           [exact (shallow_not_deep _ _ Hroom Hfull) | exact (Hstay i t Hn Hesc)]).
    exact H.
Qed.

Lemma first_violation_reported_witness :
  match validator.validate_and_normalize decimal_int sample_repr insertion_order
          default_limit zero_timeout_doc with
  | Ok _ => forall r, ~ violated decimal_int zero_timeout_doc r
  | Raise (ValidationError m) =>
      exists r, violated decimal_int zero_timeout_doc r /\
                reports zero_timeout_doc r m /\
                forall r', precedes r' r -> ~ violated decimal_int zero_timeout_doc r'
  | _ => False
  end.
Proof.
  apply (first_violation_reported decimal_int sample_repr insertion_order
           default_limit zero_timeout_doc).
  - exact insertion_order_perm.
  - intros t [<-|[]]. split.
    + unfold overflows. vm_compute. intuition discriminate.
    + intros [x [[_ Hx]|[_ Hx]]]; vm_compute in Hx; discriminate.
  - apply (shallow_by_count _ (task_names zero_timeout_doc));
      [|unfold default_limit; simpl; lia..].
    intros x [].
Defined.

(** ** The two projections *)

Lemma dict_update_get_out {V} k (extra : dict V) : forall base,
  dict_get k extra = None -> dict_get k (dict_update base extra) = dict_get k base.
Proof.
  unfold dict_update. induction extra as [|[k0 v0] extra IH]; intros base H; simpl in *.
  - reflexivity.
  - destruct (String.eqb_spec k0 k) as [E|E]; [discriminate|].
    rewrite IH by assumption. now apply dict_get_set_neq.
Qed.

Lemma dict_update_get_in {V} k (v : V) (extra : dict V) : forall base,
  dict_wf extra -> dict_get k extra = Some v ->
  dict_get k (dict_update base extra) = Some v.
Proof.
  induction extra as [|[k0 v0] extra IH]; intros base Hwf H; simpl in *.
  - discriminate.
  - inversion Hwf as [|? ? Hfresh Hwf']; subst.
    destruct (String.eqb_spec k0 k) as [E|E].
    + injection H as ->. subst k0.
      change (dict_get k (dict_update (dict_set k v base) extra) = Some v).
      rewrite dict_update_get_out; [apply dict_get_set_eq|].
      now apply dict_get_not_in_keys.
    + now apply IH.
Qed.

Lemma in_snd_of_get {V} k (v : V) d : dict_get k d = Some v -> In v (map snd d).
Proof.
  intros H. apply dict_get_in in H. change v with (snd (k, v)). now apply in_map.
Qed.

(** Both projections map the one topological order, task by task. *)
Lemma monolith_payloads_spec flow order : forall payloads,
  compiler.monolith_payloads flow order = Ok payloads ->
  Forall2 (fun name payload =>
             exists t, dict_get name (ir.tasks flow) = Some t /\
                       payload = compiler.monolith_payload flow t)
          order payloads.
Proof.
  induction order as [|name order IH]; intros payloads H; simpl in H.
  - injection H as <-. constructor.
  - unfold dict_item in H. destruct (dict_get name (ir.tasks flow)) as [t|] eqn:Ht;
      simpl in H; [|discriminate].
    destruct (compiler.monolith_payloads flow order) as [rest| |]; simpl in H;
      try discriminate.
    injection H as <-. constructor; [eauto | now apply IH].
Qed.

Lemma waterfall_tasks_spec flow order : forall tasks,
  compiler.waterfall_tasks flow order = Ok tasks ->
  Forall2 (fun name task =>
             exists t, dict_get name (ir.tasks flow) = Some t /\
                       task = compiler.waterfall_task t)
          order tasks.
Proof.
  induction order as [|name order IH]; intros tasks H; simpl in H.
  - injection H as <-. constructor.
  - unfold dict_item in H. destruct (dict_get name (ir.tasks flow)) as [t|] eqn:Ht;
      simpl in H; [|discriminate].
    destruct (compiler.waterfall_tasks flow order) as [rest| |]; simpl in H;
      try discriminate.
    injection H as <-. constructor; [eauto | now apply IH].
Qed.

(** Neither projection fails on names that are tasks of the flow. *)
Lemma projections_total flow order :
  incl order (dict_keys (ir.tasks flow)) ->
  (exists payloads, compiler.monolith_payloads flow order = Ok payloads) /\
  (exists tasks, compiler.waterfall_tasks flow order = Ok tasks).
Proof.
  induction order as [|name order IH]; intros Hincl; simpl.
  - eauto.
  - destruct IH as [[ps Hps] [ts Hts]].
    { intros x Hx. apply Hincl. now right. }
    destruct (proj1 (dict_get_in_keys name (ir.tasks flow)) (Hincl name (or_introl eq_refl)))
      as [t Ht].
    unfold dict_item. rewrite Ht, Hps, Hts. simpl. eauto.
Qed.

(** ** C9: a task's own labels take precedence *)

(** C9.  In the task-payload projection, when a task's own labels mapping
    contains one of the keys flow_id, task_name or agent, meta.labels of
    the payload emitted for that task carries the task's own value for that
    key, not the derived one. *)
Theorem own_labels_override flow payloads :
  compiler.ir_to_monolith_tasks flow = Ok payloads ->
  Forall (fun payload =>
            exists t, In t (map snd (ir.tasks flow)) /\
                      payload = compiler.monolith_payload flow t /\
                      forall k v, In k derived_labels -> dict_wf (ir.labels t) ->
                                  dict_get k (ir.labels t) = Some v ->
                                  payload_label k payload = Some v)
         payloads.
Proof.
  unfold compiler.ir_to_monolith_tasks. intros H.
  destruct (compiler._topological_order flow) as [order| |]; simpl in H; try discriminate.
  apply monolith_payloads_spec in H.
  induction H as [|name payload order payloads [t [Ht ->]] _ IH]; constructor; [|exact IH].
  exists t. split; [now apply in_snd_of_get with name|]. split; [reflexivity|].
  intros k v _ Hwf Hk. unfold payload_label. simpl.
  now apply dict_update_get_in.
Qed.

Lemma own_labels_override_witness :
  Forall (fun payload =>
            exists t, In t (map snd (ir.tasks alias_flow)) /\
                      payload = compiler.monolith_payload alias_flow t /\
                      forall k v, In k derived_labels -> dict_wf (ir.labels t) ->
                                  dict_get k (ir.labels t) = Some v ->
                                  payload_label k payload = Some v)
         [compiler.monolith_payload alias_flow
            {| ir.name := "t1"; ir.agent := "a1"; ir.input := [];
               ir.priority := 0; ir.timeout_ms := 10000;
               ir.labels := [("task_name", PyStr "alias"); ("team", PyStr "core")] |}].
Proof.
  apply (own_labels_override alias_flow). reflexivity.
Defined.

(** ** C7: the two projections follow the same order *)

Lemma alias_flow_valid : valid_IRFlow alias_flow.
Proof.
  constructor; simpl.
  - unfold nonblank. vm_compute. discriminate.
  - unfold nonblank. vm_compute. discriminate.
  - discriminate.
  - unfold dict_wf. simpl. repeat constructor; simpl; intuition discriminate.
  - intros k t [E|[]]; inversion E; subst; simpl;
      (split; [reflexivity | unfold nonblank; vm_compute; discriminate]).
  - intros k t [E|[]]; inversion E; subst; simpl;
      unfold nonblank; vm_compute; discriminate.
  - intros e [].
  - apply (acyclic_by_rank _ (fun _ => 0)). intros e [].
  - intros k t [E|[]]; inversion E; subst; simpl; lia.
  - tauto.
Qed.

(** C7, as stated, fails: [alias_flow] is valid, its task t1 carries the
    label task_name = alias, so the names read off artifact A are [alias]
    while those of artifact B are [t1]. *)
Lemma task_names_counterexample :
  valid_IRFlow alias_flow /\
  exists payloads spec,
    compiler.ir_to_monolith_tasks alias_flow = Ok payloads /\
    compiler.ir_to_waterfall_spec alias_flow = Ok spec /\
    payload_task_names payloads = [Some (PyStr "alias")] /\
    spec_task_names spec = [Some (PyStr "t1")] /\
    payload_task_names payloads <> spec_task_names spec.
Proof.
  split; [exact alias_flow_valid|].
  eexists. eexists. split; [reflexivity|]. split; [reflexivity|].
  split; [reflexivity|]. split; [reflexivity|]. discriminate.
Qed.

(** C7 (amended).  For every valid IRFlow both projections succeed and map
    the same topological order: the i-th payload of artifact A and the i-th
    task of artifact B are built from the same task of the flow.  The
    sequence of task names read off artifact A (label task_name) is
    identical to the sequence of names in the tasks list of artifact B
    provided no task's own labels contain the key task_name. *)
Theorem projections_agree (flow : ir.IRFlow) :
  valid_IRFlow flow ->
  exists payloads spec tasks,
    compiler.ir_to_monolith_tasks flow = Ok payloads /\
    compiler.ir_to_waterfall_spec flow = Ok spec /\
    py_get "tasks" spec = Some (PyList tasks) /\
    Forall2 (fun payload task =>
               exists t, In t (map snd (ir.tasks flow)) /\
                         payload = compiler.monolith_payload flow t /\
                         task = compiler.waterfall_task t)
            payloads tasks /\
    ((forall k t, In (k, t) (ir.tasks flow) ->
                  dict_get "task_name" (ir.labels t) = None) ->
     payload_task_names payloads = spec_task_names spec).
Proof.
  intros Hvalid.
  destruct (topological_order_run flow (valid_distinct flow Hvalid))
    as [order [deg [Hrun Hinv]]].
  { intros e He. now apply (valid_edges flow Hvalid). }
  pose proof (inv_known _ _ _ _ _ Hinv) as Hperm. rewrite app_nil_r in Hperm.
  destruct (projections_total flow order Hperm) as [[payloads Hps] [tasks Hts]].
  exists payloads. eexists. exists tasks.
  unfold compiler.ir_to_monolith_tasks, compiler.ir_to_waterfall_spec.
  rewrite Hrun. simpl. rewrite Hps, Hts. simpl.
  split; [reflexivity|]. split; [reflexivity|]. split; [reflexivity|].
  apply monolith_payloads_spec in Hps. apply waterfall_tasks_spec in Hts.
  clear Hrun Hperm Hinv deg.
  assert (Hpair : Forall2 (fun payload task =>
             exists t, In t (map snd (ir.tasks flow)) /\
                       In (ir.name t, t) (ir.tasks flow) /\
                       payload = compiler.monolith_payload flow t /\
                       task = compiler.waterfall_task t) payloads tasks).
  { revert tasks Hts.
    induction Hps as [|name payload order payloads [t [Ht ->]] _ IH]; intros tasks Hts;
      inversion Hts as [|? task ? tasks' [t' [Ht' ->]] Hrest]; subst; constructor.
    - assert (t' = t) by congruence. subst t'. exists t.
      split; [now apply in_snd_of_get with name|]. split; [|auto].
      pose proof (dict_get_in _ _ _ Ht) as Hin.
      destruct (valid_names flow Hvalid name t Hin) as [-> _]. exact Hin.
    - now apply IH. }
  split.
  - clear - Hpair. induction Hpair as [|p w ps ws [t [Ht [_ H]]] _ IH]; constructor; eauto.
  - intros Hnone. unfold payload_task_names, spec_task_names. simpl.
    clear - Hpair Hnone.
    induction Hpair as [|p w ps ws [t [_ [Hin [-> ->]]]] _ IH]; simpl; [reflexivity|].
    f_equal; [|exact IH].
    unfold payload_label. simpl.
    rewrite dict_update_get_out by (apply (Hnone _ _ Hin)). reflexivity.
Qed.

Lemma projections_agree_witness :
  exists payloads spec tasks,
    compiler.ir_to_monolith_tasks hello_flow = Ok payloads /\
    compiler.ir_to_waterfall_spec hello_flow = Ok spec /\
    py_get "tasks" spec = Some (PyList tasks) /\
    Forall2 (fun payload task =>
               exists t, In t (map snd (ir.tasks hello_flow)) /\
                         payload = compiler.monolith_payload hello_flow t /\
                         task = compiler.waterfall_task t)
            payloads tasks /\
    ((forall k t, In (k, t) (ir.tasks hello_flow) ->
                  dict_get "task_name" (ir.labels t) = None) ->
     payload_task_names payloads = spec_task_names spec).
Proof.
  apply (projections_agree hello_flow). exact hello_flow_valid.
Defined.

(** ** The order of strings and sorted() *)

Lemma ascii_compare_lt a b :
  Ascii.compare a b = Lt <-> (N_of_ascii a < N_of_ascii b)%N.
Proof. unfold Ascii.compare. apply N.compare_lt_iff. Qed.

Lemma string_lt_trans a : forall b c,
  String.compare a b = Lt -> String.compare b c = Lt -> String.compare a c = Lt.
Proof.
  induction a as [|x a IH]; intros [|y b] [|z c]; simpl; try congruence.
  destruct (Ascii.compare x y) eqn:Hxy; try discriminate;
    destruct (Ascii.compare y z) eqn:Hyz; try discriminate; intros H1 H2.
  - apply Ascii.compare_eq_iff in Hxy, Hyz. subst.
    assert (E : Ascii.compare z z = Eq) by (unfold Ascii.compare; apply N.compare_refl).
    rewrite E. eauto.
  - apply Ascii.compare_eq_iff in Hxy. subst. now rewrite Hyz.
  - apply Ascii.compare_eq_iff in Hyz. subst. now rewrite Hxy.
  - apply ascii_compare_lt in Hxy. apply ascii_compare_lt in Hyz.
    assert (E : Ascii.compare x z = Lt).
    { apply ascii_compare_lt. now apply N.lt_trans with (N_of_ascii y). }
    now rewrite E.
Qed.

Lemma string_compare_refl a : String.compare a a = Eq.
Proof.
  pose proof (String.compare_antisym a a) as H.
  destruct (String.compare a a); simpl in H; congruence.
Qed.

Lemma string_leb_cases a b :
  String.leb a b = true <-> a = b \/ String.compare a b = Lt.
Proof.
  unfold String.leb. destruct (String.compare a b) eqn:E; split; intros H; auto;
    try discriminate.
  - left. now apply String.compare_eq_iff.
  - destruct H as [H|H]; [|discriminate]. subst.
    rewrite string_compare_refl in E. discriminate.
Qed.

Lemma string_leb_trans a b c :
  String.leb a b = true -> String.leb b c = true -> String.leb a c = true.
Proof.
  rewrite !string_leb_cases. intros [->|H1] [->|H2]; auto.
  right. now apply string_lt_trans with b.
Qed.

Lemma string_ltb_leb a b :
  String.ltb a b = true <-> String.leb a b = true /\ a <> b.
Proof.
  rewrite string_leb_cases. unfold String.ltb.
  destruct (String.compare a b) eqn:E; split; intros H; try discriminate.
  - destruct H as [_ H]. apply String.compare_eq_iff in E. contradiction.
  - split; [now right|]. intros ->.
    rewrite string_compare_refl in E. discriminate.
  - reflexivity.
  - destruct H as [[H|H] Hne]; [contradiction | discriminate].
Qed.

Section SortedFacts.
Context {A : Type} (leb : A -> A -> bool).
Hypothesis leb_total : forall a b, leb a b = true \/ leb b a = true.
Hypothesis leb_trans : forall a b c, leb a b = true -> leb b c = true -> leb a c = true.

Lemma insert_sorted x l :
  StronglySorted (fun a b => leb a b = true) l -> StronglySorted (fun a b => leb a b = true) (insert leb x l).
Proof.
  induction l as [|y l IH]; intros Hs; simpl.
  - constructor; constructor.
  - inversion Hs as [|? ? Hl Hy]; subst.
    destruct (leb x y) eqn:E.
    + constructor; [assumption|]. constructor; [exact E|].
      apply Forall_impl with (P := fun b => leb y b = true); [|assumption].
      intros z Hz. now apply leb_trans with y.
    + constructor; [now apply IH|].
      assert (Hyx : leb y x = true) by (destruct (leb_total x y); [congruence | assumption]).
      apply Forall_forall. intros z Hz.
      apply (Permutation_in _ (insert_perm leb x l)) in Hz.
      destruct Hz as [<-|Hz]; [exact Hyx|].
      now apply (proj1 (Forall_forall _ _) Hy).
Qed.

Lemma sorted_sorted l : StronglySorted (fun a b => leb a b = true) (sorted leb l).
Proof.
  induction l as [|x l IH]; simpl; [constructor | now apply insert_sorted].
Qed.
End SortedFacts.

Lemma StronglySorted_filter {A} (R : A -> A -> Prop) (p : A -> bool) l :
  StronglySorted R l -> StronglySorted R (filter p l).
Proof.
  induction 1 as [|x l Hs IH Hx]; simpl; [constructor|].
  destruct (p x); [|assumption]. constructor; [assumption|].
  apply Forall_forall. intros y Hy. apply filter_In in Hy.
  now apply (proj1 (Forall_forall _ _) Hx).
Qed.

Lemma StronglySorted_map {A B} (f : A -> B) (R : A -> A -> Prop) (Q : B -> B -> Prop) l :
  (forall a b, R a b -> Q (f a) (f b)) ->
  StronglySorted R l -> StronglySorted Q (map f l).
Proof.
  intros Hf. induction 1 as [|x l Hs IH Hx]; simpl; constructor; [assumption|].
  apply Forall_forall. intros y Hy. apply in_map_iff in Hy. destruct Hy as [a [<- Ha]].
  apply Hf. now apply (proj1 (Forall_forall _ _) Hx).
Qed.

Lemma StronglySorted_strict l :
  StronglySorted (fun a b => String.leb a b = true) l -> NoDup l ->
  StronglySorted (fun a b => String.ltb a b = true) l.
Proof.
  induction 1 as [|x l Hs IH Hx]; intros Hnd; constructor; inversion Hnd; subst.
  - now apply IH.
  - apply Forall_forall. intros y Hy. apply string_ltb_leb. split.
    + now apply (proj1 (Forall_forall _ _) Hx).
    + intros ->. contradiction.
Qed.

Lemma item_leb_total a b : item_leb a b = true \/ item_leb b a = true.
Proof.
  unfold item_leb. rewrite (String.compare_antisym (fst b) (fst a)).
  destruct (String.compare (fst a) (fst b)); simpl; auto.
  destruct (Z.leb_spec (snd a) (snd b)); [now left | right; apply Z.leb_le; lia].
Qed.

Lemma item_leb_trans a b c :
  item_leb a b = true -> item_leb b c = true -> item_leb a c = true.
Proof.
  unfold item_leb.
  destruct (String.compare (fst a) (fst b)) eqn:Hab; try discriminate;
    destruct (String.compare (fst b) (fst c)) eqn:Hbc; try discriminate; intros H1 H2.
  - apply String.compare_eq_iff in Hab, Hbc. rewrite Hab, Hbc.
    rewrite string_compare_refl. apply Z.leb_le. apply Z.leb_le in H1, H2. lia.
  - apply String.compare_eq_iff in Hab. rewrite Hab, Hbc. reflexivity.
  - apply String.compare_eq_iff in Hbc. rewrite <- Hbc, Hab. reflexivity.
  - now rewrite (string_lt_trans _ _ _ Hab Hbc).
Qed.

Lemma item_leb_fst a b : item_leb a b = true -> String.leb (fst a) (fst b) = true.
Proof.
  unfold item_leb, String.leb. destruct (String.compare (fst a) (fst b)); congruence.
Qed.

(** The seed is in ascending lexicographic order. *)
Lemma seed_sorted (in_degree : dict Z) :
  StronglySorted (fun a b => String.leb a b = true) (compiler.seed in_degree).
Proof.
  unfold compiler.seed.
  apply StronglySorted_map with (R := fun a b => item_leb a b = true).
  - intros a b. apply item_leb_fst.
  - apply StronglySorted_filter. apply sorted_sorted.
    + exact item_leb_total.
    + exact item_leb_trans.
Qed.

(** ** First-in first-out emission *)

Lemma index_app_old x l1 l2 : In x l1 -> index x (l1 ++ l2) = index x l1.
Proof.
  induction l1 as [|y l1 IH]; simpl; [tauto|]. intros H.
  destruct (String.eqb_spec y x) as [E|E]; [reflexivity|].
  destruct H as [H|H]; [contradiction|]. now rewrite IH.
Qed.

Lemma index_In x l : In x l -> exists i, index x l = Some i /\ i < length l.
Proof.
  intros H. destruct (index_app_found x l [] H) as [i Hi].
  rewrite app_nil_r in Hi. eauto.
Qed.

Lemma fold_max_le l n : (forall x, In x l -> x <= n) -> fold_right Nat.max 0 l <= n.
Proof.
  induction l as [|y l IH]; simpl; intros H; [lia|].
  pose proof (H y (or_introl eq_refl)). pose proof (IH (fun x Hx => H x (or_intror Hx))). lia.
Qed.

Lemma fold_max_ge l x : In x l -> x <= fold_right Nat.max 0 l.
Proof.
  induction l as [|y l IH]; simpl; [tauto|]. intros [->|H]; [lia|].
  pose proof (IH H). lia.
Qed.

Lemma StronglySorted_impl_in {A} (R R' : A -> A -> Prop) l :
  (forall x y, In x l -> In y l -> R x y -> R' x y) ->
  StronglySorted R l -> StronglySorted R' l.
Proof.
  intros Himpl Hs. induction Hs as [|x l Hs IH Hx]; constructor.
  - apply IH. intros a b Ha Hb. apply Himpl; now right.
  - apply Forall_forall. intros y Hy. apply Himpl; [now left | now right|].
    now apply (proj1 (Forall_forall _ _) Hx).
Qed.

Lemma StronglySorted_app {A} (R : A -> A -> Prop) l1 l2 :
  StronglySorted R l1 -> StronglySorted R l2 ->
  (forall x y, In x l1 -> In y l2 -> R x y) ->
  StronglySorted R (l1 ++ l2).
Proof.
  intros H1 H2 Hcross. induction H1 as [|x l1 Hs IH Hx]; simpl; [assumption|].
  constructor.
  - apply IH. intros a b Ha Hb. apply Hcross; [now right | assumption].
  - apply Forall_forall. intros y Hy. apply in_app_or in Hy. destruct Hy as [Hy|Hy].
    + now apply (proj1 (Forall_forall _ _) Hx).
    + apply Hcross; [now left | assumption].
Qed.

Lemma StronglySorted_nth {A} (R : A -> A -> Prop) l : StronglySorted R l ->
  forall i j x y, i < j -> nth_error l i = Some x -> nth_error l j = Some y -> R x y.
Proof.
  induction 1 as [|a l Hs IH Ha]; intros i j x y Hlt Hi Hj.
  - destruct i; discriminate.
  - destruct j as [|j]; [lia|]. simpl in Hj. destruct i as [|i]; simpl in Hi.
    + injection Hi as <-. apply (proj1 (Forall_forall _ _) Ha).
      now apply nth_error_In with j.
    + apply (IH i j); [lia | assumption | assumption].
Qed.

(** The targets released by one turn keep the order of the list they are
    taken from. *)
Lemma release_order targets : forall in_degree queue in_degree' queue',
  compiler.release targets in_degree queue = Ok (in_degree', queue') ->
  exists released,
    queue' = queue ++ released /\
    incl released targets /\
    forall R : string -> string -> Prop,
      StronglySorted R targets -> StronglySorted R released.
Proof.
  induction targets as [|nxt targets IH]; intros deg q deg' q' H; simpl in H.
  - injection H as <- <-. exists []. rewrite app_nil_r.
    split; [reflexivity|]. split; [intros x []|]. intros R _. constructor.
  - unfold dict_item in H. destruct (dict_get nxt deg) as [d|]; simpl in H; [|discriminate].
    destruct (Z.eqb (d - 1) 0).
    + destruct (IH _ _ _ _ H) as [rel [Hq [Hincl Hsorted]]].
      exists (nxt :: rel). rewrite Hq, <- app_assoc. split; [reflexivity|]. split.
      * intros x [<-|Hx]; [now left | right; now apply Hincl].
      * intros R Hs. inversion Hs as [|? ? Hs' Hn]; subst. constructor; [now apply Hsorted|].
        apply Forall_forall. intros y Hy.
        apply (proj1 (Forall_forall _ _) Hn). now apply Hincl.
    + destruct (IH _ _ _ _ H) as [rel [Hq [Hincl Hsorted]]].
      exists rel. split; [assumption|]. split.
      * intros x Hx. right. now apply Hincl.
      * intros R Hs. inversion Hs; subst. now apply Hsorted.
Qed.

Section Fifo.
Variable edges : list ir.IREdge.

Lemma ready_at_stable order l v :
  (forall u, arc edges u v -> In u order) ->
  ready_at edges (order ++ l) v = ready_at edges order v.
Proof.
  intros Hpred. unfold ready_at. f_equal. apply map_ext_in.
  intros e He. apply filter_In in He. destruct He as [He Ht].
  apply String.eqb_eq in Ht.
  assert (Hin : In (ir.source e) order) by (apply Hpred; exists e; auto).
  rewrite (index_app_old _ _ l Hin).
  destruct (index_In _ _ Hin) as [i [Hi _]]. now rewrite Hi.
Qed.

Lemma ready_at_le order v :
  (forall u, arc edges u v -> In u order) ->
  ready_at edges order v <= length order.
Proof.
  intros Hpred. unfold ready_at. apply fold_max_le. intros x Hx.
  apply in_map_iff in Hx. destruct Hx as [e [<- He]].
  apply filter_In in He. destruct He as [He Ht]. apply String.eqb_eq in Ht.
  assert (Hin : In (ir.source e) order) by (apply Hpred; exists e; auto).
  destruct (index_In _ _ Hin) as [i [Hi Hlt]]. rewrite Hi. lia.
Qed.

Lemma ready_at_released order node v :
  arc edges node v -> ~ In node order ->
  (forall u, arc edges u v -> In u (order ++ [node])) ->
  ready_at edges (order ++ [node]) v = Datatypes.S (length order).
Proof.
  intros Harc Hnew Hpred. apply Nat.le_antisymm.
  - pose proof (ready_at_le (order ++ [node]) v Hpred) as H.
    rewrite length_app in H. simpl in H. lia.
  - unfold ready_at. destruct Harc as [e [He [Hs Ht]]].
    apply Nat.le_trans with
      (match index (ir.source e) (order ++ [node]) with
       | Some i => Datatypes.S i
       | None => Datatypes.S (length (order ++ [node]))
       end).
    + rewrite Hs, (index_app_fresh node order [] Hnew). lia.
    + apply fold_max_ge. apply in_map_iff. exists e. split; [reflexivity|].
      apply filter_In. split; [assumption | now apply String.eqb_eq].
Qed.

Variable K : list string.
Variable adj : dict (list string).
Hypothesis K_distinct : NoDup K.
Hypothesis targets_known : forall e, In e edges -> In (ir.target e) K.
Hypothesis adj_targets : forall u, compiler.adj_get u adj = targets_of edges u.

Lemma pending_zero_preds order v :
  pending edges order v = 0 -> forall u, arc edges u v -> In u order.
Proof.
  intros Hz u Harc. destruct (in_dec string_dec u order) as [H|H]; [assumption|].
  exfalso. exact (arc_pending edges u v order Harc H Hz).
Qed.

(** One turn of the loop keeps the frontier in first-in first-out order. *)
Lemma fifo_step in_degree node queue order in_degree' released :
  kahn_inv edges K in_degree (node :: queue) order ->
  StronglySorted (fifo_before edges order) (order ++ node :: queue) ->
  compiler.release (sorted String.leb (compiler.adj_get node adj)) in_degree queue
  = Ok (in_degree', queue ++ released) ->
  (forall v, In v released <->
     arc edges node v /\ pending edges (order ++ [node]) v = 0) ->
  NoDup released ->
  StronglySorted (fifo_before edges (order ++ [node]))
                 ((order ++ [node]) ++ queue ++ released).
Proof.
  intros Hinv Hfifo Hrun Hrel Hnd.
  assert (Hnew : ~ In node order).
  { pose proof (inv_distinct _ _ _ _ _ Hinv) as H. apply NoDup_remove_2 in H.
    intros Hin. apply H. apply in_or_app. now left. }
  assert (Hold : forall v, In v (order ++ node :: queue) ->
            forall u, arc edges u v -> In u order).
  { intros v Hv. apply pending_zero_preds.
    apply (inv_ready _ _ _ _ _ Hinv v); [|assumption].
    now apply (inv_known _ _ _ _ _ Hinv). }
  assert (Hnewrel : forall v, In v released ->
            ready_at edges (order ++ [node]) v = Datatypes.S (length order)).
  { intros v Hv. apply Hrel in Hv. destruct Hv as [Harc Hz].
    apply ready_at_released; try assumption. now apply pending_zero_preds. }
  destruct (release_order _ _ _ _ _ Hrun) as [rel [Hq [_ Hsorted]]].
  apply app_inv_head in Hq. subst rel.
  assert (Hsrel : StronglySorted (fun a b => String.ltb a b = true) released).
  { apply StronglySorted_strict; [|assumption]. apply Hsorted.
    apply sorted_sorted; [exact String.leb_total | exact string_leb_trans]. }
  rewrite app_assoc. apply StronglySorted_app.
  - rewrite <- app_assoc. simpl.
    apply StronglySorted_impl_in with (R := fifo_before edges order); [|assumption].
    intros x y Hx Hy. unfold fifo_before.
    now rewrite !ready_at_stable by (now apply Hold).
  - apply StronglySorted_impl_in with (R := fun a b => String.ltb a b = true);
      [|assumption].
    intros x y Hx Hy Hlt. right. split; [|assumption].
    now rewrite !Hnewrel.
  - intros x y Hx Hy. left. rewrite <- app_assoc in Hx. simpl in Hx.
    rewrite (Hnewrel y Hy), ready_at_stable by (now apply Hold).
    pose proof (ready_at_le order x (Hold x Hx)). lia.
Qed.

(** The loop ends with every task in first-in first-out order. *)
Lemma drain_fifo fuel : forall in_degree queue order,
  kahn_inv edges K in_degree queue order ->
  StronglySorted (fifo_before edges order) (order ++ queue) ->
  length K <= fuel + length order ->
  exists final,
    compiler.drain fuel adj in_degree queue order = Ok final /\
    StronglySorted (fifo_before edges final) final.
Proof.
  induction fuel as [|fuel IH]; intros in_degree queue order Hinv Hfifo Hfuel;
    destruct queue as [|node queue].
  - exists order. rewrite app_nil_r in Hfifo. split; [reflexivity | assumption].
  - exfalso. destruct Hinv as [_ _ Hnd Hknown _ _].
    pose proof (NoDup_incl_length Hnd Hknown) as Hlen.
    rewrite length_app in Hlen. simpl in Hlen. lia.
  - exists order. rewrite app_nil_r in Hfifo. split; [reflexivity | assumption].
  - destruct (kahn_step edges K adj K_distinct targets_known adj_targets
                in_degree node queue order Hinv)
      as [deg' [rel [Hrun [Hinv' [Hrel Hnd]]]]].
    simpl. rewrite Hrun. simpl.
    apply (IH deg' (queue ++ rel) (order ++ [node]) Hinv').
    + now apply (fifo_step in_degree node queue order deg' rel).
    + rewrite length_app. simpl. lia.
Qed.
End Fifo.

(** Kahn's algorithm emits the tasks in first-in first-out order. *)
Lemma topological_order_fifo (flow : ir.IRFlow) :
  dict_wf (ir.tasks flow) ->
  (forall e, In e (ir.edges flow) -> In (ir.target e) (dict_keys (ir.tasks flow))) ->
  exists order,
    compiler._topological_order flow = Ok order /\
    StronglySorted (fifo_before (ir.edges flow) order) order.
Proof.
  intros Hwf Htargets. unfold compiler._topological_order.
  destruct (kahn_start flow Hwf Htargets) as [deg [adj [Hrun [Hadj Hinv]]]].
  rewrite Hrun. simpl.
  apply (drain_fifo (ir.edges flow) (dict_keys (ir.tasks flow)) adj Hwf Htargets Hadj
           (length (ir.tasks flow)) deg (compiler.seed deg) [] Hinv).
  - simpl.
    apply StronglySorted_impl_in with (R := fun a b => String.ltb a b = true).
    + intros x y Hx Hy Hlt. right. split; [|assumption].
      assert (Hzero : forall v, In v (compiler.seed deg) ->
                ready_at (ir.edges flow) [] v = 0).
      { intros v Hv.
        assert (Hle : ready_at (ir.edges flow) [] v <= length (@nil string)).
        { apply ready_at_le. apply pending_zero_preds.
          apply (inv_ready _ _ _ _ _ Hinv v); [|exact Hv].
          now apply (inv_known _ _ _ _ _ Hinv). }
        simpl in Hle. lia. }
      now rewrite !Hzero.
    + apply StronglySorted_strict; [apply seed_sorted|].
      exact (inv_distinct _ _ _ _ _ Hinv).
  - unfold dict_keys. rewrite length_map. simpl. lia.
Qed.

Lemma fifo_flow_valid : valid_IRFlow fifo_flow.
Proof.
  constructor; simpl.
  - unfold nonblank. vm_compute. discriminate.
  - unfold nonblank. vm_compute. discriminate.
  - discriminate.
  - unfold dict_wf. simpl. repeat constructor; simpl; intuition discriminate.
  - intros k t [E|[E|[E|[]]]]; inversion E; subst; simpl;
      (split; [reflexivity | unfold nonblank; vm_compute; discriminate]).
  - intros k t [E|[E|[E|[]]]]; inversion E; subst; simpl;
      unfold nonblank; vm_compute; discriminate.
  - intros e [E|[]]; subst; simpl; tauto.
  - apply (acyclic_by_rank _ (fun s => if String.eqb s "a" then 1 else 0)).
    intros e [E|[]]; subst; simpl; lia.
  - intros k t [E|[E|[E|[]]]]; inversion E; subst; simpl; lia.
  - tauto.
Qed.

(** ** C2: the frontier is a first-in first-out queue *)

(** C2, as stated, fails: in [fifo_flow] the order is x, y, a.  After x is
    emitted both y and a are ready, and a is the smaller name, yet the
    second task emitted is y. *)
Lemma smallest_ready_counterexample :
  valid_IRFlow fifo_flow /\
  compiler._topological_order fifo_flow = Ok ["x"; "y"; "a"] /\
  nth_error ["x"; "y"; "a"] 1 = Some "y" /\
  ready fifo_flow (firstn 1 ["x"; "y"; "a"]) "a" /\
  String.leb "y" "a" = false.
Proof.
  split; [exact fifo_flow_valid|]. split; [reflexivity|]. split; [reflexivity|].
  split; [|reflexivity].
  unfold ready. simpl. split; [tauto|]. split; [intuition discriminate|].
  intros u [e [[<-|[]] [Hs _]]]. simpl in Hs. now left.
Qed.

(** C2 (amended).  For every valid (acyclic) IRFlow the orderer emits the
    tasks first-in first-out: a task is emitted only after it became ready,
    of two emitted tasks the one that became ready at an earlier step comes
    first, and two tasks that became ready at the same step (the initial
    zero-in-degree seed, or the targets released by one emitted task) come
    in ascending lexicographic order.  The frontier is not re-sorted when
    tasks are enqueued. *)
Theorem emission_is_fifo (flow : ir.IRFlow) :
  valid_IRFlow flow ->
  exists order,
    compiler._topological_order flow = Ok order /\
    (forall i x, nth_error order i = Some x ->
                 ready_at (ir.edges flow) order x <= i) /\
    (forall i j x y, i < j ->
       nth_error order i = Some x -> nth_error order j = Some y ->
       fifo_before (ir.edges flow) order x y).
Proof.
  intros Hvalid.
  assert (Htargets : forall e, In e (ir.edges flow) ->
            In (ir.target e) (dict_keys (ir.tasks flow))).
  { intros e He. now apply (valid_edges flow Hvalid). }
  destruct (topological_order_fifo flow (valid_distinct flow Hvalid) Htargets)
    as [order [Hrun Hfifo]].
  destruct (topological_order_run flow (valid_distinct flow Hvalid) Htargets)
    as [order' [deg [Hrun' Hinv]]].
  assert (order' = order) by congruence. subst order'.
  exists order. split; [assumption|]. split.
  - intros i x Hi. destruct (nth_error_split order i Hi) as [l1 [l2 [E Hlen]]].
    pose proof (inv_sources _ _ _ _ _ Hinv l1 x l2 E) as Hpred.
    rewrite E, ready_at_stable by exact Hpred.
    rewrite <- Hlen. now apply ready_at_le.
  - intros i j x y Hlt Hi Hj. exact (StronglySorted_nth _ _ Hfifo i j x y Hlt Hi Hj).
Qed.

Lemma emission_is_fifo_witness :
  exists order,
    compiler._topological_order fifo_flow = Ok order /\
    (forall i x, nth_error order i = Some x ->
                 ready_at (ir.edges fifo_flow) order x <= i) /\
    (forall i j x y, i < j ->
       nth_error order i = Some x -> nth_error order j = Some y ->
       fifo_before (ir.edges fifo_flow) order x y).
Proof.
  apply (emission_is_fifo fifo_flow). exact fifo_flow_valid.
Defined.

(** ** Independence from the insertion order of the task mapping *)

Lemma dict_set_equiv {V} k (v : V) d1 d2 :
  dict_equiv d1 d2 -> dict_equiv (dict_set k v d1) (dict_set k v d2).
Proof.
  intros H k'. destruct (string_dec k k') as [<-|E].
  - now rewrite !dict_get_set_eq.
  - rewrite !dict_get_set_neq by assumption. apply H.
Qed.

Lemma dict_item_equiv {V} k (d1 d2 : dict V) :
  dict_equiv d1 d2 -> dict_item k d1 = dict_item k d2.
Proof.
  intros H. unfold dict_item. now rewrite (H k).
Qed.

Lemma dict_equiv_items {V} (d1 d2 : dict V) :
  dict_wf d1 -> dict_wf d2 -> dict_equiv d1 d2 -> forall kv, In kv d1 <-> In kv d2.
Proof.
  intros H1 H2 He [k v]. split; intros H.
  - apply dict_get_in. rewrite <- (He k). now apply dict_in_get.
  - apply dict_get_in. rewrite (He k). now apply dict_in_get.
Qed.

Lemma dict_wf_items {V} (d : dict V) : dict_wf d -> NoDup d.
Proof.
  unfold dict_wf, dict_keys. apply NoDup_map_inv.
Qed.

Lemma dict_equiv_perm {V} (d1 d2 : dict V) :
  dict_wf d1 -> dict_wf d2 -> dict_equiv d1 d2 -> Permutation d1 d2.
Proof.
  intros H1 H2 He. apply NoDup_Permutation; try (now apply dict_wf_items).
  now apply dict_equiv_items.
Qed.

Lemma dict_keys_set_perm {V} k (v : V) d :
  In k (dict_keys d) -> dict_wf d -> dict_wf (dict_set k v d).
Proof.
  intros Hin Hwf. unfold dict_wf. now rewrite dict_keys_set_in.
Qed.

(** A sorted list is determined by its elements. *)
Section SortedUnique.
Context {A : Type} (leb : A -> A -> bool).
Hypothesis leb_antisym : forall a b, leb a b = true -> leb b a = true -> a = b.

Lemma sorted_perm_unique l1 : forall l2,
  StronglySorted (fun a b => leb a b = true) l1 ->
  StronglySorted (fun a b => leb a b = true) l2 ->
  Permutation l1 l2 -> l1 = l2.
Proof.
  induction l1 as [|a l1 IH]; intros l2 H1 H2 Hp.
  - apply Permutation_nil in Hp. now subst.
  - destruct l2 as [|b l2].
    { symmetry in Hp. apply Permutation_nil in Hp. discriminate. }
    inversion H1 as [|? ? Hs1 Ha]; subst. inversion H2 as [|? ? Hs2 Hb]; subst.
    assert (Hab : a = b).
    { assert (Hina : In a (b :: l2)) by (apply (Permutation_in _ Hp); now left).
      assert (Hinb : In b (a :: l1))
        by (apply (Permutation_in _ (Permutation_sym Hp)); now left).
      destruct Hina as [->|Hina]; [reflexivity|].
      destruct Hinb as [->|Hinb]; [reflexivity|].
      apply leb_antisym.
      - now apply (proj1 (Forall_forall _ _) Ha).
      - now apply (proj1 (Forall_forall _ _) Hb). }
    subst b. f_equal. apply IH; try assumption.
    now apply Permutation_cons_inv with a.
Qed.
End SortedUnique.

Lemma item_leb_antisym a b : item_leb a b = true -> item_leb b a = true -> a = b.
Proof.
  unfold item_leb. rewrite (String.compare_antisym (fst b) (fst a)).
  destruct (String.compare (fst a) (fst b)) eqn:E; simpl; try discriminate.
  intros H1 H2. apply String.compare_eq_iff in E.
  apply Z.leb_le in H1, H2. destruct a, b. simpl in *. f_equal; [assumption | lia].
Qed.

Lemma seed_equiv (d1 d2 : dict Z) :
  dict_wf d1 -> dict_wf d2 -> dict_equiv d1 d2 -> compiler.seed d1 = compiler.seed d2.
Proof.
  intros H1 H2 He. unfold compiler.seed. f_equal. f_equal.
  apply (sorted_perm_unique item_leb item_leb_antisym).
  - apply sorted_sorted; [exact item_leb_total | exact item_leb_trans].
  - apply sorted_sorted; [exact item_leb_total | exact item_leb_trans].
  - rewrite !sorted_perm. now apply dict_equiv_perm.
Qed.

Lemma add_edges_equiv es : forall d1 d2 adj,
  dict_equiv d1 d2 -> dict_wf d1 -> dict_wf d2 ->
  same_outcome (fun x y => dict_equiv (fst x) (fst y) /\ dict_wf (fst x) /\
                           dict_wf (fst y) /\ snd x = snd y)
    (compiler.add_edges es (d1, adj)) (compiler.add_edges es (d2, adj)).
Proof.
  induction es as [|e es IH]; intros d1 d2 adj He H1 H2; simpl.
  - auto.
  - unfold dict_item. rewrite <- (He (ir.target e)).
    destruct (dict_get (ir.target e) d1) as [d|] eqn:Hd; simpl; [|reflexivity].
    apply IH.
    + now apply dict_set_equiv.
    + apply dict_keys_set_perm; [|assumption]. apply dict_get_in_keys. eauto.
    + apply dict_keys_set_perm; [|assumption]. apply dict_get_in_keys.
      rewrite <- (He (ir.target e)). eauto.
Qed.

Lemma release_equiv targets : forall d1 d2 queue,
  dict_equiv d1 d2 ->
  same_outcome (fun x y => dict_equiv (fst x) (fst y) /\ snd x = snd y)
    (compiler.release targets d1 queue) (compiler.release targets d2 queue).
Proof.
  induction targets as [|nxt targets IH]; intros d1 d2 queue He; simpl.
  - auto.
  - unfold dict_item. rewrite <- (He nxt).
    destruct (dict_get nxt d1) as [d|]; simpl; [|reflexivity].
    destruct (Z.eqb (d - 1) 0); apply IH; now apply dict_set_equiv.
Qed.

Lemma drain_equiv fuel adj : forall d1 d2 queue order,
  dict_equiv d1 d2 ->
  compiler.drain fuel adj d1 queue order = compiler.drain fuel adj d2 queue order.
Proof.
  induction fuel as [|fuel IH]; intros d1 d2 queue order He;
    destruct queue as [|node queue]; simpl; try reflexivity.
  pose proof (release_equiv (sorted String.leb (compiler.adj_get node adj))
                d1 d2 queue He) as Hr.
  destruct (compiler.release _ d1 queue) as [[d1' q1]|e1|];
    destruct (compiler.release _ d2 queue) as [[d2' q2]|e2|];
    simpl in Hr; try contradiction; simpl.
  - destruct Hr as [He' ->]. now apply IH.
  - now subst.
  - reflexivity.
Qed.

Lemma dict_get_const {V} (c : V) names k :
  dict_get k (map (fun name => (name, c)) names)
  = if in_dec string_dec k names then Some c else None.
Proof.
  induction names as [|n names IH]; simpl; [reflexivity|].
  destruct (String.eqb_spec n k) as [E|E].
  - destruct (string_dec n k); [reflexivity | contradiction].
  - destruct (string_dec n k) as [E'|E']; [contradiction|].
    rewrite IH. destruct (in_dec string_dec k names); reflexivity.
Qed.

Lemma zero_degrees_equiv (tasks1 tasks2 : dict ir.IRTask) :
  dict_wf tasks1 -> dict_wf tasks2 -> dict_equiv tasks1 tasks2 ->
  dict_equiv (compiler.zero_degrees tasks1) (compiler.zero_degrees tasks2) /\
  dict_wf (compiler.zero_degrees tasks1) /\ dict_wf (compiler.zero_degrees tasks2).
Proof.
  intros H1 H2 He. rewrite !zero_degrees_eq by assumption.
  unfold dict_wf. rewrite !dict_keys_const. split; [|split; assumption].
  intros k. rewrite !dict_get_const.
  assert (Hk : In k (dict_keys tasks1) <-> In k (dict_keys tasks2)).
  { rewrite !dict_get_in_keys. now rewrite (He k). }
  destruct (in_dec string_dec k (dict_keys tasks1)),
           (in_dec string_dec k (dict_keys tasks2)); tauto.
Qed.

Lemma bind_same {A B C} (R : A -> B -> Prop) (r1 : res A) (r2 : res B)
  (k1 : A -> res C) (k2 : B -> res C) :
  same_outcome R r1 r2 -> (forall a b, R a b -> k1 a = k2 b) ->
  bind r1 k1 = bind r2 k2.
Proof.
  intros Hr Hk. destruct r1, r2; simpl in *; try contradiction; auto.
  now subst.
Qed.

Lemma topological_order_same flow1 flow2 :
  same_flow flow1 flow2 ->
  compiler._topological_order flow1 = compiler._topological_order flow2.
Proof.
  intros [_ [_ [H1 [H2 [He [Hedges _]]]]]]. unfold compiler._topological_order.
  rewrite <- Hedges.
  destruct (zero_degrees_equiv _ _ H1 H2 He) as [Hz [Hz1 Hz2]].
  eapply bind_same.
  - exact (add_edges_equiv (ir.edges flow1) _ _ [] Hz Hz1 Hz2).
  - intros [d1 adj1] [d2 adj2] [Hd [Hw1 [Hw2 Hadj]]]. simpl in *. subst adj2.
    rewrite (seed_equiv d1 d2 Hw1 Hw2 Hd).
    rewrite (Permutation_length (dict_equiv_perm _ _ H1 H2 He)).
    now apply drain_equiv.
Qed.

Lemma monolith_payloads_same flow1 flow2 order :
  same_flow flow1 flow2 ->
  compiler.monolith_payloads flow1 order = compiler.monolith_payloads flow2 order.
Proof.
  intros [Hid [Hten [_ [_ [He _]]]]].
  induction order as [|name order IH]; simpl; [reflexivity|].
  rewrite (dict_item_equiv name _ _ He), IH.
  unfold compiler.monolith_payload. now rewrite Hid, Hten.
Qed.

Lemma waterfall_tasks_same flow1 flow2 order :
  same_flow flow1 flow2 ->
  compiler.waterfall_tasks flow1 order = compiler.waterfall_tasks flow2 order.
Proof.
  intros [_ [_ [_ [_ [He _]]]]].
  induction order as [|name order IH]; simpl; [reflexivity|].
  now rewrite (dict_item_equiv name _ _ He), IH.
Qed.

(** ** C8: the orderer and both projections are deterministic *)

(** C8.  The orderer and both projections are functions of the IRFlow
    value alone: on two IRFlows that are the same value (equal field by
    field, the task mapping compared as a mapping, so in particular on one
    and the same IRFlow) the orderer returns identical sequences, the
    task-payload projection identical payload lists and the DAG-spec
    projection identical specs.  Nothing else enters: no hidden state, and
    not the order in which the tasks were inserted into the mapping. *)
Theorem compile_deterministic (flow1 flow2 : ir.IRFlow) :
  valid_IRFlow flow1 ->
  same_flow flow1 flow2 ->
  compiler._topological_order flow1 = compiler._topological_order flow2 /\
  compiler.ir_to_monolith_tasks flow1 = compiler.ir_to_monolith_tasks flow2 /\
  compiler.ir_to_waterfall_spec flow1 = compiler.ir_to_waterfall_spec flow2.
Proof.
  intros _ Hsame. pose proof (topological_order_same flow1 flow2 Hsame) as Horder.
  split; [exact Horder|]. split.
  - unfold compiler.ir_to_monolith_tasks. rewrite Horder.
    destruct (compiler._topological_order flow2) as [order|e|]; simpl; try reflexivity.
    now apply monolith_payloads_same.
  - unfold compiler.ir_to_waterfall_spec. rewrite Horder.
    destruct (compiler._topological_order flow2) as [order|e|]; simpl; try reflexivity.
    rewrite (waterfall_tasks_same flow1 flow2 order Hsame).
    destruct Hsame as [Hid [Hten [_ [_ [_ [Hedges Hpol]]]]]].
    now rewrite Hid, Hten, Hedges, Hpol.
Qed.

Lemma perm_dict_equiv {V} (d1 d2 : dict V) :
  dict_wf d1 -> Permutation d1 d2 -> dict_wf d2 /\ dict_equiv d1 d2.
Proof.
  intros Hwf Hp.
  assert (Hwf2 : dict_wf d2).
  { unfold dict_wf, dict_keys in *.
    apply (Permutation_NoDup (l := map fst d1)); [now apply Permutation_map | assumption]. }
  split; [assumption|]. intros k.
  destruct (dict_get k d1) as [v|] eqn:E.
  - symmetry. apply dict_in_get; [assumption|].
    apply (Permutation_in _ Hp). now apply dict_get_in.
  - symmetry. apply dict_get_not_in_keys. apply dict_get_not_in_keys in E.
    intros Hin. apply E. unfold dict_keys in *.
    apply (Permutation_in _ (Permutation_sym (Permutation_map fst Hp)) Hin).
Qed.

Lemma hello_flow_swapped_same : same_flow hello_flow hello_flow_swapped.
Proof.
  destruct (perm_dict_equiv (ir.tasks hello_flow) (rev (ir.tasks hello_flow))
              (valid_distinct _ hello_flow_valid) (Permutation_rev _)) as [Hwf He].
  unfold same_flow.
  split; [reflexivity|]. split; [reflexivity|].
  split; [exact (valid_distinct _ hello_flow_valid)|].
  split; [exact Hwf|]. split; [exact He|]. split; reflexivity.
Qed.

Lemma compile_deterministic_witness :
  compiler._topological_order hello_flow
  = compiler._topological_order hello_flow_swapped /\
  compiler.ir_to_monolith_tasks hello_flow
  = compiler.ir_to_monolith_tasks hello_flow_swapped /\
  compiler.ir_to_waterfall_spec hello_flow
  = compiler.ir_to_waterfall_spec hello_flow_swapped.
Proof.
  apply (compile_deterministic hello_flow hello_flow_swapped).
  - exact hello_flow_valid.
  - exact hello_flow_swapped_same.
Defined.

(** ** The parser *)

(** A sequence of conversions raises what a conversion raises, never
    [ParseError]. *)
Lemma conversion_outcome_bind {A B} (m : res A) (k : A -> res B) :
  conversion_outcome m -> (forall a, conversion_outcome (k a)) ->
  conversion_outcome (bind m k).
Proof.
  intros Hm Hk. destruct m as [a|e|]; simpl in *; [apply Hk | | contradiction].
  destruct e; simpl in *; tauto.
Qed.

Lemma conversion_outcome_cases {A} (r : res A) (P : Prop) :
  conversion_outcome r -> P ->
  (is_ok r -> P) /\ (is_parse_error r -> ~ P) /\ r <> OutOfFuel.
Proof.
  intros H HP. destruct r as [a|e|]; simpl in *; [| |contradiction].
  - split; [tauto|]. split; [tauto | discriminate].
  - destruct e; simpl in H; try contradiction;
      (split; [tauto|]; split; [tauto | discriminate]).
Qed.

(** [v or []] *)
Lemma py_or_list v l :
  py_or v (PyList []) = PyList l ->
  (truthy v = true /\ v = PyList l) \/ (truthy v = false /\ l = []).
Proof.
  unfold py_or. destruct (truthy v); intros H; [left; auto | right].
  injection H as <-. auto.
Qed.

Lemma py_or_not_list v :
  ~ is_sequence (py_or v (PyList [])) -> truthy v = true /\ ~ is_sequence v.
Proof.
  unfold py_or. destruct (truthy v); simpl; [auto | tauto].
Qed.

Lemma falsy_entries v : truthy v = false -> entries v = [].
Proof.
  destruct v as [|b|z|f|s|l|d]; simpl; try reflexivity.
  destruct l; [reflexivity | discriminate].
Qed.

Section ParserFacts.
Variable repr : py_value -> string + repr_exn.
Variable int_of_str : string -> option Z.
Variable dict_of_list : list py_value -> dict py_value + conversion_exn.

(** The conversions raise built-in exceptions only. *)
Lemma py_dict_outcomes v :
  match parser.py_dict dict_of_list v with
  | Ok _ | Raise TypeError | Raise ValueError => True
  | _ => False
  end.
Proof.
  destruct v as [|b|z|f|s|l|d]; simpl; try exact I.
  - destruct (str_empty s); exact I.
  - destruct (dict_of_list l) as [d|[|]]; exact I.
Qed.

Lemma py_dict_conversion v : conversion_outcome (parser.py_dict dict_of_list v).
Proof.
  pose proof (py_dict_outcomes v) as H.
  destruct (parser.py_dict dict_of_list v) as [d|e|]; [exact I | | contradiction].
  destruct e; try contradiction; exact I.
Qed.

Lemma py_str_outcomes v :
  match parser.py_str repr v with
  | Ok _ | Raise ValueError | Raise RecursionError => True
  | _ => False
  end.
Proof.
  destruct v as [|b|z|f|s|l|d]; simpl; try exact I;
    match goal with |- context [repr ?v] => destruct (repr v) as [text|[|]] end;
    exact I.
Qed.

Lemma py_str_conversion v : conversion_outcome (parser.py_str repr v).
Proof.
  pose proof (py_str_outcomes v) as H.
  destruct (parser.py_str repr v) as [s|e|]; [exact I | | contradiction].
  destruct e; try contradiction; exact I.
Qed.

(** One pass of the task loop fails with [ParseError] exactly on an
    entry that is not a mapping. *)
Lemma parse_task_cases t tasks :
  (is_ok (parser.parse_task repr dict_of_list t tasks) -> is_mapping t) /\
  (is_parse_error (parser.parse_task repr dict_of_list t tasks) -> ~ is_mapping t) /\
  parser.parse_task repr dict_of_list t tasks <> OutOfFuel.
Proof.
  destruct t as [|b|z|f|s|l|d];
    try (simpl; repeat split; [contradiction | tauto | discriminate]).
  apply conversion_outcome_cases; [|exact I].
  unfold parser.parse_task.
  repeat (apply conversion_outcome_bind;
          [first [apply py_str_conversion | apply py_dict_conversion] | intros ?]).
  exact I.
Qed.

(** On an entry whose conversions succeed it raises nothing else. *)
Lemma parse_task_converts t tasks :
  task_converts repr dict_of_list t ->
  is_ok (parser.parse_task repr dict_of_list t tasks) \/
  is_parse_error (parser.parse_task repr dict_of_list t tasks).
Proof.
  destruct t as [|b|z|f|s|l|d]; try (intros _; right; exact I).
  intros [[name Hn] [[agent Ha] [Hi [Hr Hl]]]].
  unfold parser.parse_task, field_dict in *.
  rewrite Hn, Ha. cbn [bind].
  repeat match goal with
         | H : is_ok ?r |- _ =>
             destruct r; simpl in H; [clear H | contradiction | contradiction]
         end.
  left. exact I.
Qed.

Lemma parse_tasks_cases raw_tasks : forall tasks,
  (is_ok (for_each (parser.parse_task repr dict_of_list) raw_tasks tasks) ->
   forall t, In t raw_tasks -> is_mapping t) /\
  (is_parse_error (for_each (parser.parse_task repr dict_of_list) raw_tasks tasks) ->
   exists t, In t raw_tasks /\ ~ is_mapping t) /\
  for_each (parser.parse_task repr dict_of_list) raw_tasks tasks <> OutOfFuel.
Proof.
  induction raw_tasks as [|t raw_tasks IH]; intros tasks; cbn [for_each].
  - repeat split; [intros _ t [] | intros [] | discriminate].
  - destruct (parse_task_cases t tasks) as [Hok [Herr Hfuel]].
    destruct (parser.parse_task repr dict_of_list t tasks) as [tasks'|e|];
      cbn [bind]; [| |contradiction].
    + destruct (IH tasks') as [IHok [IHerr IHfuel]]. repeat split.
      * intros H x [<-|Hx]; [now apply Hok | now apply IHok].
      * intros H. destruct (IHerr H) as [x [Hx Hm]]. exists x. split; [now right | assumption].
      * assumption.
    + repeat split; [intros [] | | discriminate].
      intros H. exists t. split; [now left | now apply Herr].
Qed.

Lemma parse_tasks_converts raw_tasks : forall tasks,
  Forall (task_converts repr dict_of_list) raw_tasks ->
  is_ok (for_each (parser.parse_task repr dict_of_list) raw_tasks tasks) \/
  is_parse_error (for_each (parser.parse_task repr dict_of_list) raw_tasks tasks).
Proof.
  induction raw_tasks as [|t raw_tasks IH]; intros tasks Hall; cbn [for_each].
  - left. exact I.
  - inversion Hall as [|? ? Ht Hrest]; subst.
    destruct (parse_task_converts t tasks Ht) as [H|H];
      destruct (parser.parse_task repr dict_of_list t tasks) as [tasks'|e|];
      simpl in H; try contradiction; cbn [bind].
    + now apply IH.
    + right. exact H.
Qed.

(** One pass of the edge loop, likewise. *)
Lemma parse_edge_cases e edges :
  (is_ok (parser.parse_edge repr e edges) -> is_mapping e) /\
  (is_parse_error (parser.parse_edge repr e edges) -> ~ is_mapping e) /\
  parser.parse_edge repr e edges <> OutOfFuel.
Proof.
  destruct e as [|b|z|f|s|l|d];
    try (simpl; repeat split; [contradiction | tauto | discriminate]).
  apply conversion_outcome_cases; [|exact I].
  unfold parser.parse_edge.
  repeat (apply conversion_outcome_bind; [apply py_str_conversion | intros ?]).
  exact I.
Qed.

Lemma parse_edge_converts e edges :
  edge_converts repr e ->
  is_ok (parser.parse_edge repr e edges) \/
  is_parse_error (parser.parse_edge repr e edges).
Proof.
  destruct e as [|b|z|f|s|l|d]; try (intros _; right; exact I).
  intros [[source Hs] [target Ht]].
  unfold parser.parse_edge. rewrite Hs, Ht. left. exact I.
Qed.

Lemma parse_edges_cases raw_edges : forall edges,
  (is_ok (for_each (parser.parse_edge repr) raw_edges edges) ->
   forall e, In e raw_edges -> is_mapping e) /\
  (is_parse_error (for_each (parser.parse_edge repr) raw_edges edges) ->
   exists e, In e raw_edges /\ ~ is_mapping e) /\
  for_each (parser.parse_edge repr) raw_edges edges <> OutOfFuel.
Proof.
  induction raw_edges as [|e raw_edges IH]; intros edges; cbn [for_each].
  - repeat split; [intros _ e [] | intros [] | discriminate].
  - destruct (parse_edge_cases e edges) as [Hok [Herr Hfuel]].
    destruct (parser.parse_edge repr e edges) as [edges'|x|];
      cbn [bind]; [| |contradiction].
    + destruct (IH edges') as [IHok [IHerr IHfuel]]. repeat split.
      * intros H y [<-|Hy]; [now apply Hok | now apply IHok].
      * intros H. destruct (IHerr H) as [y [Hy Hm]]. exists y. split; [now right | assumption].
      * assumption.
    + repeat split; [intros [] | | discriminate].
      intros H. exists e. split; [now left | now apply Herr].
Qed.

Lemma parse_edges_converts raw_edges : forall edges,
  Forall (edge_converts repr) raw_edges ->
  is_ok (for_each (parser.parse_edge repr) raw_edges edges) \/
  is_parse_error (for_each (parser.parse_edge repr) raw_edges edges).
Proof.
  induction raw_edges as [|e raw_edges IH]; intros edges Hall; cbn [for_each].
  - left. exact I.
  - inversion Hall as [|? ? He Hrest]; subst.
    destruct (parse_edge_converts e edges He) as [H|H];
      destruct (parser.parse_edge repr e edges) as [edges'|x|];
      simpl in H; try contradiction; cbn [bind].
    + now apply IH.
    + right. exact H.
Qed.

Lemma parse_policy_outcomes raw_policy :
  match parser.parse_policy repr raw_policy with
  | Ok _ | Raise AttributeError | Raise ValueError | Raise RecursionError => True
  | _ => False
  end.
Proof.
  destruct raw_policy as [|b|z|f|s|l|d]; try exact I.
  unfold parser.parse_policy, parser.attr_get. cbn [bind].
  pose proof (py_str_outcomes (dict_get_default "risk_level" (PyStr "low") d)) as H.
  destruct (parser.py_str repr (dict_get_default "risk_level" (PyStr "low") d))
    as [risk_level|e|]; [exact I | | contradiction].
  destruct e; try contradiction; exact I.
Qed.

Lemma parse_policy_converts policy :
  policy_converts repr policy ->
  is_ok (parser.parse_policy repr (py_or policy (PyDict []))).
Proof.
  unfold policy_converts.
  destruct (py_or policy (PyDict [])) as [|b|z|f|s|l|d]; try contradiction.
  intros [risk_level H].
  unfold parser.parse_policy, parser.attr_get. cbn [bind]. rewrite H. exact I.
Qed.

(** The parser on a root mapping: it returns only on roots without a
    structural defect, and raises [ParseError] only on roots with one. *)
Lemma parse_document_cases raw :
  let r := parser.parse_document repr int_of_str dict_of_list raw in
  r <> OutOfFuel /\
  (is_ok r -> ~ malformed_root raw) /\
  (is_parse_error r -> malformed_root raw).
Proof.
  unfold parser.parse_document, malformed_root.
  pose proof (py_int_outcomes int_of_str (dict_get_default "version" (PyInt 1) raw)) as Hv.
  destruct (py_int int_of_str (dict_get_default "version" (PyInt 1) raw)) as [version|e|];
    cbn [bind]; [| |contradiction].
  2:{ destruct e; try contradiction; (split; [discriminate|]; split; intros []). }
  clear Hv.
  pose proof (py_str_outcomes (dict_get_default "id" (PyStr "") raw)) as Hv.
  destruct (parser.py_str repr (dict_get_default "id" (PyStr "") raw)) as [flow_id|e|];
    cbn [bind]; [| |contradiction].
  2:{ destruct e; try contradiction; (split; [discriminate|]; split; intros []). }
  clear Hv.
  pose proof (py_str_outcomes (dict_get_default "tenant" (PyStr "") raw)) as Hv.
  destruct (parser.py_str repr (dict_get_default "tenant" (PyStr "") raw)) as [tenant|e|];
    cbn [bind]; [| |contradiction].
  2:{ destruct e; try contradiction; (split; [discriminate|]; split; intros []). }
  clear Hv. unfold parser._require_list.
  destruct (dict_get_default "tasks" PyNone raw) as [|b|z|f|s|raw_tasks|d] eqn:Htasks;
    cbn [bind];
    try (split; [discriminate|]; split; [intros [] | intros _; left; simpl; tauto]).
  destruct (parse_tasks_cases raw_tasks []) as [Htok [Hterr Htfuel]].
  destruct (for_each (parser.parse_task repr dict_of_list) raw_tasks []) as [tasks|e|];
    cbn [bind]; [| |contradiction].
  2:{ split; [discriminate|]. split; [intros []|].
      intros H. right. left. simpl. now apply Hterr. }
  specialize (Htok I). clear Hterr Htfuel.
  destruct (py_or (dict_get_default "edges" PyNone raw) (PyList []))
    as [|b|z|f|s|raw_edges|d] eqn:Hedges;
    try (split; [discriminate|]; split; [intros []|]; intros _; right; right; left;
         apply py_or_not_list; rewrite Hedges; simpl; tauto).
  apply py_or_list in Hedges.
  destruct (parse_edges_cases raw_edges []) as [Heok [Heerr Hefuel]].
  destruct (for_each (parser.parse_edge repr) raw_edges []) as [edges|e|];
    cbn [bind]; [| |contradiction].
  - specialize (Heok I).
    pose proof (parse_policy_outcomes
                  (py_or (dict_get_default "policy" PyNone raw) (PyDict []))) as Hp.
    destruct (parser.parse_policy repr _) as [policy|e|]; cbn [bind]; [| |contradiction].
    + split; [discriminate|]. split; [|intros []].
      intros _ [H|[[t [Ht Hm]]|[[Htr Hs]|[e [He Hm]]]]].
      * apply H. exact I.
      * apply Hm. now apply Htok.
      * destruct Hedges as [[_ E]|[E _]]; [rewrite E in Hs; apply Hs; exact I | congruence].
      * destruct Hedges as [[_ E]|[E _]].
        -- rewrite E in He. simpl in He. apply Hm. now apply Heok.
        -- rewrite (falsy_entries _ E) in He. destruct He.
    + destruct e; try contradiction; (split; [discriminate|]; split; intros []).
  - split; [discriminate|]. split; [intros []|].
    intros H. destruct (Heerr H) as [x [Hx Hm]]. right. right. right. exists x.
    split; [|assumption].
    destruct Hedges as [[_ E]|[_ E]]; [rewrite E; exact Hx | subst; destruct Hx].
Qed.

(** On a root mapping whose conversions succeed the parser returns or
    raises [ParseError]. *)
Lemma parse_document_converts raw :
  root_converts repr dict_of_list int_of_str raw ->
  is_ok (parser.parse_document repr int_of_str dict_of_list raw) \/
  is_parse_error (parser.parse_document repr int_of_str dict_of_list raw).
Proof.
  intros [Hv [[flow_id Hid] [[tenant Hten] [Htasks [Hedges Hpolicy]]]]].
  unfold parser.parse_document.
  destruct (py_int int_of_str (dict_get_default "version" (PyInt 1) raw)) as [version|e|];
    simpl in Hv; try contradiction.
  cbn [bind]. rewrite Hid, Hten. cbn [bind]. unfold parser._require_list.
  destruct (dict_get_default "tasks" PyNone raw) as [|b|z|f|s|raw_tasks|d];
    cbn [bind]; try (right; exact I).
  simpl in Htasks.
  destruct (parse_tasks_converts raw_tasks [] Htasks) as [H|H];
    destruct (for_each (parser.parse_task repr dict_of_list) raw_tasks []) as [tasks|e|];
    simpl in H; try contradiction; cbn [bind]; [|right; exact H].
  clear H.
  destruct (py_or (dict_get_default "edges" PyNone raw) (PyList []))
    as [|b|z|f|s|raw_edges|d] eqn:E; try (right; exact I).
  assert (He : Forall (edge_converts repr) raw_edges).
  { destruct (py_or_list _ _ E) as [[_ Hl]|[_ Hl]].
    - rewrite Hl in Hedges. exact Hedges.
    - rewrite Hl. constructor. }
  destruct (parse_edges_converts raw_edges [] He) as [H|H];
    destruct (for_each (parser.parse_edge repr) raw_edges []) as [edges|e|];
    simpl in H; try contradiction; cbn [bind]; [|right; exact H].
  pose proof (parse_policy_converts _ Hpolicy) as Hp.
  destruct (parser.parse_policy repr _) as [policy|e|]; simpl in Hp; try contradiction.
  left. exact I.
Qed.
End ParserFacts.

(** ** C6: when the parser raises ParseError *)

(** C6, as stated, fails.  On the text [{tasks: [], edges: 0}] the field
    edges is present and is not a sequence, yet the parser returns a
    document: [raw.get("edges") or []] reads every falsy value as no edges. *)
Lemma edges_zero_counterexample :
  exists raw,
    sample_load "{tasks: [], edges: 0}" = Loaded (PyDict raw) /\
    dict_get "edges" raw = Some (PyInt 0) /\
    ~ is_sequence (PyInt 0) /\
    exists doc,
      parser.parse_yaml sample_load sample_repr decimal_int sample_dict_of_list
        "{tasks: [], edges: 0}" = Ok doc.
Proof.
  eexists. split; [reflexivity|]. split; [reflexivity|]. split; [simpl; tauto|].
  eexists. reflexivity.
Qed.

(** Exceptions of other types can leave the parser: on
    [{version: [], tasks: []}] the call [int([])] raises [TypeError], which
    [parse_yaml] does not wrap. *)
Lemma version_list_escapes :
  parser.parse_yaml sample_load sample_repr decimal_int sample_dict_of_list
    "{version: [], tasks: []}" = Raise TypeError.
Proof. reflexivity. Qed.

(** An exception of the loader that is no [YAMLError] leaves the parser
    as it is. *)
Lemma loader_exception_escapes safe_load repr int_of_str dict_of_list src e :
  safe_load src = LoaderRaises e ->
  parser.parse_yaml safe_load repr int_of_str dict_of_list src
  = Raise (loader_error e).
Proof.
  intros H. unfold parser.parse_yaml. now rewrite H.
Qed.

(** C6 (amended).  The parser fails with [ParseError] only when the YAML
    syntax is malformed, the document root is not a mapping, the field
    tasks is absent or not a sequence, the field edges holds a truthy
    value that is not a sequence (a falsy value is read as no edges), or a
    task or edge entry is not a mapping; and it returns a FlowDocument
    only when none of these holds.  On every input text that the loader
    loads or rejects as malformed, and whose loaded value passes the
    conversions that the parser applies ([int] of the version, [str] of
    id, tenant, names, agents, edge endpoints and risk level, [dict] of
    input, resources and labels, [.get] on the policy), the parser
    either returns a FlowDocument or fails with [ParseError], and it
    fails with [ParseError] exactly in the cases listed. *)
Theorem parse_error_exactly
  (safe_load : string -> load_result) (repr : py_value -> string + repr_exn)
  (int_of_str : string -> option Z)
  (dict_of_list : list py_value -> dict py_value + conversion_exn) (src : string) :
  (is_parse_error (parser.parse_yaml safe_load repr int_of_str dict_of_list src) ->
   rejected (safe_load src)) /\
  (is_ok (parser.parse_yaml safe_load repr int_of_str dict_of_list src) ->
   ~ rejected (safe_load src)) /\
  (conversions_succeed repr dict_of_list int_of_str (safe_load src) ->
   (is_ok (parser.parse_yaml safe_load repr int_of_str dict_of_list src) \/
    is_parse_error (parser.parse_yaml safe_load repr int_of_str dict_of_list src)) /\
   (is_parse_error (parser.parse_yaml safe_load repr int_of_str dict_of_list src)
    <-> rejected (safe_load src))).
Proof.
  unfold parser.parse_yaml, rejected, conversions_succeed.
  destruct (safe_load src) as [detail|e|raw].
  { simpl. tauto. }
  { destruct e; simpl; tauto. }
  destruct raw as [|b|z|f|s|l|raw]; try (simpl; tauto).
  destruct (parse_document_cases repr int_of_str dict_of_list raw) as [Hfuel [Hok Herr]].
  cbv zeta in Hfuel, Hok, Herr.
  split; [exact Herr|]. split; [exact Hok|].
  intros Hconv.
  pose proof (parse_document_converts repr int_of_str dict_of_list raw Hconv) as Hany.
  split; [exact Hany|]. split; [exact Herr|].
  intros Hbad. destruct Hany as [H|H]; [|exact H].
  exfalso. exact (Hok H Hbad).
Qed.

Lemma parse_error_exactly_witness :
  conversions_succeed sample_repr sample_dict_of_list decimal_int
    (entry_load "{id: x, tasks: [{name: a, agent: b}], edges: [a]}") /\
  rejected (entry_load "{id: x, tasks: [{name: a, agent: b}], edges: [a]}") /\
  is_parse_error
    (parser.parse_yaml entry_load sample_repr decimal_int sample_dict_of_list
       "{id: x, tasks: [{name: a, agent: b}], edges: [a]}").
Proof.
  assert (Hconv : conversions_succeed sample_repr sample_dict_of_list decimal_int
            (entry_load "{id: x, tasks: [{name: a, agent: b}], edges: [a]}")).
  { simpl. unfold root_converts. simpl.
    repeat split; try (eexists; reflexivity); repeat constructor;
      try (eexists; reflexivity). }
  assert (Hbad : rejected
            (entry_load "{id: x, tasks: [{name: a, agent: b}], edges: [a]}")).
  { simpl. right. right. right. exists (PyStr "a"). simpl. tauto. }
  destruct (parse_error_exactly entry_load sample_repr decimal_int sample_dict_of_list
              "{id: x, tasks: [{name: a, agent: b}], edges: [a]}")
    as [_ [_ Hexact]].
  destruct (Hexact Hconv) as [_ [_ Hraise]].
  split; [exact Hconv|]. split; [exact Hbad|]. exact (Hraise Hbad).
Defined.

(** * Further properties of the code *)

(** ** The orderer on flows the validator would not return *)

(** The edge loop stops at the first edge whose target has no in-degree
    entry. *)
Lemma add_edges_key_error es : forall in_degree adj,
  (exists e, In e es /\ ~ In (ir.target e) (dict_keys in_degree)) ->
  exists k, compiler.add_edges es (in_degree, adj) = Raise (KeyError k) /\
            ~ In k (dict_keys in_degree) /\
            exists e, In e es /\ ir.target e = k.
Proof.
  induction es as [|e es IH]; intros in_degree adj [e0 [He0 Hn]]; [destruct He0|].
  simpl. unfold dict_item.
  destruct (dict_get (ir.target e) in_degree) as [d|] eqn:Hd; simpl.
  - assert (Hin : In (ir.target e) (dict_keys in_degree))
      by (apply dict_get_in_keys; eauto).
    destruct He0 as [->|He0]; [contradiction|].
    destruct (IH (dict_set (ir.target e) (d + 1)%Z in_degree)
                 (dict_set (ir.source e)
                    (compiler.adj_get (ir.source e) adj ++ [ir.target e]) adj))
      as [k [Hrun [Hk [e1 [He1 Et]]]]].
    { exists e0. split; [assumption|]. now rewrite dict_keys_set_in. }
    rewrite dict_keys_set_in in Hk by assumption.
    exists k. split; [exact Hrun|]. split; [exact Hk|].
    exists e1. split; [now right | assumption].
  - exists (ir.target e). split; [reflexivity|].
    split; [now apply dict_get_not_in_keys|].
    exists e. split; [now left | reflexivity].
Qed.

Lemma zero_degrees_keys tasks :
  dict_wf tasks -> dict_keys (compiler.zero_degrees tasks) = dict_keys tasks.
Proof.
  intros Hwf. rewrite zero_degrees_eq by assumption.
  unfold dict_keys. rewrite map_map. simpl. apply map_id.
Qed.

(** X1.  The orderer raises nothing but [KeyError], and raises it exactly
    when some edge points to a name that is not a task: the key of the
    error is such a target.  On every other flow, cyclic ones included, it
    returns an order. *)
Theorem orderer_key_error (flow : ir.IRFlow) :
  dict_wf (ir.tasks flow) ->
  match compiler._topological_order flow with
  | Ok _ =>
      forall e, In e (ir.edges flow) -> In (ir.target e) (dict_keys (ir.tasks flow))
  | Raise (KeyError k) =>
      ~ In k (dict_keys (ir.tasks flow)) /\
      exists e, In e (ir.edges flow) /\ ir.target e = k
  | _ => False
  end.
Proof.
  intros Hwf.
  destruct (forallb (fun e => set_mem (ir.target e) (dict_keys (ir.tasks flow)))
                    (ir.edges flow)) eqn:Hall.
  - assert (Hknown : forall e, In e (ir.edges flow) ->
              In (ir.target e) (dict_keys (ir.tasks flow))).
    { intros e He. apply set_mem_In.
      exact (proj1 (forallb_forall _ _) Hall e He). }
    destruct (topological_order_run flow Hwf Hknown) as [order [deg [Hrun _]]].
    rewrite Hrun. exact Hknown.
  - assert (Hbad : exists e, In e (ir.edges flow) /\
              ~ In (ir.target e) (dict_keys (compiler.zero_degrees (ir.tasks flow)))).
    { rewrite zero_degrees_keys by assumption.
      induction (ir.edges flow) as [|e es IH]; simpl in Hall; [discriminate|].
      destruct (set_mem (ir.target e) (dict_keys (ir.tasks flow))) eqn:Hm.
      - destruct (IH Hall) as [e0 [He0 Hn]]. exists e0. split; [now right | assumption].
      - exists e. split; [now left | now apply set_mem_not_In]. }
    destruct (add_edges_key_error _ _ [] Hbad) as [k [Hrun [Hk He]]].
    assert (E : compiler._topological_order flow = Raise (KeyError k)).
    { unfold compiler._topological_order.
      match goal with
      | |- bind ?r _ = _ =>
          replace r with (@Raise (dict Z * dict (list string)) (KeyError k))
            by (symmetry; exact Hrun)
      end. reflexivity. }
    rewrite E. rewrite zero_degrees_keys in Hk by assumption. split; assumption.
Qed.

Lemma orderer_key_error_witness :
  match compiler._topological_order dangling_flow with
  | Ok _ =>
      forall e, In e (ir.edges dangling_flow) ->
                In (ir.target e) (dict_keys (ir.tasks dangling_flow))
  | Raise (KeyError k) =>
      ~ In k (dict_keys (ir.tasks dangling_flow)) /\
      exists e, In e (ir.edges dangling_flow) /\ ir.target e = k
  | _ => False
  end.
Proof.
  apply (orderer_key_error dangling_flow).
  unfold dict_wf. simpl. constructor; [intros [] | constructor].
Defined.

Lemma index_Some_In x l i : index x l = Some i -> In x l.
Proof.
  revert i. induction l as [|y l IH]; simpl; intros i H; [discriminate|].
  destruct (String.eqb_spec y x) as [E|E]; [now left|].
  destruct (index x l) as [j|]; [|discriminate]. right. now apply (IH j).
Qed.

(** Along a path, positions in the order grow. *)
Lemma path_index edges order :
  NoDup order -> sources_first edges order ->
  forall u v, clos_trans string (arc edges) u v -> In v order ->
  exists i j, index u order = Some i /\ index v order = Some j /\ i < j.
Proof.
  intros Hnd Hsrc u v Hpath.
  induction Hpath as [u v Harc | u w v _ IH1 _ IH2]; intros Hv.
  - now apply (sources_first_index edges).
  - destruct (IH2 Hv) as [j [k [Hj [Hk Hjk]]]].
    destruct (IH1 (index_Some_In _ _ _ Hj)) as [i [j' [Hi [Hj' Hij]]]].
    assert (j' = j) by congruence. subst j'.
    exists i, k. repeat split; try assumption. lia.
Qed.

(** X2.  On a flow whose edge targets are tasks the orderer always
    returns, also when the graph has a cycle.  The order has no duplicates
    and holds task names only; a task is in it exactly when all its
    predecessors are, each of them at an earlier position; no task on a
    cycle is in it, so a cyclic flow yields fewer names than it has tasks. *)
Theorem orderer_drops_cycles (flow : ir.IRFlow) :
  dict_wf (ir.tasks flow) ->
  (forall e, In e (ir.edges flow) -> In (ir.target e) (dict_keys (ir.tasks flow))) ->
  exists order,
    compiler._topological_order flow = Ok order /\
    NoDup order /\
    incl order (dict_keys (ir.tasks flow)) /\
    (forall v, In v (dict_keys (ir.tasks flow)) ->
       (In v order <-> forall u, arc (ir.edges flow) u v -> In u order)) /\
    (forall u v, arc (ir.edges flow) u v -> In v order ->
       exists i j, index u order = Some i /\ index v order = Some j /\ i < j) /\
    (forall v, on_cycle (ir.edges flow) v -> ~ In v order) /\
    ((exists v, In v (dict_keys (ir.tasks flow)) /\ on_cycle (ir.edges flow) v) ->
     length order < length (ir.tasks flow)).
Proof.
  intros Hwf Htargets.
  destruct (topological_order_run flow Hwf Htargets)
    as [order [deg [Hrun [_ _ Hnd Hknown Hready Hsrc]]]].
  rewrite app_nil_r in Hnd, Hknown.
  assert (Hcyc : forall v, on_cycle (ir.edges flow) v -> ~ In v order).
  { intros v Hv Hin.
    destruct (path_index _ _ Hnd Hsrc v v Hv Hin) as [i [j [Hi [Hj Hlt]]]].
    assert (i = j) by congruence. lia. }
  exists order. split; [exact Hrun|]. split; [exact Hnd|]. split; [exact Hknown|].
  split; [|split; [|split]].
  - intros v Hv. specialize (Hready v Hv). rewrite app_nil_r in Hready. split.
    + intros Hin u Harc.
      destruct (in_dec string_dec u order) as [Hu|Hu]; [assumption|].
      exfalso. apply (arc_pending _ u v order Harc Hu). now apply Hready.
    + intros Hpreds. apply Hready.
      destruct (Nat.eq_dec (pending (ir.edges flow) order v) 0) as [E|E]; [assumption|].
      exfalso. destruct (pending_arc _ v order E) as [u [Harc Hu]].
      apply Hu. now apply Hpreds.
  - intros u v Harc Hv. now apply (sources_first_index (ir.edges flow)).
  - exact Hcyc.
  - intros [v [Hv Hon]].
    assert (Hnd' : NoDup (v :: order)) by (constructor; [now apply Hcyc | assumption]).
    assert (Hincl : incl (v :: order) (dict_keys (ir.tasks flow))).
    { intros x [<-|Hx]; [assumption | now apply Hknown]. }
    pose proof (NoDup_incl_length Hnd' Hincl) as Hlen.
    unfold dict_keys in Hlen. rewrite length_map in Hlen. simpl in Hlen. lia.
Qed.

Lemma orderer_drops_cycles_witness :
  exists order,
    compiler._topological_order cyclic_flow = Ok order /\
    NoDup order /\
    incl order (dict_keys (ir.tasks cyclic_flow)) /\
    (forall v, In v (dict_keys (ir.tasks cyclic_flow)) ->
       (In v order <-> forall u, arc (ir.edges cyclic_flow) u v -> In u order)) /\
    (forall u v, arc (ir.edges cyclic_flow) u v -> In v order ->
       exists i j, index u order = Some i /\ index v order = Some j /\ i < j) /\
    (forall v, on_cycle (ir.edges cyclic_flow) v -> ~ In v order) /\
    ((exists v, In v (dict_keys (ir.tasks cyclic_flow)) /\
                on_cycle (ir.edges cyclic_flow) v) ->
     length order < length (ir.tasks cyclic_flow)).
Proof.
  apply (orderer_drops_cycles cyclic_flow).
  - unfold dict_wf. simpl.
    repeat (constructor; [simpl; intuition discriminate|]). constructor.
  - intros e He. simpl in He. simpl.
    repeat (destruct He as [<-|He]; [simpl; tauto|]). destruct He.
Defined.

Lemma string_leb_total a b : String.leb a b = true \/ String.leb b a = true.
Proof.
  rewrite !string_leb_cases. rewrite (String.compare_antisym b a).
  destruct (String.compare a b) eqn:E; simpl; auto.
  apply String.compare_eq_iff in E. auto.
Qed.

Lemma string_leb_antisym a b :
  String.leb a b = true -> String.leb b a = true -> a = b.
Proof.
  rewrite !string_leb_cases. rewrite (String.compare_antisym b a).
  intros [E|E] [E'|E']; auto. rewrite E in E'. discriminate.
Qed.

(** X3.  On a flow without edges the order is the task names in
    ascending order, whatever the order in which the tasks were declared. *)
Theorem orderer_without_edges (flow : ir.IRFlow) :
  dict_wf (ir.tasks flow) ->
  ir.edges flow = [] ->
  compiler._topological_order flow
  = Ok (sorted String.leb (dict_keys (ir.tasks flow))).
Proof.
  intros Hwf Hnone.
  assert (Htargets : forall e, In e (ir.edges flow) ->
            In (ir.target e) (dict_keys (ir.tasks flow)))
    by (rewrite Hnone; intros e []).
  destruct (topological_order_run flow Hwf Htargets)
    as [order [deg [Hrun [_ _ Hnd Hknown Hready _]]]].
  destruct (topological_order_fifo flow Hwf Htargets) as [order' [Hrun' Hfifo]].
  assert (order' = order) by congruence. subst order'.
  rewrite app_nil_r in Hnd, Hknown. rewrite Hrun. f_equal.
  apply (sorted_perm_unique String.leb string_leb_antisym).
  - apply StronglySorted_impl_in with (R := fifo_before (ir.edges flow) order);
      [|exact Hfifo].
    intros x y _ _ [Hlt|[_ Hlt]].
    + rewrite Hnone in Hlt. unfold ready_at in Hlt. simpl in Hlt. lia.
    + now apply string_ltb_leb in Hlt.
  - apply sorted_sorted; [exact string_leb_total | exact string_leb_trans].
  - rewrite sorted_perm. apply NoDup_Permutation; [assumption | exact Hwf |].
    intros v. split; [apply Hknown|]. intros Hv.
    specialize (Hready v Hv). rewrite app_nil_r in Hready. apply Hready.
    rewrite Hnone. reflexivity.
Qed.

Lemma orderer_without_edges_witness :
  dict_keys (ir.tasks unordered_flow) = ["b"; "c"; "a"] /\
  compiler._topological_order unordered_flow
  = Ok (sorted String.leb (dict_keys (ir.tasks unordered_flow))) /\
  sorted String.leb (dict_keys (ir.tasks unordered_flow)) = ["a"; "b"; "c"].
Proof.
  split; [reflexivity|]. split; [|reflexivity].
  apply (orderer_without_edges unordered_flow); [|reflexivity].
  unfold dict_wf. simpl.
  repeat constructor; simpl; intuition discriminate.
Defined.

Lemma Permutation_filter_same {A} (keep : A -> bool) l1 l2 :
  Permutation l1 l2 -> Permutation (filter keep l1) (filter keep l2).
Proof.
  induction 1 as [|x l1 l2 _ IH|x y l|l1 l2 l3 _ IH1 _ IH2]; simpl.
  - constructor.
  - destruct (keep x); [now constructor | assumption].
  - destruct (keep x), (keep y); try reflexivity. apply perm_swap.
  - now transitivity (filter keep l2).
Qed.

Lemma filter_map_comm {A B} (f : A -> B) (keep : B -> bool) l :
  filter keep (map f l) = map f (filter (fun x => keep (f x)) l).
Proof.
  induction l as [|x l IH]; simpl; [reflexivity|].
  destruct (keep (f x)); simpl; now rewrite IH.
Qed.

(** In-degrees and successor lists depend on the endpoints of the edges
    only, up to the order of the successors. *)
Lemma pending_endpoints es1 es2 emitted v :
  Permutation (map endpoints es1) (map endpoints es2) ->
  pending es1 emitted v = pending es2 emitted v.
Proof.
  intros Hp. unfold pending.
  pose proof (Permutation_filter_same
                (fun p => String.eqb (snd p) v && negb (set_mem (fst p) emitted))
                _ _ Hp) as Hf.
  rewrite !filter_map_comm in Hf. apply Permutation_length in Hf.
  now rewrite !length_map in Hf.
Qed.

Lemma targets_endpoints es1 es2 u :
  Permutation (map endpoints es1) (map endpoints es2) ->
  Permutation (targets_of es1 u) (targets_of es2 u).
Proof.
  intros Hp. unfold targets_of.
  pose proof (Permutation_filter_same (fun p => String.eqb (fst p) u) _ _ Hp) as Hf.
  rewrite !filter_map_comm in Hf. apply (Permutation_map snd) in Hf.
  now rewrite !map_map in Hf.
Qed.

Lemma sorted_of_perm l1 l2 :
  Permutation l1 l2 -> sorted String.leb l1 = sorted String.leb l2.
Proof.
  intros Hp. apply (sorted_perm_unique String.leb string_leb_antisym).
  - apply sorted_sorted; [exact string_leb_total | exact string_leb_trans].
  - apply sorted_sorted; [exact string_leb_total | exact string_leb_trans].
  - now rewrite !sorted_perm.
Qed.

Lemma drain_same fuel adj1 adj2 : forall d1 d2 queue order,
  (forall u, sorted String.leb (compiler.adj_get u adj1)
             = sorted String.leb (compiler.adj_get u adj2)) ->
  dict_equiv d1 d2 ->
  compiler.drain fuel adj1 d1 queue order = compiler.drain fuel adj2 d2 queue order.
Proof.
  induction fuel as [|fuel IH]; intros d1 d2 queue order Hadj He;
    destruct queue as [|node queue]; simpl; try reflexivity.
  rewrite <- (Hadj node).
  pose proof (release_equiv (sorted String.leb (compiler.adj_get node adj1))
                d1 d2 queue He) as Hr.
  destruct (compiler.release _ d1 queue) as [[d1' q1]|e1|];
    destruct (compiler.release _ d2 queue) as [[d2' q2]|e2|];
    simpl in Hr; try contradiction; simpl.
  - destruct Hr as [He' ->]. now apply IH.
  - now subst.
  - reflexivity.
Qed.

Lemma zero_degrees_get tasks k :
  dict_wf tasks -> In k (dict_keys tasks) ->
  dict_get k (compiler.zero_degrees tasks) = Some 0%Z.
Proof.
  intros Hwf Hk. rewrite zero_degrees_eq by assumption. rewrite dict_get_const.
  destruct (in_dec string_dec k (dict_keys tasks)); [reflexivity | contradiction].
Qed.

(** X4.  The order depends on the graph only: two flows with the same
    task names, in any declaration order, and the same source/target
    pairs, in any declaration order and with any conditions, get the same
    order, whatever their ids, agents, priorities, timeouts and labels. *)
Theorem order_from_graph (flow1 flow2 : ir.IRFlow) :
  dict_wf (ir.tasks flow1) -> dict_wf (ir.tasks flow2) ->
  (forall e, In e (ir.edges flow1) -> In (ir.target e) (dict_keys (ir.tasks flow1))) ->
  Permutation (dict_keys (ir.tasks flow1)) (dict_keys (ir.tasks flow2)) ->
  Permutation (map endpoints (ir.edges flow1)) (map endpoints (ir.edges flow2)) ->
  compiler._topological_order flow1 = compiler._topological_order flow2.
Proof.
  intros H1 H2 Ht1 Hkeys Hedges.
  assert (Ht2 : forall e, In e (ir.edges flow2) ->
            In (ir.target e) (dict_keys (ir.tasks flow2))).
  { intros e He. apply (Permutation_in _ Hkeys).
    assert (Hin : In (endpoints e) (map endpoints (ir.edges flow1))).
    { apply (Permutation_in _ (Permutation_sym Hedges)). now apply in_map. }
    apply in_map_iff in Hin. destruct Hin as [e' [E He']].
    injection E as _ Etgt. rewrite <- Etgt. now apply Ht1. }
  destruct (add_edges_spec (ir.edges flow1) (compiler.zero_degrees (ir.tasks flow1)) [])
    as [deg1 [adj1 [Hrun1 [Hk1 [Hdeg1 Hadj1]]]]].
  { intros e He. rewrite zero_degrees_keys by assumption. now apply Ht1. }
  destruct (add_edges_spec (ir.edges flow2) (compiler.zero_degrees (ir.tasks flow2)) [])
    as [deg2 [adj2 [Hrun2 [Hk2 [Hdeg2 Hadj2]]]]].
  { intros e He. rewrite zero_degrees_keys by assumption. now apply Ht2. }
  rewrite zero_degrees_keys in Hk1, Hk2 by assumption.
  assert (Hw1 : dict_wf deg1) by (unfold dict_wf; now rewrite Hk1).
  assert (Hw2 : dict_wf deg2) by (unfold dict_wf; now rewrite Hk2).
  assert (He : dict_equiv deg1 deg2).
  { intros k. destruct (in_dec string_dec k (dict_keys (ir.tasks flow1))) as [Hk|Hk].
    - rewrite (Hdeg1 k 0%Z) by now apply zero_degrees_get.
      rewrite (Hdeg2 k 0%Z)
        by (apply zero_degrees_get; [assumption | now apply (Permutation_in _ Hkeys)]).
      now rewrite (pending_endpoints _ _ [] k Hedges).
    - assert (Hk' : ~ In k (dict_keys (ir.tasks flow2))).
      { intros H. apply Hk. now apply (Permutation_in _ (Permutation_sym Hkeys)). }
      rewrite <- Hk1 in Hk. rewrite <- Hk2 in Hk'.
      apply dict_get_not_in_keys in Hk, Hk'. congruence. }
  assert (Hlen : length (ir.tasks flow1) = length (ir.tasks flow2)).
  { pose proof (Permutation_length Hkeys) as Hl. unfold dict_keys in Hl.
    now rewrite !length_map in Hl. }
  unfold compiler._topological_order.
  match goal with
  | |- bind ?r1 _ = bind ?r2 _ =>
      replace r1 with (@Ok (dict Z * dict (list string)) (deg1, adj1))
        by (symmetry; exact Hrun1);
      replace r2 with (@Ok (dict Z * dict (list string)) (deg2, adj2))
        by (symmetry; exact Hrun2)
  end.
  cbn [bind]. rewrite (seed_equiv deg1 deg2 Hw1 Hw2 He), Hlen.
  apply drain_same; [|exact He].
  intros u. apply sorted_of_perm. rewrite Hadj1, Hadj2. simpl.
  now apply targets_endpoints.
Qed.

Lemma order_from_graph_witness :
  compiler._topological_order hello_flow
  = compiler._topological_order hello_flow_retuned.
Proof.
  apply (order_from_graph hello_flow hello_flow_retuned).
  - unfold dict_wf. simpl.
    repeat (constructor; [simpl; intuition discriminate|]). constructor.
  - unfold dict_wf. simpl.
    repeat (constructor; [simpl; intuition discriminate|]). constructor.
  - intros e [<-|[]]. simpl. tauto.
  - simpl. apply perm_swap.
  - reflexivity.
Defined.


(** ** What the two artifacts contain *)

(** On a valid flow the order lists every task. *)
Lemma topological_order_complete (flow : ir.IRFlow) :
  valid_IRFlow flow ->
  exists order,
    compiler._topological_order flow = Ok order /\
    Permutation order (dict_keys (ir.tasks flow)) /\
    NoDup order /\ sources_first (ir.edges flow) order.
Proof.
  intros Hvalid.
  destruct (topological_order_run flow (valid_distinct flow Hvalid))
    as [order [deg [Hrun [_ _ Hnd Hknown Hready Hsrc]]]].
  { intros e He. now apply (valid_edges flow Hvalid). }
  rewrite app_nil_r in Hnd, Hknown.
  exists order. split; [exact Hrun|]. split; [|split; assumption].
  apply NoDup_Permutation; [assumption | apply (valid_distinct flow Hvalid) |].
  intros v. split; [apply Hknown|]. intros Hv.
  destruct (in_dec string_dec v order) as [Hin|Hout]; [assumption|]. exfalso.
  apply (backward_closed_empty (arc (ir.edges flow)) (dict_keys (ir.tasks flow))
           (fun x => In x (dict_keys (ir.tasks flow)) /\ ~ In x order)) with (v := v).
  - tauto.
  - intros x [Hx Hnx].
    destruct (pending_arc (ir.edges flow) x order) as [u [Hux Hu]].
    { intros Hz. apply Hnx. apply (Hready x Hx) in Hz. now rewrite app_nil_r in Hz. }
    exists u. split; [split; [|assumption] | assumption].
    destruct Hux as [e [He [Hs _]]]. subst u. now apply (valid_edges flow Hvalid).
  - apply (valid_acyclic flow Hvalid).
  - tauto.
Qed.

(** A list built name by name from the task mapping, over an order
    that lists every task once, holds one entry per task. *)
Lemma built_per_task {B} (tasks : dict ir.IRTask) (f : ir.IRTask -> B)
  (order : list string) (built : list B) :
  dict_wf tasks ->
  Permutation order (dict_keys tasks) ->
  Forall2 (fun name b => exists t, dict_get name tasks = Some t /\ b = f t)
          order built ->
  Permutation built (map (fun item => f (snd item)) tasks).
Proof.
  intros Hwf Hperm Hbuilt.
  assert (Hitems : exists items,
            map fst items = order /\ built = map (fun item => f (snd item)) items /\
            incl items tasks).
  { clear Hperm. induction Hbuilt as [|name b order built [t [Ht ->]] _ IH].
    - exists []. repeat split. intros x [].
    - destruct IH as [items [Ho [Hb Hin]]]. exists ((name, t) :: items).
      simpl. rewrite Ho, Hb. repeat split.
      intros x [<-|Hx]; [now apply dict_get_in | now apply Hin]. }
  destruct Hitems as [items [Ho [-> Hin]]].
  apply Permutation_map. apply NoDup_Permutation_bis.
  - apply (NoDup_map_inv fst). rewrite Ho.
    apply (Permutation_NoDup (Permutation_sym Hperm)). exact Hwf.
  - pose proof (Permutation_length Hperm) as Hlen.
    rewrite <- Ho in Hlen. unfold dict_keys in Hlen. rewrite !length_map in Hlen. lia.
  - exact Hin.
Qed.

(** X5.  On a valid flow the task-payload projection returns one payload
    per task of the flow, none missing and none twice. *)
Theorem one_payload_per_task (flow : ir.IRFlow) :
  valid_IRFlow flow ->
  exists payloads,
    compiler.ir_to_monolith_tasks flow = Ok payloads /\
    Permutation payloads
      (map (fun item => compiler.monolith_payload flow (snd item)) (ir.tasks flow)).
Proof.
  intros Hvalid.
  destruct (topological_order_complete flow Hvalid) as [order [Hrun [Hperm _]]].
  destruct (projections_total flow order) as [[payloads Hps] _].
  { intros v Hv. now apply (Permutation_in v Hperm). }
  exists payloads. unfold compiler.ir_to_monolith_tasks. rewrite Hrun. simpl.
  split; [exact Hps|].
  apply (built_per_task (ir.tasks flow) (compiler.monolith_payload flow) order).
  - apply (valid_distinct flow Hvalid).
  - exact Hperm.
  - now apply monolith_payloads_spec.
Qed.

Lemma one_payload_per_task_witness :
  exists payloads,
    compiler.ir_to_monolith_tasks hello_flow = Ok payloads /\
    Permutation payloads
      (map (fun item => compiler.monolith_payload hello_flow (snd item))
           (ir.tasks hello_flow)).
Proof. apply (one_payload_per_task hello_flow). exact hello_flow_valid. Defined.

(** X6.  On a valid flow the DAG-spec projection returns a mapping with
    the keys id, tenant, policy, tasks and edges, in this order; the policy
    has the three fields of the flow's policy; the edges are the flow's
    edges in declaration order (they are not reordered); the tasks hold
    one entry per task of the flow. *)
Theorem waterfall_spec_contents (flow : ir.IRFlow) :
  valid_IRFlow flow ->
  exists tasks,
    compiler.ir_to_waterfall_spec flow
    = Ok (PyDict [
        ("id", PyStr (ir.id flow));
        ("tenant", PyStr (ir.tenant flow));
        ("policy", PyDict [
           ("risk_level", PyStr (ir.risk_level (ir.policy flow)));
           ("requires_approval", PyBool (ir.requires_approval (ir.policy flow)));
           ("retention", ir.retention (ir.policy flow))]);
        ("tasks", PyList tasks);
        ("edges", PyList (map compiler.waterfall_edge (ir.edges flow)))]) /\
    Permutation tasks
      (map (fun item => compiler.waterfall_task (snd item)) (ir.tasks flow)).
Proof.
  intros Hvalid.
  destruct (topological_order_complete flow Hvalid) as [order [Hrun [Hperm _]]].
  destruct (projections_total flow order) as [_ [tasks Hts]].
  { intros v Hv. now apply (Permutation_in v Hperm). }
  exists tasks. unfold compiler.ir_to_waterfall_spec. rewrite Hrun. simpl.
  rewrite Hts. simpl. split; [reflexivity|].
  apply (built_per_task (ir.tasks flow) compiler.waterfall_task order).
  - apply (valid_distinct flow Hvalid).
  - exact Hperm.
  - now apply waterfall_tasks_spec.
Qed.

Lemma waterfall_spec_contents_witness :
  exists tasks,
    compiler.ir_to_waterfall_spec hello_flow
    = Ok (PyDict [
        ("id", PyStr (ir.id hello_flow));
        ("tenant", PyStr (ir.tenant hello_flow));
        ("policy", PyDict [
           ("risk_level", PyStr (ir.risk_level (ir.policy hello_flow)));
           ("requires_approval", PyBool (ir.requires_approval (ir.policy hello_flow)));
           ("retention", ir.retention (ir.policy hello_flow))]);
        ("tasks", PyList tasks);
        ("edges", PyList (map compiler.waterfall_edge (ir.edges hello_flow)))]) /\
    Permutation tasks
      (map (fun item => compiler.waterfall_task (snd item)) (ir.tasks hello_flow)).
Proof. apply (waterfall_spec_contents hello_flow). exact hello_flow_valid. Defined.

Lemma index_nth_error x l i : index x l = Some i -> nth_error l i = Some x.
Proof.
  revert i. induction l as [|y l IH]; simpl; intros i H; [discriminate|].
  destruct (String.eqb_spec y x) as [E|E].
  - injection H as <-. now subst.
  - destruct (index x l) as [j|]; [|discriminate]. injection H as <-.
    simpl. now apply IH.
Qed.

Lemma Forall2_nth {A B} (R : A -> B -> Prop) l1 l2 :
  Forall2 R l1 l2 ->
  forall i a, nth_error l1 i = Some a -> exists b, nth_error l2 i = Some b /\ R a b.
Proof.
  induction 1 as [|x y l1 l2 Hxy _ IH]; intros i a Hi.
  - destruct i; discriminate.
  - destruct i as [|i]; simpl in *.
    + injection Hi as <-. eauto.
    + now apply IH.
Qed.

(** X7.  On a valid flow both artifacts list the source of every edge
    before its target: at the same two positions i < j stand the payloads
    of the two tasks in artifact A and their names in artifact B. *)
Theorem artifacts_respect_edges (flow : ir.IRFlow) :
  valid_IRFlow flow ->
  exists payloads spec,
    compiler.ir_to_monolith_tasks flow = Ok payloads /\
    compiler.ir_to_waterfall_spec flow = Ok spec /\
    forall u v, arc (ir.edges flow) u v ->
      exists i j tu tv,
        i < j /\
        dict_get u (ir.tasks flow) = Some tu /\
        dict_get v (ir.tasks flow) = Some tv /\
        nth_error payloads i = Some (compiler.monolith_payload flow tu) /\
        nth_error payloads j = Some (compiler.monolith_payload flow tv) /\
        nth_error (spec_task_names spec) i = Some (Some (PyStr u)) /\
        nth_error (spec_task_names spec) j = Some (Some (PyStr v)).
Proof.
  intros Hvalid.
  destruct (topological_order_complete flow Hvalid)
    as [order [Hrun [Hperm [Hnd Hsrc]]]].
  destruct (projections_total flow order) as [[payloads Hps] [tasks Hts]].
  { intros v Hv. now apply (Permutation_in v Hperm). }
  exists payloads. eexists.
  unfold compiler.ir_to_monolith_tasks, compiler.ir_to_waterfall_spec.
  rewrite Hrun. simpl. rewrite Hps, Hts. simpl.
  split; [reflexivity|]. split; [reflexivity|].
  apply monolith_payloads_spec in Hps. apply waterfall_tasks_spec in Hts.
  assert (Hat : forall x i, nth_error order i = Some x ->
            exists t, dict_get x (ir.tasks flow) = Some t /\
              nth_error payloads i = Some (compiler.monolith_payload flow t) /\
              nth_error (map (py_get "name") tasks) i = Some (Some (PyStr x))).
  { intros x i Hi.
    destruct (Forall2_nth _ _ _ Hps i x Hi) as [p [Hp [t [Ht ->]]]].
    destruct (Forall2_nth _ _ _ Hts i x Hi) as [w [Hw [t' [Ht' ->]]]].
    assert (t' = t) by congruence. subst t'.
    exists t. split; [assumption|]. split; [assumption|].
    rewrite nth_error_map, Hw. simpl.
    destruct (valid_names flow Hvalid x t (dict_get_in _ _ _ Ht)) as [-> _].
    reflexivity. }
  intros u v Harc.
  assert (Hv : In v order).
  { apply (Permutation_in v (Permutation_sym Hperm)).
    destruct Harc as [e [He [_ <-]]]. now apply (valid_edges flow Hvalid). }
  destruct (sources_first_index (ir.edges flow) order u v Hnd Hsrc Harc Hv)
    as [i [j [Hi [Hj Hlt]]]].
  apply index_nth_error in Hi, Hj.
  destruct (Hat u i Hi) as [tu [Htu [Hpu Hnu]]].
  destruct (Hat v j Hj) as [tv [Htv [Hpv Hnv]]].
  exists i, j, tu, tv. unfold spec_task_names. simpl. tauto.
Qed.

Lemma artifacts_respect_edges_witness :
  exists payloads spec,
    compiler.ir_to_monolith_tasks hello_flow = Ok payloads /\
    compiler.ir_to_waterfall_spec hello_flow = Ok spec /\
    forall u v, arc (ir.edges hello_flow) u v ->
      exists i j tu tv,
        i < j /\
        dict_get u (ir.tasks hello_flow) = Some tu /\
        dict_get v (ir.tasks hello_flow) = Some tv /\
        nth_error payloads i = Some (compiler.monolith_payload hello_flow tu) /\
        nth_error payloads j = Some (compiler.monolith_payload hello_flow tv) /\
        nth_error (spec_task_names spec) i = Some (Some (PyStr u)) /\
        nth_error (spec_task_names spec) j = Some (Some (PyStr v)).
Proof. apply (artifacts_respect_edges hello_flow). exact hello_flow_valid. Defined.

(** X8.  The labels of a payload are the task's own labels plus the three
    derived ones for the keys the task does not define: reading a key
    gives the task's own value if there is one, else the flow id, task
    name or agent for flow_id, task_name and agent, else nothing. *)
Theorem payload_labels (flow : ir.IRFlow) (t : ir.IRTask) (k : string) :
  dict_wf (ir.labels t) ->
  payload_label k (compiler.monolith_payload flow t)
  = match dict_get k (ir.labels t) with
    | Some v => Some v
    | None =>
        if String.eqb k "flow_id" then Some (PyStr (ir.id flow))
        else if String.eqb k "task_name" then Some (PyStr (ir.name t))
        else if String.eqb k "agent" then Some (PyStr (ir.agent t))
        else None
    end.
Proof.
  intros Hwf. unfold payload_label. simpl.
  destruct (dict_get k (ir.labels t)) as [v|] eqn:Hk.
  - now apply dict_update_get_in.
  - rewrite dict_update_get_out by assumption. simpl.
    rewrite !(String.eqb_sym k). reflexivity.
Qed.

Lemma payload_labels_witness :
  payload_label "team"
    (compiler.monolith_payload alias_flow
       {| ir.name := "t1"; ir.agent := "a1"; ir.input := [];
          ir.priority := 0; ir.timeout_ms := 10000;
          ir.labels := [("task_name", PyStr "alias"); ("team", PyStr "core")] |})
  = Some (PyStr "core").
Proof.
  apply (payload_labels alias_flow
           {| ir.name := "t1"; ir.agent := "a1"; ir.input := [];
              ir.priority := 0; ir.timeout_ms := 10000;
              ir.labels := [("task_name", PyStr "alias"); ("team", PyStr "core")] |}
           "team").
  unfold dict_wf. simpl.
  repeat (constructor; [simpl; intuition discriminate|]). constructor.
Defined.

(** ** From document to artifacts *)

(** X9.  Every flow the validator returns compiles: neither projection
    raises, and each artifact lists as many tasks as the document
    declares, artifact B as many edges as the document declares. *)
Theorem validated_document_compiles int_of_str repr set_iter recursion_limit doc flow :
  (forall s, Permutation (set_iter s) s) ->
  validator.validate_and_normalize int_of_str repr set_iter recursion_limit doc = Ok flow ->
  exists payloads spec tasks edges,
    compiler.ir_to_monolith_tasks flow = Ok payloads /\
    compiler.ir_to_waterfall_spec flow = Ok spec /\
    length payloads = length (grammar.tasks doc) /\
    py_get "tasks" spec = Some (PyList tasks) /\
    length tasks = length (grammar.tasks doc) /\
    py_get "edges" spec = Some (PyList edges) /\
    length edges = length (grammar.edges doc).
Proof.
  intros Hiter Hrun.
  pose proof (validated_flow_valid int_of_str repr set_iter recursion_limit Hiter
                doc flow Hrun) as Hvalid.
  pose proof (validate_cases int_of_str repr set_iter recursion_limit Hiter doc) as Hpost.
  rewrite Hrun in Hpost. simpl in Hpost.
  destruct Hpost as [_ [_ [_ [_ [Eedges [_ [Ekeys _]]]]]]].
  destruct (topological_order_complete flow Hvalid) as [order [Horder [Hperm _]]].
  destruct (projections_total flow order) as [[payloads Hps] [tasks Hts]].
  { intros v Hv. now apply (Permutation_in v Hperm). }
  assert (Hlen : length order = length (grammar.tasks doc)).
  { rewrite (Permutation_length Hperm), Ekeys. unfold task_names. apply length_map. }
  exists payloads. eexists. exists tasks. eexists.
  unfold compiler.ir_to_monolith_tasks, compiler.ir_to_waterfall_spec.
  rewrite Horder. simpl. rewrite Hps, Hts. simpl.
  split; [reflexivity|]. split; [reflexivity|].
  apply monolith_payloads_spec, Forall2_length in Hps.
  apply waterfall_tasks_spec, Forall2_length in Hts.
  split; [congruence|]. split; [reflexivity|]. split; [congruence|].
  split; [reflexivity|].
  rewrite length_map, Eedges. unfold doc_edges. apply length_map.
Qed.

Lemma validated_document_compiles_witness :
  exists payloads spec tasks edges,
    compiler.ir_to_monolith_tasks hello_flow = Ok payloads /\
    compiler.ir_to_waterfall_spec hello_flow = Ok spec /\
    length payloads = length (grammar.tasks hello_doc) /\
    py_get "tasks" spec = Some (PyList tasks) /\
    length tasks = length (grammar.tasks hello_doc) /\
    py_get "edges" spec = Some (PyList edges) /\
    length edges = length (grammar.edges hello_doc).
Proof.
  apply (validated_document_compiles decimal_int sample_repr insertion_order
           default_limit hello_doc hello_flow).
  - exact insertion_order_perm.
  - vm_compute. reflexivity.
Defined.

(** ** What the validator accepts and returns *)

(** X10.  The validator returns a flow only on documents that pass every
    structural rule and whose edges form no cycle.  When every path
    through distinct tasks has fewer tasks than the recursion limit leaves
    room for nested calls of the traversal, it returns a flow on every
    such document, whatever the order in which the adjacency sets are
    iterated; so there it returns a flow exactly on these documents. *)
Theorem validation_accepts_exactly int_of_str repr set_iter recursion_limit doc :
  (forall s, Permutation (set_iter s) s) ->
  ((exists flow,
      validator.validate_and_normalize int_of_str repr set_iter recursion_limit doc
      = Ok flow) ->
   passes_structural int_of_str doc /\ acyclic (doc_edges doc)) /\
  (shallow (doc_edges doc) recursion_limit ->
   ((exists flow,
       validator.validate_and_normalize int_of_str repr set_iter recursion_limit doc
       = Ok flow)
    <-> passes_structural int_of_str doc /\ acyclic (doc_edges doc))).
Proof.
  intros Hiter.
  assert (Honly : (exists flow,
             validator.validate_and_normalize int_of_str repr set_iter
               recursion_limit doc = Ok flow) ->
           passes_structural int_of_str doc /\ acyclic (doc_edges doc)).
  { intros [flow Hrun].
    pose proof (validate_cases int_of_str repr set_iter recursion_limit Hiter doc)
      as Hpost.
    rewrite Hrun in Hpost. simpl in Hpost. tauto. }
  split; [exact Honly|]. intros Hroom. split; [exact Honly|].
  intros [Hpass Hacyc].
  destruct (validate_structural int_of_str repr set_iter recursion_limit Hiter doc Hpass)
    as [[_ Hok]|[[n [_ Hn]]|[_ Hfull]]]; [exact Hok | |].
  - exfalso. exact (Hacyc n Hn).
  - exfalso. exact (shallow_not_deep _ _ Hroom Hfull).
Qed.

Lemma validation_accepts_exactly_witness :
  (exists flow,
     validator.validate_and_normalize decimal_int sample_repr insertion_order
       default_limit hello_doc = Ok flow)
  <-> passes_structural decimal_int hello_doc /\ acyclic (doc_edges hello_doc).
Proof.
  apply (validation_accepts_exactly decimal_int sample_repr insertion_order
           default_limit hello_doc).
  - exact insertion_order_perm.
  - apply (shallow_by_count _ (task_names hello_doc));
      [|unfold default_limit; simpl; lia..].
    intros x Hx. simpl in Hx.
    repeat (destruct Hx as [<-|Hx]; [simpl; tauto|]). destruct Hx.
Defined.

Lemma dict_set_fresh {V} k (v : V) d :
  ~ In k (dict_keys d) -> dict_set k v d = d ++ [(k, v)].
Proof.
  induction d as [|[k0 v0] d IH]; simpl; intros H; [reflexivity|].
  destruct (String.eqb_spec k0 k); [tauto|]. f_equal. apply IH. tauto.
Qed.

(** The task loop appends one normalized entry per task. *)
Lemma tasks_loop_added int_of_str repr ts : forall pre ir_tasks,
  dict_keys ir_tasks = map grammar.name pre ->
  tasks_added int_of_str ts ir_tasks
    (for_each (validator.check_task int_of_str repr) ts (map grammar.name pre, ir_tasks)).
Proof.
  induction ts as [|t ts IH]; intros pre ir_tasks Hkeys.
  - simpl. exists []. split; [now rewrite app_nil_r | constructor].
  - cbn [for_each].
    match goal with
    | |- tasks_added _ _ _ (bind ?r _) =>
        pose proof (check_task_cases int_of_str repr t (map grammar.name pre) ir_tasks
                    : check_task_post int_of_str repr _ _ _ r) as Ht;
        destruct r as [[seen1 irt1]|e|]; cbn [bind]; [| exact I | exact I]
    end.
    unfold check_task_post in Ht.
    destruct Ht as [Hok [Hseen [p [z [Hp [Hz [_ Hirt]]]]]]].
    assert (Hfresh : ~ In (grammar.name t) (map grammar.name pre))
      by (destruct Hok as [_ [H _]]; exact H).
    assert (Hseen1 : seen1 = map grammar.name (pre ++ [t])).
    { rewrite Hseen, set_add_fresh by assumption. now rewrite map_app. }
    clear Hseen.
    rewrite dict_set_fresh in Hirt by (rewrite Hkeys; assumption).
    assert (Hkeys1 : dict_keys irt1 = map grammar.name (pre ++ [t])).
    { rewrite Hirt. unfold dict_keys. rewrite !map_app. simpl.
      f_equal. exact Hkeys. }
    specialize (IH (pre ++ [t]) irt1 Hkeys1). subst seen1.
    match goal with
    | |- tasks_added _ _ _ ?r =>
        change (tasks_added int_of_str ts irt1 r) in IH;
        destruct r as [[seen' irt']|e|]; unfold tasks_added in IH |- *;
        [| exact I | exact I]
    end.
    destruct IH as [items [-> Hitems]].
    exists ((grammar.name t, validator.ir_task t p z) :: items).
    split; [rewrite Hirt, <- app_assoc; reflexivity|].
    constructor; [|exact Hitems].
    unfold normalized. simpl. auto 10.
Qed.

(** A successful validation went through both loops and returned the
    flow assembled from their results. *)
Lemma validate_ok_inv int_of_str repr set_iter recursion_limit doc flow :
  validator.validate_and_normalize int_of_str repr set_iter recursion_limit doc = Ok flow ->
  exists seen ir_tasks ir_edges,
    for_each (validator.check_task int_of_str repr) (grammar.tasks doc) ([], [])
    = Ok (seen, ir_tasks) /\
    for_each (validator.check_edge ir_tasks) (grammar.edges doc) [] = Ok ir_edges /\
    flow = {| ir.id := grammar.id doc;
              ir.tenant := grammar.tenant doc;
              ir.tasks := ir_tasks;
              ir.edges := ir_edges;
              ir.policy :=
                {| ir.risk_level := grammar.risk_level (grammar.policy doc);
                   ir.requires_approval := grammar.requires_approval (grammar.policy doc);
                   ir.retention := grammar.retention (grammar.policy doc) |} |}.
Proof.
  unfold validator.validate_and_normalize. intros H.
  destruct (str_empty (strip (grammar.id doc))); [discriminate|].
  destruct (str_empty (strip (grammar.tenant doc))); [discriminate|].
  destruct (match grammar.tasks doc with [] => true | _ => false end); [discriminate|].
  match type of H with
  | bind ?r _ = _ => destruct r as [[seen irt]|e|] eqn:E1; cbn [bind] in H;
                     try discriminate
  end.
  match type of H with
  | bind ?r _ = _ => destruct r as [ir_edges|e|] eqn:E2; cbn [bind] in H;
                     try discriminate
  end.
  destruct (negb (set_mem (grammar.risk_level (grammar.policy doc))
                    validator.VALID_RISK_LEVELS)); [discriminate|].
  match type of H with
  | bind ?r _ = _ => destruct r as [u|e|]; cbn [bind] in H; try discriminate
  end.
  injection H as <-. exists seen, irt, ir_edges.
  split; [reflexivity|]. split; [exact E2 | reflexivity].
Qed.

Lemma edges_loop_ok ir_tasks es : forall ir_edges ir_edges',
  for_each (validator.check_edge ir_tasks) es ir_edges = Ok ir_edges' ->
  ir_edges' = ir_edges ++ map validator.ir_edge es.
Proof.
  intros ir_edges ir_edges' H.
  pose proof (edges_loop_spec ir_tasks es ir_edges) as Hpost.
  rewrite H in Hpost. simpl in Hpost. tauto.
Qed.

(** X11.  A returned flow is the document, normalized: id and tenant
    are copied untrimmed; the task mapping lists the tasks in declaration
    order under their names, with name, agent, input and labels as given
    and priority and timeout_ms converted by [int] from the resources (0
    and 10000 when absent); the edges are copied in declaration order with
    their conditions; the policy keeps risk_level, requires_approval and
    retention. *)
Theorem validated_flow_normalized int_of_str repr set_iter recursion_limit doc flow :
  validator.validate_and_normalize int_of_str repr set_iter recursion_limit doc = Ok flow ->
  ir.id flow = grammar.id doc /\
  ir.tenant flow = grammar.tenant doc /\
  Forall2 (normalized int_of_str) (grammar.tasks doc) (ir.tasks flow) /\
  Forall2 (fun e e' => ir.source e' = grammar.source e /\
                       ir.target e' = grammar.target e /\
                       ir.condition e' = grammar.condition e)
          (grammar.edges doc) (ir.edges flow) /\
  ir.risk_level (ir.policy flow) = grammar.risk_level (grammar.policy doc) /\
  ir.requires_approval (ir.policy flow)
  = grammar.requires_approval (grammar.policy doc) /\
  ir.retention (ir.policy flow) = grammar.retention (grammar.policy doc).
Proof.
  intros Hrun.
  destruct (validate_ok_inv _ _ _ _ _ _ Hrun)
    as [seen [irt [ir_edges [Htasks [Hedges ->]]]]].
  simpl. apply edges_loop_ok in Hedges. subst ir_edges. simpl.
  split; [reflexivity|]. split; [reflexivity|].
  split; [|split; [|repeat split]].
  - pose proof (tasks_loop_added int_of_str repr (grammar.tasks doc) [] [] eq_refl)
      as Hadd.
    simpl in Hadd.
    match type of Hadd with
    | tasks_added _ _ _ ?r =>
        replace r with (@Ok (pyset * dict ir.IRTask) (seen, irt)) in Hadd
          by (symmetry; exact Htasks)
    end.
    destruct Hadd as [items [-> Hitems]]. exact Hitems.
  - clear Hrun.
    induction (grammar.edges doc) as [|e es IH]; simpl; constructor.
    + simpl. repeat split.
    + exact IH.
Qed.

Lemma validated_flow_normalized_witness :
  ir.id hello_flow = grammar.id hello_doc /\
  ir.tenant hello_flow = grammar.tenant hello_doc /\
  Forall2 (normalized decimal_int) (grammar.tasks hello_doc) (ir.tasks hello_flow) /\
  Forall2 (fun e e' => ir.source e' = grammar.source e /\
                       ir.target e' = grammar.target e /\
                       ir.condition e' = grammar.condition e)
          (grammar.edges hello_doc) (ir.edges hello_flow) /\
  ir.risk_level (ir.policy hello_flow) = grammar.risk_level (grammar.policy hello_doc) /\
  ir.requires_approval (ir.policy hello_flow)
  = grammar.requires_approval (grammar.policy hello_doc) /\
  ir.retention (ir.policy hello_flow) = grammar.retention (grammar.policy hello_doc).
Proof.
  apply (validated_flow_normalized decimal_int sample_repr insertion_order
           default_limit hello_doc hello_flow).
  vm_compute. reflexivity.
Defined.

(** X12.  [_int_field] returns the default when the key is absent and
    [int] of the value when that converts.  A [TypeError] or [ValueError]
    of [int] becomes the [ValidationError] that names the task, the key
    and the value, provided [repr] of the value returns; when [repr]
    raises, its exception leaves the handler instead.  The only other
    exception is the [OverflowError] of an infinite float, which passes
    through. *)
Theorem int_field_outcomes int_of_str repr resources key default task_name :
  let val := dict_get_default key (PyInt default) resources in
  (dict_get key resources = None ->
   validator._int_field int_of_str repr resources key default task_name = Ok default) /\
  match validator._int_field int_of_str repr resources key default task_name with
  | Ok z => py_int int_of_str val = Ok z
  | Raise (ValidationError m) =>
      m = NotAnInteger task_name key val /\ not_integer int_of_str val /\
      exists text, repr val = inl text
  | Raise e =>
      (e = OverflowError /\ exists sign, val = PyFloat (S754_infinity sign)) \/
      (not_integer int_of_str val /\ exists x, repr val = inr x /\ e = repr_error x)
  | OutOfFuel => False
  end.
Proof.
  intros val. split.
  - intros Hnone. unfold validator._int_field, dict_get_default.
    rewrite Hnone. reflexivity.
  - unfold validator._int_field. fold val. unfold not_integer.
    destruct (py_int int_of_str val) as [z|e|] eqn:E.
    + reflexivity.
    + pose proof (py_int_outcomes int_of_str val) as H. rewrite E in H.
      destruct e; try contradiction.
      * destruct (repr val) as [text|x].
        -- split; [reflexivity|]. split; [now left | now exists text].
        -- destruct x; simpl; right; (split; [now left | eexists; split; reflexivity]).
      * destruct (repr val) as [text|x].
        -- split; [reflexivity|]. split; [now right | now exists text].
        -- destruct x; simpl; right; (split; [now right | eexists; split; reflexivity]).
      * left. split; [reflexivity|].
        destruct val as [|b|z|f|s|l|d]; simpl in E; try discriminate.
        -- destruct f; simpl in E; try discriminate. eauto.
        -- destruct (int_of_str s); discriminate.
    + pose proof (py_int_outcomes int_of_str val) as H. rewrite E in H. contradiction.
Qed.

(** On [long_int_doc] the message of the [ValidationError] cannot be
    formatted, and the [ValueError] of [repr] leaves the validator. *)
Lemma repr_failure_escapes :
  validator._int_field decimal_int sample_repr
    [("timeout_ms", PyList [PyInt (10 ^ 4300)])] "timeout_ms"
    validator.DEFAULT_TIMEOUT_MS "t1"
  = Raise ValueError /\
  validator.validate_and_normalize decimal_int sample_repr insertion_order
    default_limit long_int_doc
  = Raise ValueError.
Proof. split; vm_compute; reflexivity. Qed.

(** X20.  For every document that passes the structural rules, whose
    edges form a directed cycle of any length, and in whose graph every
    path through distinct tasks has fewer tasks than the recursion limit
    leaves room for nested calls of the traversal, validation fails with
    the cycle [ValidationError], and the task its message names lies on a
    cycle of the dependency graph.  This holds for every order in which
    the adjacency sets are iterated. *)
Theorem cycle_rejected_within_limit int_of_str repr set_iter recursion_limit doc :
  (forall s, Permutation (set_iter s) s) ->
  passes_structural int_of_str doc ->
  shallow (doc_edges doc) recursion_limit ->
  (exists c, cycle (doc_edges doc) c) ->
  exists n,
    validator.validate_and_normalize int_of_str repr set_iter recursion_limit doc
    = Raise (ValidationError (CycleAt n)) /\
    on_cycle (doc_edges doc) n.
Proof.
  intros Hperm Hpass Hroom [c Hc].
  destruct (validate_structural int_of_str repr set_iter recursion_limit Hperm doc Hpass)
    as [[Hacyclic _]|[H|[_ Hfull]]]; [|exact H|].
  - exfalso. destruct c as [|v c]; [exact Hc|].
    exact (Hacyclic v (cycle_on_cycle _ v c Hc)).
  - exfalso. exact (shallow_not_deep _ _ Hroom Hfull).
Qed.

Lemma cycle_rejected_within_limit_witness :
  exists n,
    validator.validate_and_normalize decimal_int sample_repr insertion_order
      default_limit two_cycle_doc
    = Raise (ValidationError (CycleAt n)) /\
    on_cycle (doc_edges two_cycle_doc) n.
Proof.
  apply (cycle_rejected_within_limit decimal_int sample_repr insertion_order
           default_limit two_cycle_doc).
  - exact insertion_order_perm.
  - exact two_cycle_doc_passes.
  - apply (shallow_by_count _ (task_names two_cycle_doc));
      [|unfold default_limit; simpl; lia..].
    intros x Hx. simpl in Hx.
    repeat (destruct Hx as [<-|Hx]; [simpl; tauto|]). destruct Hx.
  - exists ["t1"; "t2"].
    simpl. split; [|split; [|exact I]].
    + exists (validator.ir_edge (sample_edge "t1" "t2")). simpl. tauto.
    + exists (validator.ir_edge (sample_edge "t2" "t1")). simpl. tauto.
Defined.

(** X21.  The exceptions of validation.  Besides [ValidationError] the
    validator raises [OverflowError], only when priority or timeout_ms of
    some task is an infinite float; the exception of [repr], only when
    one of them is a non-integer on which [repr] raises it; and
    [RecursionError], otherwise only on a document that passes the
    structural rules and has a path through as many distinct tasks as the
    recursion limit leaves room for nested calls.  It raises nothing
    else. *)
Theorem validation_exceptions int_of_str repr set_iter recursion_limit doc e :
  (forall s, Permutation (set_iter s) s) ->
  validator.validate_and_normalize int_of_str repr set_iter recursion_limit doc
  = Raise e ->
  (exists m, e = ValidationError m) \/
  (e = OverflowError /\
   exists t, In t (grammar.tasks doc) /\ overflows int_of_str t) \/
  (exists x t, e = repr_error x /\ In t (grammar.tasks doc) /\
               repr_raises int_of_str repr x t) \/
  (e = RecursionError /\
   passes_structural int_of_str doc /\ deep (doc_edges doc) recursion_limit).
Proof.
  intros Hperm Hrun.
  pose proof (validate_cases int_of_str repr set_iter recursion_limit Hperm doc) as H.
  rewrite Hrun in H.
  assert (Hother : (e = RecursionError /\
                    passes_structural int_of_str doc /\
                    deep (doc_edges doc) recursion_limit) \/
                   (exists i t, nth_error (grammar.tasks doc) i = Some t /\
                                escapes int_of_str repr e t) ->
                   (e = OverflowError /\
                    exists t, In t (grammar.tasks doc) /\ overflows int_of_str t) \/
                   (exists x t, e = repr_error x /\ In t (grammar.tasks doc) /\
                                repr_raises int_of_str repr x t) \/
                   (e = RecursionError /\
                    passes_structural int_of_str doc /\
                    deep (doc_edges doc) recursion_limit)).
  { intros [Hdeep|[i [t [Hn [[E Hov]|[x [E Hx]]]]]]].
    - right. right. exact Hdeep.
    - left. split; [exact E|]. exists t. split; [exact (nth_error_In _ _ Hn) | exact Hov].
    - right. left. exists x, t.
      split; [exact E|]. split; [exact (nth_error_In _ _ Hn) | exact Hx]. }
  destruct e as [m|m|k| | | | |]; simpl in H;
    try (right; exact (Hother H)).
  left. now exists m.
Qed.

Lemma validation_exceptions_witness :
  (exists m, ValueError = ValidationError m) \/
  (ValueError = OverflowError /\
   exists t, In t (grammar.tasks long_int_doc) /\ overflows decimal_int t) \/
  (exists x t, ValueError = repr_error x /\ In t (grammar.tasks long_int_doc) /\
               repr_raises decimal_int sample_repr x t) \/
  (ValueError = RecursionError /\
   passes_structural decimal_int long_int_doc /\
   deep (doc_edges long_int_doc) default_limit).
Proof.
  apply (validation_exceptions decimal_int sample_repr insertion_order default_limit
           long_int_doc ValueError).
  - exact insertion_order_perm.
  - vm_compute. reflexivity.
Defined.

(** ** What the parser returns *)

Section ParsedFacts.
Variable repr : py_value -> string + repr_exn.
Variable int_of_str : string -> option Z.
Variable dict_of_list : list py_value -> dict py_value + conversion_exn.

Lemma parse_task_ok entry tasks tasks' :
  parser.parse_task repr dict_of_list entry tasks = Ok tasks' ->
  exists node, tasks' = tasks ++ [node] /\ task_parsed repr dict_of_list entry node.
Proof.
  destruct entry as [|b|z|f|s|l|t]; try (simpl; discriminate).
  unfold parser.parse_task.
  fold (field_dict dict_of_list "input" t).
  fold (field_dict dict_of_list "resources" t).
  fold (field_dict dict_of_list "labels" t).
  destruct (parser.py_str repr (dict_get_default "name" (PyStr "") t))
    as [name|e|] eqn:Hn; cbn [bind]; try discriminate.
  destruct (parser.py_str repr (dict_get_default "agent" (PyStr "") t))
    as [agent|e|] eqn:Ha; cbn [bind]; try discriminate.
  destruct (field_dict dict_of_list "input" t) as [input|e|] eqn:Hi;
    cbn [bind]; try discriminate.
  destruct (field_dict dict_of_list "resources" t) as [resources|e|] eqn:Hr;
    cbn [bind]; try discriminate.
  destruct (field_dict dict_of_list "labels" t) as [labels|e|] eqn:Hl;
    cbn [bind]; try discriminate.
  intros H. injection H as <-. eexists. split; [reflexivity|].
  exists t.
  cbn [grammar.name grammar.agent grammar.input grammar.resources grammar.labels].
  repeat split; assumption.
Qed.

Lemma parse_tasks_ok raw_tasks : forall tasks tasks',
  for_each (parser.parse_task repr dict_of_list) raw_tasks tasks = Ok tasks' ->
  exists nodes, tasks' = tasks ++ nodes /\
                Forall2 (task_parsed repr dict_of_list) raw_tasks nodes.
Proof.
  induction raw_tasks as [|entry raw_tasks IH]; intros tasks tasks' H;
    cbn [for_each] in H.
  - injection H as <-. exists []. split; [now rewrite app_nil_r | constructor].
  - destruct (parser.parse_task repr dict_of_list entry tasks) as [tasks1|e|] eqn:E;
      cbn [bind] in H; try discriminate.
    destruct (parse_task_ok _ _ _ E) as [node [-> Hnode]].
    destruct (IH _ _ H) as [nodes [-> Hnodes]].
    exists (node :: nodes). split; [now rewrite <- app_assoc | now constructor].
Qed.

Lemma parse_edge_ok entry edges edges' :
  parser.parse_edge repr entry edges = Ok edges' ->
  exists e, edges' = edges ++ [e] /\ edge_parsed repr entry e.
Proof.
  destruct entry as [|b|z|f|s|l|m]; try (simpl; discriminate).
  unfold parser.parse_edge.
  destruct (parser.py_str repr (dict_get_default "from" (PyStr "") m))
    as [source|e|] eqn:Hs; cbn [bind]; try discriminate.
  destruct (parser.py_str repr (dict_get_default "to" (PyStr "") m))
    as [target|e|] eqn:Ht; cbn [bind]; try discriminate.
  intros H. injection H as <-. eexists. split; [reflexivity|].
  exists m. cbn [grammar.source grammar.target grammar.condition].
  repeat split; assumption.
Qed.

Lemma parse_edges_ok raw_edges : forall edges edges',
  for_each (parser.parse_edge repr) raw_edges edges = Ok edges' ->
  exists parsed, edges' = edges ++ parsed /\
                 Forall2 (edge_parsed repr) raw_edges parsed.
Proof.
  induction raw_edges as [|entry raw_edges IH]; intros edges edges' H;
    cbn [for_each] in H.
  - injection H as <-. exists []. split; [now rewrite app_nil_r | constructor].
  - destruct (parser.parse_edge repr entry edges) as [edges1|e|] eqn:E;
      cbn [bind] in H; try discriminate.
    destruct (parse_edge_ok _ _ _ E) as [e [-> He]].
    destruct (IH _ _ H) as [parsed [-> Hparsed]].
    exists (e :: parsed). split; [now rewrite <- app_assoc | now constructor].
Qed.

(** A successful parse went through every stage. *)
Lemma parse_document_ok raw doc :
  parser.parse_document repr int_of_str dict_of_list raw = Ok doc ->
  exists version flow_id tenant raw_tasks tasks raw_edges edges policy,
    py_int int_of_str (dict_get_default "version" (PyInt 1) raw) = Ok version /\
    parser.py_str repr (dict_get_default "id" (PyStr "") raw) = Ok flow_id /\
    parser.py_str repr (dict_get_default "tenant" (PyStr "") raw) = Ok tenant /\
    dict_get_default "tasks" PyNone raw = PyList raw_tasks /\
    for_each (parser.parse_task repr dict_of_list) raw_tasks [] = Ok tasks /\
    py_or (dict_get_default "edges" PyNone raw) (PyList []) = PyList raw_edges /\
    for_each (parser.parse_edge repr) raw_edges [] = Ok edges /\
    parser.parse_policy repr (py_or (dict_get_default "policy" PyNone raw) (PyDict []))
    = Ok policy /\
    doc = {| grammar.version := version;
             grammar.id := flow_id;
             grammar.tenant := tenant;
             grammar.tasks := tasks;
             grammar.edges := edges;
             grammar.policy := policy |}.
Proof.
  unfold parser.parse_document, parser._require_list. intros H.
  destruct (py_int int_of_str (dict_get_default "version" (PyInt 1) raw))
    as [version|e|] eqn:Hv; cbn [bind] in H; try discriminate.
  destruct (parser.py_str repr (dict_get_default "id" (PyStr "") raw))
    as [flow_id|e|] eqn:Hid; cbn [bind] in H; try discriminate.
  destruct (parser.py_str repr (dict_get_default "tenant" (PyStr "") raw))
    as [tenant|e|] eqn:Hten; cbn [bind] in H; try discriminate.
  destruct (dict_get_default "tasks" PyNone raw) as [|b|z|f|s|raw_tasks|d] eqn:Ht;
    cbn [bind] in H; try discriminate.
  destruct (for_each (parser.parse_task repr dict_of_list) raw_tasks [])
    as [tasks|e|] eqn:Hts; cbn [bind] in H; try discriminate.
  destruct (py_or (dict_get_default "edges" PyNone raw) (PyList []))
    as [|b|z|f|s|raw_edges|d] eqn:He; try discriminate.
  destruct (for_each (parser.parse_edge repr) raw_edges []) as [edges|e|] eqn:Hes;
    cbn [bind] in H; try discriminate.
  destruct (parser.parse_policy repr _) as [policy|e|] eqn:Hp; cbn [bind] in H;
    try discriminate.
  injection H as <-.
  exists version, flow_id, tenant, raw_tasks, tasks, raw_edges, edges, policy.
  repeat (split; [first [assumption | reflexivity]|]). reflexivity.
Qed.

Lemma py_or_entries v l : py_or v (PyList []) = PyList l -> entries v = l.
Proof.
  intros H. destruct (py_or_list v l H) as [[_ ->]|[Hf ->]]; [reflexivity|].
  now apply falsy_entries.
Qed.

(** X13.  A parsed document holds one task node per entry of tasks and
    one edge per entry of edges, in the order of the source: name, agent,
    from and to are [str] of the fields (the empty string when absent),
    input, resources and labels are [dict] of the fields, condition is the
    field as loaded. *)
Theorem parsed_entries raw doc :
  parser.parse_document repr int_of_str dict_of_list raw = Ok doc ->
  Forall2 (task_parsed repr dict_of_list)
          (entries (dict_get_default "tasks" PyNone raw)) (grammar.tasks doc) /\
  Forall2 (edge_parsed repr)
          (entries (dict_get_default "edges" PyNone raw)) (grammar.edges doc).
Proof.
  intros H.
  destruct (parse_document_ok raw doc H)
    as [version [flow_id [tenant [raw_tasks [tasks [raw_edges [edges [policy
         [_ [_ [_ [Htasks [Hloop [Hedges [Heloop [_ ->]]]]]]]]]]]]]]]].
  simpl. rewrite Htasks. simpl. rewrite (py_or_entries _ _ Hedges).
  destruct (parse_tasks_ok _ _ _ Hloop) as [nodes [-> Hnodes]].
  destruct (parse_edges_ok _ _ _ Heloop) as [parsed [-> Hparsed]].
  split; assumption.
Qed.

(** X14.  The parser's defaults: an absent version reads as 1, an absent
    id or tenant as the empty string, an absent or falsy edges as no
    edges, an absent or falsy policy as risk level low, no approval, no
    retention and no extra fields. *)
Theorem parse_defaults raw doc :
  parser.parse_document repr int_of_str dict_of_list raw = Ok doc ->
  (dict_get "version" raw = None -> grammar.version doc = 1%Z) /\
  (dict_get "id" raw = None -> grammar.id doc = "") /\
  (dict_get "tenant" raw = None -> grammar.tenant doc = "") /\
  (truthy (dict_get_default "edges" PyNone raw) = false -> grammar.edges doc = []) /\
  (truthy (dict_get_default "policy" PyNone raw) = false ->
   grammar.policy doc = default_policy).
Proof.
  intros H.
  destruct (parse_document_ok raw doc H)
    as [version [flow_id [tenant [raw_tasks [tasks [raw_edges [edges [policy
         [Hv [Hid [Hten [_ [_ [Hedges [Heloop [Hpolicy ->]]]]]]]]]]]]]]]].
  simpl. unfold dict_get_default in *.
  split; [|split; [|split; [|split]]].
  - intros E. rewrite E in Hv. simpl in Hv. now injection Hv as <-.
  - intros E. rewrite E in Hid. simpl in Hid. now injection Hid as <-.
  - intros E. rewrite E in Hten. simpl in Hten. now injection Hten as <-.
  - intros E. unfold py_or in Hedges. rewrite E in Hedges.
    injection Hedges as <-. simpl in Heloop. now injection Heloop as <-.
  - intros E. unfold py_or in Hpolicy. rewrite E in Hpolicy.
    simpl in Hpolicy. now injection Hpolicy as <-.
Qed.

Lemma dict_get_filter {V} (keep : string -> bool) (d : dict V) k :
  dict_get k (filter (fun item => keep (fst item)) d)
  = if keep k then dict_get k d else None.
Proof.
  induction d as [|[k0 v0] d IH]; simpl.
  - now destruct (keep k).
  - destruct (keep k0) eqn:Hk0; simpl.
    + destruct (String.eqb_spec k0 k) as [->|E].
      * now rewrite Hk0.
      * exact IH.
    + rewrite IH. destruct (String.eqb_spec k0 k) as [->|E]; [|reflexivity].
      now rewrite Hk0.
Qed.

(** X15.  From a non-empty policy mapping the parser takes risk_level
    ([str], default low), requires_approval ([bool], default false) and
    retention as fields, and keeps every other key, with its value, in
    extra; the three field keys never appear in extra. *)
Theorem parsed_policy raw doc p :
  parser.parse_document repr int_of_str dict_of_list raw = Ok doc ->
  dict_get "policy" raw = Some (PyDict p) -> p <> [] ->
  parser.py_str repr (dict_get_default "risk_level" (PyStr "low") p)
  = Ok (grammar.risk_level (grammar.policy doc)) /\
  grammar.requires_approval (grammar.policy doc)
  = truthy (dict_get_default "requires_approval" (PyBool false) p) /\
  grammar.retention (grammar.policy doc) = dict_get_default "retention" PyNone p /\
  forall k, dict_get k (grammar.extra (grammar.policy doc))
            = if set_mem k policy_fields then None else dict_get k p.
Proof.
  intros H Hp Hne.
  destruct (parse_document_ok raw doc H)
    as [version [flow_id [tenant [raw_tasks [tasks [raw_edges [edges [policy
         [_ [_ [_ [_ [_ [_ [_ [Hpolicy ->]]]]]]]]]]]]]]]].
  cbn [grammar.policy]. unfold dict_get_default in Hpolicy at 1. rewrite Hp in Hpolicy.
  assert (Hor : py_or (PyDict p) (PyDict []) = PyDict p)
    by (destruct p; [contradiction | reflexivity]).
  rewrite Hor in Hpolicy. unfold parser.parse_policy, parser.attr_get in Hpolicy.
  cbn [bind] in Hpolicy.
  destruct (parser.py_str repr (dict_get_default "risk_level" (PyStr "low") p))
    as [risk_level|e|]; cbn [bind] in Hpolicy; try discriminate.
  injection Hpolicy as <-.
  cbn [grammar.risk_level grammar.requires_approval grammar.retention grammar.extra].
  repeat split. intros k.
  etransitivity;
    [exact (dict_get_filter (fun k => negb (set_mem k policy_fields)) p k)|].
  change ((k =? "risk_level")
          || ((k =? "requires_approval") || ((k =? "retention") || false)))%bool
    with (set_mem k policy_fields).
  now destruct (set_mem k policy_fields).
Qed.

Lemma field_dict_total key t :
  mapping_or_falsy (dict_get_default key (PyDict []) t) ->
  exists d, field_dict dict_of_list key t = Ok d.
Proof.
  unfold field_dict, mapping_or_falsy, py_or.
  destruct (dict_get_default key (PyDict []) t) as [|b|z|f|s|l|d];
    intros [Hm|Hf]; try contradiction;
    try (rewrite Hf; simpl; eauto).
  destruct (truthy (PyDict d)); simpl; eauto.
Qed.

Lemma parse_tasks_total raw_tasks : forall tasks,
  Forall (well_shaped_task repr) raw_tasks ->
  exists tasks', for_each (parser.parse_task repr dict_of_list) raw_tasks tasks
                 = Ok tasks'.
Proof.
  induction raw_tasks as [|entry raw_tasks IH]; intros tasks Hall; cbn [for_each].
  - eauto.
  - inversion Hall as [|? ? Hentry Hrest]; subst.
    destruct entry as [|b|z|f|s|l|t]; try contradiction.
    destruct Hentry as [[name Hn] [[agent Ha] [Hi [Hr Hl]]]].
    destruct (field_dict_total "input" t Hi) as [input Ei].
    destruct (field_dict_total "resources" t Hr) as [resources Er].
    destruct (field_dict_total "labels" t Hl) as [labels El].
    unfold field_dict in Ei, Er, El.
    unfold parser.parse_task. rewrite Hn, Ha. cbn [bind].
    rewrite Ei. cbn [bind]. rewrite Er. cbn [bind].
    rewrite El. cbn [bind]. now apply IH.
Qed.

Lemma parse_edges_total raw_edges : forall edges,
  Forall (well_shaped_edge repr) raw_edges ->
  exists edges', for_each (parser.parse_edge repr) raw_edges edges = Ok edges'.
Proof.
  induction raw_edges as [|entry raw_edges IH]; intros edges Hall; cbn [for_each].
  - eauto.
  - inversion Hall as [|? ? Hentry Hrest]; subst.
    destruct Hentry as [Hm Hc].
    destruct entry as [|b|z|f|s|l|m]; try contradiction.
    destruct Hc as [[source Hs] [target Ht]].
    unfold parser.parse_edge. rewrite Hs, Ht. cbn [bind]. now apply IH.
Qed.

(** X16.  The parser checks shape and convertibility only.  It returns a
    document for every root mapping whose version converts to [int],
    whose tasks are a list of mappings with input, resources and labels
    each a mapping or falsy, whose edges are falsy or a list of mappings
    and whose policy is falsy or a mapping, provided [str] returns on id,
    tenant, names, agents, edge endpoints and risk level; beyond that
    nothing is asked of these values, which may be empty, blank or of any
    type. *)
Theorem parser_accepts_well_shaped
  (safe_load : string -> load_result) (src : string) (raw : dict py_value) :
  safe_load src = Loaded (PyDict raw) ->
  well_shaped_root repr int_of_str raw ->
  exists doc, parser.parse_yaml safe_load repr int_of_str dict_of_list src = Ok doc.
Proof.
  intros Hload [[version Hv] [[flow_id Hid] [[tenant Hten]
                 [Hseq [Htasks [Hedges [Hentries Hpolicy]]]]]]].
  unfold parser.parse_yaml. rewrite Hload.
  unfold parser.parse_document, parser._require_list.
  rewrite Hv. cbn [bind]. rewrite Hid, Hten. cbn [bind].
  destruct (dict_get_default "tasks" PyNone raw) as [|b|z|f|s|raw_tasks|d];
    try contradiction.
  cbn [bind]. simpl in Htasks.
  destruct (parse_tasks_total raw_tasks [] Htasks) as [tasks Hts].
  rewrite Hts. cbn [bind].
  assert (Hor : py_or (dict_get_default "edges" PyNone raw) (PyList [])
                = PyList (entries (dict_get_default "edges" PyNone raw))).
  { unfold py_or.
    destruct (truthy (dict_get_default "edges" PyNone raw)) eqn:Htr.
    - destruct Hedges as [Hf|Hs]; [congruence|].
      destruct (dict_get_default "edges" PyNone raw); try contradiction. reflexivity.
    - now rewrite falsy_entries. }
  rewrite Hor.
  destruct (parse_edges_total _ [] Hentries) as [edges Hes].
  rewrite Hes. cbn [bind].
  pose proof (parse_policy_converts repr _ Hpolicy) as Hpol.
  destruct (parser.parse_policy repr _) as [policy|e|]; simpl in Hpol;
    try contradiction.
  cbn [bind]. eauto.
Qed.

Lemma parse_task_message t tasks m :
  parser.parse_task repr dict_of_list t tasks = Raise (ParseError m) ->
  m = TaskNotMapping /\ ~ is_mapping t.
Proof.
  intros H.
  destruct (parse_task_cases repr int_of_str dict_of_list t tasks) as [_ [Herr _]].
  rewrite H in Herr. specialize (Herr I).
  destruct t as [|b|z|f|s|l|d]; simpl in H;
    try (injection H as <-; tauto).
  exfalso. apply Herr. exact I.
Qed.

Lemma parse_tasks_message raw_tasks : forall tasks m,
  for_each (parser.parse_task repr dict_of_list) raw_tasks tasks
  = Raise (ParseError m) ->
  m = TaskNotMapping /\ exists t, In t raw_tasks /\ ~ is_mapping t.
Proof.
  induction raw_tasks as [|t raw_tasks IH]; intros tasks m H; cbn [for_each] in H;
    [discriminate|].
  destruct (parser.parse_task repr dict_of_list t tasks) as [tasks1|e|] eqn:E;
    cbn [bind] in H; try discriminate.
  - destruct (IH _ _ H) as [-> [x [Hx Hm]]]. split; [reflexivity|].
    exists x. split; [now right | assumption].
  - injection H as ->. destruct (parse_task_message _ _ _ E) as [-> Hm].
    split; [reflexivity|]. exists t. split; [now left | assumption].
Qed.

Lemma parse_edge_message e edges m :
  parser.parse_edge repr e edges = Raise (ParseError m) ->
  m = EdgeNotMapping /\ ~ is_mapping e.
Proof.
  intros H.
  destruct (parse_edge_cases repr int_of_str dict_of_list e edges) as [_ [Herr _]].
  rewrite H in Herr. specialize (Herr I).
  destruct e as [|b|z|f|s|l|d]; simpl in H;
    try (injection H as <-; tauto).
  exfalso. apply Herr. exact I.
Qed.

Lemma parse_edges_message raw_edges : forall edges m,
  for_each (parser.parse_edge repr) raw_edges edges = Raise (ParseError m) ->
  m = EdgeNotMapping /\ exists e, In e raw_edges /\ ~ is_mapping e.
Proof.
  induction raw_edges as [|e raw_edges IH]; intros edges m H; cbn [for_each] in H;
    [discriminate|].
  destruct (parser.parse_edge repr e edges) as [edges1|x|] eqn:E;
    cbn [bind] in H; try discriminate.
  - destruct (IH _ _ H) as [-> [y [Hy Hm]]]. split; [reflexivity|].
    exists y. split; [now right | assumption].
  - injection H as ->. destruct (parse_edge_message _ _ _ E) as [-> Hm].
    split; [reflexivity|]. exists e. split; [now left | assumption].
Qed.

(** X17.  Every [ParseError] the parser raises says what is wrong: the
    YAML error carries the loader's text; the other messages are raised
    only on a root that is not a mapping, on tasks absent or null, on
    tasks that are not a list, on a task entry that is not a mapping, on a
    truthy edges value that is not a list, and on an edge entry that is
    not a mapping, respectively. *)
Theorem parse_error_messages
  (safe_load : string -> load_result) (src : string) (m : parse_msg) :
  parser.parse_yaml safe_load repr int_of_str dict_of_list src = Raise (ParseError m) ->
  message_holds (safe_load src) m.
Proof.
  unfold parser.parse_yaml.
  destruct (safe_load src) as [detail|e|v].
  { intros H. injection H as <-. reflexivity. }
  { destruct e; discriminate. }
  destruct v as [|b|z|f|s|l|raw];
    try (intros H; injection H as <-; eexists; split; [reflexivity | simpl; tauto]).
  unfold parser.parse_document, parser._require_list.
  pose proof (py_int_outcomes int_of_str (dict_get_default "version" (PyInt 1) raw))
    as Hver.
  destruct (py_int int_of_str (dict_get_default "version" (PyInt 1) raw))
    as [version|e|]; cbn [bind]; [| |discriminate].
  2:{ intros H. injection H as ->. contradiction. }
  clear Hver.
  pose proof (py_str_outcomes repr (dict_get_default "id" (PyStr "") raw)) as Hid.
  destruct (parser.py_str repr (dict_get_default "id" (PyStr "") raw))
    as [flow_id|e|]; cbn [bind]; [| |discriminate].
  2:{ intros H. injection H as ->. contradiction. }
  clear Hid.
  pose proof (py_str_outcomes repr (dict_get_default "tenant" (PyStr "") raw)) as Hten.
  destruct (parser.py_str repr (dict_get_default "tenant" (PyStr "") raw))
    as [tenant|e|]; cbn [bind]; [| |discriminate].
  2:{ intros H. injection H as ->. contradiction. }
  clear Hten.
  destruct (dict_get_default "tasks" PyNone raw) as [|b|z|f|s|raw_tasks|d] eqn:Ht;
    cbn [bind];
    try (intros H; injection H as <-; simpl; split; [reflexivity|];
         exists raw; rewrite Ht; split; [reflexivity|]; simpl;
         first [reflexivity | split; [discriminate | tauto]]).
  destruct (for_each (parser.parse_task repr dict_of_list) raw_tasks [])
    as [tasks|e|] eqn:Hts; cbn [bind]; [| |discriminate].
  2:{ intros H. injection H as ->.
      destruct (parse_tasks_message _ _ _ Hts) as [-> [t [Hin Hm]]].
      exists raw, t. rewrite Ht. auto. }
  destruct (py_or (dict_get_default "edges" PyNone raw) (PyList []))
    as [|b|z|f|s|raw_edges|d] eqn:He;
    try (intros H; injection H as <-; exists raw; split; [reflexivity|];
         apply py_or_not_list; rewrite He; simpl; tauto).
  destruct (for_each (parser.parse_edge repr) raw_edges []) as [edges|e|] eqn:Hes;
    cbn [bind]; [| |discriminate].
  - pose proof (parse_policy_outcomes repr
                  (py_or (dict_get_default "policy" PyNone raw) (PyDict []))) as Hp.
    destruct (parser.parse_policy repr _) as [policy|e|]; cbn [bind];
      [discriminate | | discriminate].
    intros H. injection H as ->. contradiction.
  - intros H. injection H as ->.
    destruct (parse_edges_message _ _ _ Hes) as [-> [x [Hx Hm]]].
    exists raw, x. split; [reflexivity|].
    rewrite <- (py_or_entries _ _ He) in Hx. auto.
Qed.
End ParsedFacts.

Lemma parsed_entries_witness :
  Forall2 (task_parsed sample_repr sample_dict_of_list)
          (entries (dict_get_default "tasks" PyNone sample_raw))
          (grammar.tasks sample_parsed) /\
  Forall2 (edge_parsed sample_repr)
          (entries (dict_get_default "edges" PyNone sample_raw))
          (grammar.edges sample_parsed).
Proof.
  apply (parsed_entries sample_repr decimal_int sample_dict_of_list
           sample_raw sample_parsed).
  reflexivity.
Defined.

Lemma parse_defaults_witness :
  (dict_get "version" sample_raw = None -> grammar.version sample_parsed = 1%Z) /\
  (dict_get "id" sample_raw = None -> grammar.id sample_parsed = "") /\
  (dict_get "tenant" sample_raw = None -> grammar.tenant sample_parsed = "") /\
  (truthy (dict_get_default "edges" PyNone sample_raw) = false ->
   grammar.edges sample_parsed = []) /\
  (truthy (dict_get_default "policy" PyNone sample_raw) = false ->
   grammar.policy sample_parsed = default_policy).
Proof.
  apply (parse_defaults sample_repr decimal_int sample_dict_of_list
           sample_raw sample_parsed).
  reflexivity.
Defined.

Lemma parsed_policy_witness :
  parser.py_str sample_repr
    (dict_get_default "risk_level" (PyStr "low")
       [("risk_level", PyStr "low"); ("custom_field", PyStr "val")])
  = Ok (grammar.risk_level (grammar.policy sample_parsed)) /\
  grammar.requires_approval (grammar.policy sample_parsed)
  = truthy (dict_get_default "requires_approval" (PyBool false)
              [("risk_level", PyStr "low"); ("custom_field", PyStr "val")]) /\
  grammar.retention (grammar.policy sample_parsed)
  = dict_get_default "retention" PyNone
      [("risk_level", PyStr "low"); ("custom_field", PyStr "val")] /\
  forall k, dict_get k (grammar.extra (grammar.policy sample_parsed))
            = if set_mem k policy_fields then None
              else dict_get k [("risk_level", PyStr "low");
                               ("custom_field", PyStr "val")].
Proof.
  apply (parsed_policy sample_repr decimal_int sample_dict_of_list
           sample_raw sample_parsed).
  - reflexivity.
  - reflexivity.
  - discriminate.
Defined.

Lemma parser_accepts_well_shaped_witness :
  exists doc,
    parser.parse_yaml shaped_load sample_repr decimal_int sample_dict_of_list
      "{id: f, tasks: [{name: a, agent: x, input: {k: v}}, {name: b, labels: null}], edges: [{from: a, to: b}], policy: {risk_level: high}}"
    = Ok doc.
Proof.
  apply (parser_accepts_well_shaped sample_repr decimal_int sample_dict_of_list
           shaped_load
           "{id: f, tasks: [{name: a, agent: x, input: {k: v}}, {name: b, labels: null}], edges: [{from: a, to: b}], policy: {risk_level: high}}"
           shaped_raw).
  - reflexivity.
  - unfold well_shaped_root, shaped_raw. simpl.
    split; [exists 1%Z; reflexivity|].
    split; [eexists; reflexivity|]. split; [eexists; reflexivity|].
    split; [exact I|].
    split.
    { repeat constructor; simpl; try (eexists; reflexivity);
        unfold mapping_or_falsy; simpl; tauto. }
    split; [right; exact I|].
    split.
    { repeat constructor; simpl; eexists; reflexivity. }
    eexists. reflexivity.
Defined.

Lemma parse_error_messages_witness :
  message_holds (flow_load "{id: x}") (MissingField "tasks").
Proof.
  apply (parse_error_messages sample_repr decimal_int sample_dict_of_list
           flow_load "{id: x}" (MissingField "tasks")).
  reflexivity.
Defined.

(** ** Validation under another iteration order of the sets *)

(** X18.  On a document in whose graph every path through distinct tasks
    has fewer tasks than the recursion limit leaves room for nested calls
    of the traversal, the outcome of validation does not depend on the
    order in which the adjacency sets are iterated, with one exception:
    when the graph has a cycle, the task that the cycle error names may
    differ. *)
Theorem validation_across_orders int_of_str repr iter1 iter2 recursion_limit doc :
  (forall s, Permutation (iter1 s) s) ->
  (forall s, Permutation (iter2 s) s) ->
  shallow (doc_edges doc) recursion_limit ->
  same_but_cycle_name
    (validator.validate_and_normalize int_of_str repr iter1 recursion_limit doc)
    (validator.validate_and_normalize int_of_str repr iter2 recursion_limit doc).
Proof.
  intros H1 H2 Hroom. unfold validator.validate_and_normalize.
  destruct (str_empty (strip (grammar.id doc))); [(left; reflexivity)|].
  destruct (str_empty (strip (grammar.tenant doc))); [(left; reflexivity)|].
  destruct (match grammar.tasks doc with [] => true | _ => false end); [(left; reflexivity)|].
  match goal with
  | |- same_but_cycle_name (bind ?r _) _ =>
      pose proof (tasks_loop_spec int_of_str repr (grammar.tasks doc) [] [] eq_refl
                    (NoDup_nil _)
                  : tasks_loop_post int_of_str repr [] (grammar.tasks doc) [] r) as Ht;
      destruct r as [[seen irt]|e|]; cbn [bind]; [|(left; reflexivity)|(left; reflexivity)]
  end.
  destruct Ht as [Hkeys [Hnd _]]. simpl in Hkeys, Hnd.
  pose proof (edges_loop_spec irt (grammar.edges doc) []) as He.
  destruct (for_each (validator.check_edge irt) (grammar.edges doc) [])
    as [ir_edges|e|]; cbn [bind]; [|(left; reflexivity)|(left; reflexivity)].
  destruct He as [-> Hknown]. cbn [app].
  destruct (negb (set_mem (grammar.risk_level (grammar.policy doc))
                    validator.VALID_RISK_LEVELS)); [(left; reflexivity)|].
  assert (Hwf : dict_wf irt) by (unfold dict_wf; now rewrite Hkeys).
  assert (Hends : forall e, In e (map validator.ir_edge (grammar.edges doc)) ->
            In (ir.source e) (dict_keys irt) /\ In (ir.target e) (dict_keys irt)).
  { intros e Hin. apply in_map_iff in Hin. destruct Hin as [e0 [<- He0]].
    simpl. now apply Hknown. }
  fold (doc_edges doc).
  assert (Hdeep : ~ deep (doc_edges doc) recursion_limit)
    by now apply shallow_not_deep.
  pose proof (assert_dag_spec iter1 recursion_limit irt _ H1 Hwf Hends) as Hd1.
  pose proof (assert_dag_spec iter2 recursion_limit irt _ H2 Hwf Hends) as Hd2.
  destruct (validator._assert_dag iter1 recursion_limit irt _) as [[]|e1|];
    destruct (validator._assert_dag iter2 recursion_limit irt _) as [[]|e2|];
    cbn [bind]; try contradiction.
  - (left; reflexivity).
  - exfalso. destruct e2 as [|m| | | | | |]; simpl in Hd2; try contradiction.
    destruct m; try contradiction. exact (Hd1 _ Hd2).
  - exfalso. destruct e1 as [|m| | | | | |]; simpl in Hd1; try contradiction.
    destruct m; try contradiction. exact (Hd2 _ Hd1).
  - destruct e1 as [|m1| | | | | |]; simpl in Hd1; try contradiction.
    destruct m1; try contradiction.
    destruct e2 as [|m2| | | | | |]; simpl in Hd2; try contradiction.
    destruct m2; try contradiction.
    right. eauto.
Qed.

Lemma reverse_order_perm s : Permutation (reverse_order s) s.
Proof. symmetry. apply Permutation_rev. Qed.

Lemma validation_across_orders_witness :
  same_but_cycle_name
    (validator.validate_and_normalize decimal_int sample_repr insertion_order
       default_limit fork_doc)
    (validator.validate_and_normalize decimal_int sample_repr reverse_order
       default_limit fork_doc).
Proof.
  apply (validation_across_orders decimal_int sample_repr insertion_order
           reverse_order default_limit fork_doc).
  - exact insertion_order_perm.
  - exact reverse_order_perm.
  - apply (shallow_by_count _ (task_names fork_doc));
      [|unfold default_limit; simpl; lia..].
    intros x Hx. simpl in Hx.
    repeat (destruct Hx as [<-|Hx]; [simpl; tauto|]). destruct Hx.
Defined.

(** The exception is real: on [fork_doc] the two orders name different
    tasks. *)
Lemma cycle_name_varies :
  validator.validate_and_normalize decimal_int sample_repr insertion_order
    default_limit fork_doc
  = Raise (ValidationError (CycleAt "a")) /\
  validator.validate_and_normalize decimal_int sample_repr reverse_order
    default_limit fork_doc
  = Raise (ValidationError (CycleAt "c")).
Proof. split; vm_compute; reflexivity. Qed.

(** ** The invariants of a returned flow *)

(** X19.  Every flow the validator returns satisfies the structural
    invariants: id and tenant are non-blank; there is at least one task;
    the task names are distinct, non-blank and equal to the keys they are
    stored under; every agent is non-blank; every edge joins two tasks of
    the flow; the graph is acyclic; every timeout_ms is positive; the risk
    level is one of low, medium, high and critical. *)
Theorem returned_flow_is_valid int_of_str repr set_iter recursion_limit doc flow :
  (forall s, Permutation (set_iter s) s) ->
  validator.validate_and_normalize int_of_str repr set_iter recursion_limit doc = Ok flow ->
  valid_IRFlow flow.
Proof.
  intros Hiter Hrun.
  pose proof (validate_cases int_of_str repr set_iter recursion_limit Hiter doc) as H.
  rewrite Hrun in H. simpl in H.
  destruct H as [[Hid [Hten [Hsome [Htasks [Hedges Hrisk]]]]]
                   [Hacyc [Eid [Eten [Eedges [Erisk [Ekeys [Hnd Hentries]]]]]]]].
  assert (Hfields : forall k v, In (k, v) (ir.tasks flow) ->
            ir.name v = k /\ nonblank k /\ nonblank (ir.agent v) /\
            (0 < ir.timeout_ms v)%Z).
  { intros k v Hkv.
    destruct (Hentries k v Hkv) as [t [p [z [Ht [-> [-> Hz]]]]]].
    apply In_nth_error in Ht. destruct Ht as [i Hi].
    destruct (Htasks i t Hi) as [Hn [_ [Ha _]]]. simpl. auto. }
  constructor.
  - now rewrite Eid.
  - now rewrite Eten.
  - intros E. apply Hsome. apply (f_equal (@dict_keys ir.IRTask)) in E.
    rewrite Ekeys in E. unfold task_names in E.
    destruct (grammar.tasks doc); [reflexivity | discriminate].
  - unfold dict_wf. now rewrite Ekeys.
  - intros k v Hkv. destruct (Hfields k v Hkv) as [Hname [Hk _]]. auto.
  - intros k v Hkv. now destruct (Hfields k v Hkv) as [_ [_ [Ha _]]].
  - intros e He. rewrite Eedges in He. apply in_map_iff in He.
    destruct He as [e0 [<- He0]]. rewrite Ekeys. simpl. now apply Hedges.
  - now rewrite Eedges.
  - intros k v Hkv. now destruct (Hfields k v Hkv) as [_ [_ [_ Hz]]].
  - now rewrite Erisk.
Qed.

Lemma returned_flow_is_valid_witness : valid_IRFlow hello_flow.
Proof.
  apply (returned_flow_is_valid decimal_int sample_repr insertion_order default_limit
           hello_doc hello_flow).
  - exact insertion_order_perm.
  - vm_compute. reflexivity.
Defined.
